(** * autobus: dependency graph, staleness decision, tree traversal and
    generators

    A shallow embedding of [autobus.path], [autobus.base] and [autobus.c].

    - Python objects that are mutated through references (targets, the
      lists handed to [TraversalTree]) live in an explicit store; every
      operation that can touch them is a computation in the state-and-
      exception monad [M].
    - Exceptions are values of [exn]; a computation that raises keeps the
      store as it was at the [raise].
    - Modification times are the finite floats returned by
      [os.path.getmtime]; only their order is used, so they are embedded
      in [Q].
    - [os.path] is the POSIX flavour ([posixpath]).  The file system is a
      snapshot of what [os.stat] answers for each path - a modification
      time, or the error it raises - and does not change while one method
      runs.
    - [==] on nodes is object identity, the default of Python classes.
    - [TargetBase.build] and the generators run external commands: what
      they print and the calls of [subprocess.run] they make are recorded
      as events, and the outcome of a call is left to the operating
      system. *)

From Stdlib Require Import Ascii String QArith.
From stdpp Require Import gmap strings list fin_maps.

Local Open Scope string_scope.
Local Open Scope list_scope.

(** ** Exceptions and the state-and-exception monad *)

Inductive exn : Type :=
  | AttributeError
  | IndexError
  | TypeError
  | ValueError
  | FileNotFoundError
  | NotADirectoryError
  | PermissionError
  | OSError (errno : Z).

Inductive result (A : Type) : Type :=
  | Ok (a : A)
  | Raise (e : exn).
Arguments Ok {A} a.
Arguments Raise {A} e.

Definition result_bind {A B} (r : result A) (k : A -> result B) : result B :=
  match r with
  | Ok a => k a
  | Raise e => Raise e
  end.

Definition M (St A : Type) : Type := St -> result A * St.

Definition ret {St A} (a : A) : M St A := fun s => (Ok a, s).
Definition raise {St A} (e : exn) : M St A := fun s => (Raise e, s).
Definition bind {St A B} (m : M St A) (k : A -> M St B) : M St B :=
  fun s => match m s with
           | (Ok a, s') => k a s'
           | (Raise e, s') => (Raise e, s')
           end.
Definition lift {St A} (r : result A) : M St A := fun s => (r, s).

Declare Scope py_scope.
Delimit Scope py_scope with py.
Notation "x <- c ;; k" := (bind c (fun x => k))
  (at level 100, c at next level, right associativity) : py_scope.
Notation "c ;;; k" := (bind c (fun _ => k))
  (at level 100, right associativity) : py_scope.
Notation "'let?' x ':=' r 'in' k" := (result_bind r (fun x => k))
  (at level 100, x name, r at next level, k at level 200,
   right associativity) : py_scope.
Local Open Scope py_scope.

(** [[f(x) for x in l]] where [f] may raise or mutate: left to right. *)
Fixpoint mapM {St A B} (f : A -> M St B) (l : list A) : M St (list B) :=
  match l with
  | [] => ret []
  | x :: l' => y <- f x ;; ys <- mapM f l' ;; ret (y :: ys)
  end.

Fixpoint result_map {A B} (f : A -> result B) (l : list A) : result (list B) :=
  match l with
  | [] => Ok []
  | x :: l' => let? y := f x in let? ys := result_map f l' in Ok (y :: ys)
  end.

(** ** autobus.path *)

Module Path.

(** *** The part of [posixpath] the module calls *)

Definition sep : string := "/".

Definition startswith (s p : string) : bool := String.prefix p s.

Fixpoint endswith_sep (s : string) : bool :=
  match s with
  | EmptyString => false
  | String c EmptyString => Ascii.eqb c "/"%char
  | String _ s' => endswith_sep s'
  end.

Definition isabs (s : string) : bool := startswith s sep.

Definition join (a b : string) : string :=
  if startswith b sep then b
  else if String.eqb a "" || endswith_sep a then a +:+ b
  else a +:+ sep +:+ b.

(** [s.split('/')], with [cur] the component read so far. *)
Fixpoint split_sep (s cur : string) : list string :=
  match s with
  | EmptyString => [cur]
  | String c s' =>
      if Ascii.eqb c "/"%char then cur :: split_sep s' ""
      else split_sep s' (cur +:+ String c "")
  end.

Definition norm_step (initial_slashes : nat) (new_comps : list string)
    (comp : string) : list string :=
  if String.eqb comp "" || String.eqb comp "." then new_comps
  else if negb (String.eqb comp "..")
          || (Nat.eqb initial_slashes 0 && bool_decide (new_comps = []))
          || bool_decide (last new_comps = Some "..")
       then new_comps ++ [comp]
       else removelast new_comps.

Definition normpath (path : string) : string :=
  if String.eqb path "" then "."
  else
    let initial_slashes :=
      if startswith path sep then
        if startswith path "//" && negb (startswith path "///") then 2%nat
        else 1%nat
      else 0%nat in
    let comps := fold_left (norm_step initial_slashes) (split_sep path "") [] in
    let path := String.concat sep comps in
    let path :=
      String.concat "" (replicate initial_slashes sep) +:+ path in
    if String.eqb path "" then "." else path.

(** *** Directory and File *)

#[warnings="-register-all"]
Inductive Directory : Type :=
  mkDirectory (path : string) (parent : option Directory).

(** [Directory.absolute_path].  Without a parent, [self.parent.absolute_path]
    is an attribute access on [None]. *)
Fixpoint Directory_absolute_path (d : Directory) : result string :=
  match d with
  | mkDirectory path parent =>
      if isabs path then Ok path
      else match parent with
           | None => Raise AttributeError
           | Some p =>
               let? a := Directory_absolute_path p in
               Ok (normpath (join a path))
           end
  end.

Record File : Type := mkFile {
  name : string;
  parent : option Directory
}.

(** [File.__init__]: the extension, when given and non-empty, is appended. *)
Definition File_init (name : string) (parent : option Directory)
    (extension : option string) : File :=
  match extension with
  | Some ext =>
      if String.eqb ext "" then mkFile name parent
      else mkFile (name +:+ "." +:+ ext) parent
  | None => mkFile name parent
  end.

Definition File_absolute_path (f : File) : result string :=
  match parent f with
  | Some p =>
      let? a := Directory_absolute_path p in
      Ok (normpath (join a (name f)))
  | None => Raise AttributeError
  end.

(** *** The file system: a snapshot of what [os.stat] answers for each
    path.  [os.path.exists] and [os.path.getmtime] both come down to
    [os.stat]. *)

(** Why [os.stat] fails on a path other than there being nothing at it: a
    component that is not a directory, a directory that may not be
    searched, another error of the operating system, or a path that
    cannot be handed to it (an embedded null character). *)
Inductive stat_failure : Type :=
  | NotADirectory
  | PermissionDenied
  | OtherOSError (errno : Z)
  | UnusablePath.

(** What is known of a path: the modification time of what is there, or
    the failure of [os.stat]. *)
Inductive stat_answer : Type :=
  | Mtime (t : Q)
  | Fails (e : stat_failure).

(** A path that is not in the map has nothing at it. *)
Abbreviation filesystem := (gmap string stat_answer).

(** [os.stat(p).st_mtime] *)
Definition os_stat (fs : filesystem) (p : string) : result Q :=
  match fs !! p with
  | Some (Mtime t) => Ok t
  | Some (Fails NotADirectory) => Raise NotADirectoryError
  | Some (Fails PermissionDenied) => Raise PermissionError
  | Some (Fails (OtherOSError errno)) => Raise (OSError errno)
  | Some (Fails UnusablePath) => Raise ValueError
  | None => Raise FileNotFoundError
  end.

(** [os.path.exists]: [False] for every [OSError] and [ValueError] that
    [os.stat] raises. *)
Definition os_exists (fs : filesystem) (p : string) : bool :=
  match os_stat fs p with
  | Ok _ => true
  | Raise _ => false
  end.

(** [os.path.getmtime]: the error of [os.stat] is passed on. *)
Definition os_getmtime (fs : filesystem) (p : string) : result Q :=
  os_stat fs p.

Section WithFileSystem.
Variable fs : filesystem.

Definition File_exists (f : File) : result bool :=
  let? p := File_absolute_path f in Ok (os_exists fs p).

Definition File_mtime (f : File) : result Q :=
  let? p := File_absolute_path f in os_getmtime fs p.

Fixpoint check_files_exist (file_list : list File) : result bool :=
  match file_list with
  | [] => Ok true
  | file :: rest =>
      let? e := File_exists file in
      if negb e then Ok false else check_files_exist rest
  end.

Definition Qlt_bool (x y : Q) : bool := negb (Qle_bool y x).

(** [result or 0.0]: [None] and a zero float are the falsy values. *)
Definition or_zero (r : option Q) : Q :=
  match r with
  | None => 0%Q
  | Some t => if Qeq_bool t 0 then 0%Q else t
  end.

(** The loop of [get_least_mtime], with [result] the running value. *)
Fixpoint least_loop (file_list : list File) (res : option Q)
    : result (option Q) :=
  match file_list with
  | [] => Ok res
  | file :: rest =>
      let? mtime := File_mtime file in
      match res with
      | None => least_loop rest (Some mtime)
      | Some r =>
          if Qlt_bool mtime r then least_loop rest (Some mtime)
          else least_loop rest res
      end
  end.

Definition get_least_mtime (file_list : list File) : result Q :=
  let? r := least_loop file_list None in Ok (or_zero r).

Fixpoint most_loop (file_list : list File) (res : option Q)
    : result (option Q) :=
  match file_list with
  | [] => Ok res
  | file :: rest =>
      let? mtime := File_mtime file in
      match res with
      | None => most_loop rest (Some mtime)
      | Some r =>
          if Qlt_bool r mtime then most_loop rest (Some mtime)
          else most_loop rest res
      end
  end.

Definition get_most_mtime (file_list : list File) : result Q :=
  let? r := most_loop file_list None in Ok (or_zero r).

End WithFileSystem.

End Path.

(** ** autobus.base: targets and dependency edges *)

Module Base.
Import Path.

Inductive TargetState : Type := NOT_SELECTED | SELECTED | DONE.

(** Object identity of a target. *)
Definition target_ref := nat.

Section Targets.
(** The callables a caller may pass as [selection_function]. *)
Context {Pred : Type}.

Record Dependency : Type := mkDependency {
  target : target_ref;
  selection_function : option Pred
}.

(** What [add_dependencies] and a caller can put in a slot of
    [_dependencies]: an edge, or a Python list of edges. *)
Inductive slot : Type :=
  | Edge (d : Dependency)
  | EdgeList (ds : list Dependency).

(** A target object.  [input_files] and [output_files] stand for what the
    properties of the concrete target class return ([[]] in
    [TargetBase] itself). *)
Record TargetBase : Type := mkTarget {
  _dependencies : list slot;
  dependees : list target_ref;
  state : TargetState;
  input_files : list File;
  output_files : list File
}.

Abbreviation heap := (gmap target_ref TargetBase).

Definition set_dependencies (o : TargetBase) (l : list slot) : TargetBase :=
  mkTarget l (dependees o) (state o) (input_files o) (output_files o).
Definition set_dependees (o : TargetBase) (l : list target_ref) : TargetBase :=
  mkTarget (_dependencies o) l (state o) (input_files o) (output_files o).
Definition set_state (o : TargetBase) (s : TargetState) : TargetBase :=
  mkTarget (_dependencies o) (dependees o) s (input_files o) (output_files o).

(** Attribute access through a reference; a reference that is not a
    target has none of the attributes. *)
Definition get_target (t : target_ref) : M heap TargetBase :=
  fun h => match h !! t with
           | Some o => (Ok o, h)
           | None => (Raise AttributeError, h)
           end.

Definition put_target (t : target_ref) (o : TargetBase) : M heap unit :=
  fun h => (Ok tt, <[t := o]> h).

(** [TargetBase.__init__] of a target class whose file properties return
    [ins] and [outs]. *)
Definition TargetBase_init (ins outs : list File) : M heap target_ref :=
  fun h => let t := fresh (dom h) in
           (Ok t, <[t := mkTarget [] [] NOT_SELECTED ins outs]> h).

(** [Dependency.__init__] *)
Definition Dependency_init (target dependee : target_ref)
    (selection_function : option Pred) : M heap Dependency :=
  o <- get_target target ;;
  put_target target (set_dependees o (dependees o ++ [dependee])) ;;;
  ret (mkDependency target selection_function).

(** [Dependency.from_list] *)
Definition from_list (targets : list target_ref) (dependee : target_ref)
    (selection_function : option Pred) : M heap (list Dependency) :=
  mapM (fun target => Dependency_init target dependee selection_function)
       targets.

(** [TargetBase.add_dependencies]: [self._dependencies] is looked up, the
    argument is evaluated, and its value - one list - is appended. *)
Definition add_dependencies (self : target_ref)
    (dependencies : list target_ref) (selection_function : option Pred)
    : M heap unit :=
  get_target self ;;;
  ds <- from_list dependencies self selection_function ;;
  o <- get_target self ;;
  put_target self (set_dependencies o (_dependencies o ++ [EdgeList ds])).

(** [dependency.target] on a slot. *)
Definition getattr_target (dependency : slot) : result target_ref :=
  match dependency with
  | Edge d => Ok (target d)
  | EdgeList _ => Raise AttributeError
  end.

(** [dependency.selected] on a slot: [selected] is a method, so the
    attribute is the bound method object. *)
Inductive bound_method : Type := BoundSelected (self : Dependency).

Definition getattr_selected (dependency : slot) : result bound_method :=
  match dependency with
  | Edge d => Ok (BoundSelected d)
  | EdgeList _ => Raise AttributeError
  end.

(** Truth value of a bound method object. *)
Definition truthy (m : bound_method) : bool := true.

(** [TargetBase.dependencies] *)
Definition dependencies (self : target_ref) : M heap (list target_ref) :=
  o <- get_target self ;;
  lift (result_map getattr_target (_dependencies o)).

Fixpoint selected_loop (l : list slot) : result (list target_ref) :=
  match l with
  | [] => Ok []
  | dependency :: rest =>
      let? s := getattr_selected dependency in
      if truthy s then
        let? t := getattr_target dependency in
        let? ts := selected_loop rest in
        Ok (t :: ts)
      else selected_loop rest
  end.

(** [TargetBase.selected_dependencies] *)
Definition selected_dependencies (self : target_ref)
    : M heap (list target_ref) :=
  o <- get_target self ;;
  lift (selected_loop (_dependencies o)).

(** How a selection callable answers for an edge in a given heap. *)
Variable call : Pred -> Dependency -> heap -> result bool.

(** [Dependency.selected()] *)
Definition Dependency_selected (d : Dependency) : M heap bool :=
  match selection_function d with
  | Some f => fun h => (call f d h, h)
  | None => ret true
  end.

Variable fs : filesystem.

Definition output_files_exist (self : target_ref) : M heap bool :=
  o <- get_target self ;;
  lift (check_files_exist fs (output_files o)).

Definition input_files_exist (self : target_ref) : M heap bool :=
  o <- get_target self ;;
  lift (check_files_exist fs (input_files o)).

Definition input_files_most_mtime (self : target_ref) : M heap Q :=
  o <- get_target self ;;
  lift (get_least_mtime fs (input_files o)).

Definition output_files_least_mtime (self : target_ref) : M heap Q :=
  o <- get_target self ;;
  lift (get_most_mtime fs (output_files o)).

Definition is_nil {A} (l : list A) : bool :=
  match l with [] => true | _ => false end.

(** [not files or not exist()], evaluated left to right with
    short circuit. *)
Definition empty_or_missing (files : list File) (exist : M heap bool)
    : M heap bool :=
  if is_nil files then ret true
  else e <- exist ;; ret (negb e).

(** [TargetBase.is_rebuild_needed] *)
Definition is_rebuild_needed (self : target_ref) : M heap bool :=
  o <- get_target self ;;
  c1 <- empty_or_missing (output_files o) (output_files_exist self) ;;
  if c1 then ret true
  else
    c2 <- empty_or_missing (input_files o) (input_files_exist self) ;;
    if c2 then ret true
    else
      least_in <- input_files_most_mtime self ;;
      most_out <- output_files_least_mtime self ;;
      if Qle_bool most_out least_in then ret true else ret false.

Fixpoint check_loop (files : list File) : result unit :=
  match files with
  | [] => Ok tt
  | file :: rest =>
      let? e := File_exists fs file in
      if negb e then Raise FileNotFoundError else check_loop rest
  end.

(** [TargetBase.check_output_files] *)
Definition check_output_files (self : target_ref) : M heap unit :=
  o <- get_target self ;;
  lift (check_loop (output_files o)).

End Targets.

Arguments Dependency : clear implicits.
Arguments slot : clear implicits.
Arguments TargetBase : clear implicits.

Abbreviation heap Pred := (gmap target_ref (TargetBase Pred)).

End Base.

(** ** autobus.base: TraversalTree *)

Module Traversal.

(** What the traversal asks of the objects it walks over.  [Val] is what
    [getattr(node, children_field)] can evaluate to; a Python list is a
    reference into the store [St], so that [pop] is seen by every holder of
    the same list. *)
Class PyObjects (St Node Val : Type) : Type := {
  getattr : Node -> M St Val;     (* getattr(node, self.children_field) *)
  callable : Val -> bool;         (* callable(v) *)
  call : Val -> M St Val;         (* v() *)
  truth : Val -> St -> bool;      (* bool(v) *)
  pop : Val -> M St Node          (* v.pop() *)
}.

Section Walk.
Context {St Node Val : Type} `{Countable Node} {Py : PyObjects St Node Val}.

Definition truthy (v : Val) : M St bool := fun s => (Ok (truth v s), s).

(** One turn of the [while] loop of [get_leaves]; [top] is [stack[-1]]
    on entry.  The Python list [stack] has its top at the end. *)
Definition get_leaves_body (stack : list Val) (top : Val)
    (leaves : gset Node) : M St (list Val * gset Node) :=
  current <- pop top ;;
  t <- truthy top ;;
  let stack := if negb t then removelast stack else stack in
  children <- getattr current ;;
  children <- (if callable children then call children else ret children) ;;
  c <- truthy children ;;
  if negb c then ret (stack, leaves ∪ {[current]})
  else ret (stack ++ [children], leaves).

(** The [while] loop; [None] when [fuel] turns do not empty the stack. *)
Fixpoint get_leaves_loop (fuel : nat) (stack : list Val)
    (leaves : gset Node) (s : St) : option (result (gset Node) * St) :=
  match fuel with
  | O => None
  | S fuel' =>
      match last stack with
      | None => Some (Ok leaves, s)
      | Some top =>
          match get_leaves_body stack top leaves s with
          | (Ok (stack', leaves'), s') =>
              get_leaves_loop fuel' stack' leaves' s'
          | (Raise e, s') => Some (Raise e, s')
          end
      end
  end.

(** [TraversalTree(root, children_field).get_leaves()] *)
Definition get_leaves (fuel : nat) (root : Node) (s : St)
    : option (result (gset Node) * St) :=
  match getattr root s with
  | (Ok v, s') => get_leaves_loop fuel [v] ∅ s'
  | (Raise e, s') => Some (Raise e, s')
  end.

(** One turn of the loop of [find]: [None] is [return True], [Some stack]
    goes round again. *)
Definition find_body (node : Node) (stack : list Val) (top : Val)
    : M St (option (list Val)) :=
  current <- pop top ;;
  if bool_decide (current = node) then ret None
  else
    t <- truthy top ;;
    let stack := if negb t then removelast stack else stack in
    children <- getattr current ;;
    children <- (if callable children then call children else ret children) ;;
    c <- truthy children ;;
    if c then ret (Some (stack ++ [children])) else ret (Some stack).

Fixpoint find_loop (fuel : nat) (node : Node) (stack : list Val) (s : St)
    : option (result bool * St) :=
  match fuel with
  | O => None
  | S fuel' =>
      match last stack with
      | None => Some (Ok false, s)
      | Some top =>
          match find_body node stack top s with
          | (Ok None, s') => Some (Ok true, s')
          | (Ok (Some stack'), s') => find_loop fuel' node stack' s'
          | (Raise e, s') => Some (Raise e, s')
          end
      end
  end.

(** [TraversalTree(root, children_field).find(node)] *)
Definition find (fuel : nat) (root node : Node) (s : St)
    : option (result bool * St) :=
  match getattr root s with
  | (Ok v, s') => find_loop fuel node [v] s'
  | (Raise e, s') => Some (Raise e, s')
  end.

End Walk.

(** *** Plain objects with a children attribute *)

Definition node := nat.
Definition list_ref := nat.

(** Where a list comes from: the list object [r] itself, or a new list
    object with the given elements on every evaluation. *)
Inductive source : Type :=
  | Stored (r : list_ref)
  | Fresh (l : list node).

(** The children attribute of an object: an attribute or property
    evaluating to a list, or a callable returning one. *)
Inductive field : Type :=
  | Plain (s : source)
  | Method (s : source).

Inductive value : Type :=
  | VList (r : list_ref)
  | VMethod (s : source).

Record objects : Type := mkObjects {
  lists : gmap list_ref (list node);
  children_field : gmap node field
}.

Definition set_list (r : list_ref) (l : list node) (s : objects) : objects :=
  mkObjects (<[r := l]> (lists s)) (children_field s).

Definition eval_source (src : source) : M objects value :=
  match src with
  | Stored r => ret (VList r)
  | Fresh l =>
      fun s => let r := fresh (dom (lists s)) in (Ok (VList r), set_list r l s)
  end.

Definition obj_getattr (n : node) : M objects value :=
  fun s => match children_field s !! n with
           | Some (Plain src) => eval_source src s
           | Some (Method src) => (Ok (VMethod src), s)
           | None => (Raise AttributeError, s)
           end.

Definition obj_callable (v : value) : bool :=
  match v with VMethod _ => true | VList _ => false end.

Definition obj_call (v : value) : M objects value :=
  match v with
  | VMethod src => eval_source src
  | VList _ => raise TypeError
  end.

Definition obj_truth (v : value) (s : objects) : bool :=
  match v with
  | VMethod _ => true
  | VList r => match lists s !! r with
               | Some (_ :: _) => true
               | _ => false
               end
  end.

Definition obj_pop (v : value) : M objects node :=
  match v with
  | VMethod _ => raise AttributeError
  | VList r =>
      fun s => match lists s !! r with
               | Some l =>
                   match last l with
                   | Some x => (Ok x, set_list r (removelast l) s)
                   | None => (Raise IndexError, s)
                   end
               | None => (Raise AttributeError, s)
               end
  end.

#[export] Instance objects_py : PyObjects objects node value := {
  getattr := obj_getattr;
  callable := obj_callable;
  call := obj_call;
  truth := obj_truth;
  pop := obj_pop
}.

(** *** Targets walked along [dependees] *)

Section Dependees.
Import Base.
Context {Pred : Type}.

(** The list object held by the [dependees] attribute of a target. *)
Inductive dependees_list : Type := DependeesOf (t : target_ref).

Definition dep_getattr (t : target_ref) : M (heap Pred) dependees_list :=
  get_target t ;;; ret (DependeesOf t).

Definition dep_truth (v : dependees_list) (h : heap Pred) : bool :=
  match v with
  | DependeesOf t => match dependees <$> h !! t with
                     | Some (_ :: _) => true
                     | _ => false
                     end
  end.

Definition dep_pop (v : dependees_list) : M (heap Pred) target_ref :=
  match v with
  | DependeesOf t =>
      o <- get_target t ;;
      match last (dependees o) with
      | Some x =>
          put_target t (set_dependees o (removelast (dependees o))) ;;;
          ret x
      | None => raise IndexError
      end
  end.

#[export] Instance dependees_py
    : PyObjects (heap Pred) target_ref dependees_list := {
  getattr := dep_getattr;
  callable := fun _ => false;
  call := fun _ => raise TypeError;
  truth := dep_truth;
  pop := dep_pop
}.
End Dependees.

End Traversal.

(** ** Vocabulary of the statements *)

Module Staleness.
Import Path Base.

(** The path of the artifact can be formed. *)
Definition resolvable (f : File) : bool :=
  match File_absolute_path f with Ok _ => true | Raise _ => false end.

(** The artifact has a path, and the file system has a file there,
    modified at [t]. *)
Definition modified_at (fs : filesystem) (f : File) (t : Q) : Prop :=
  exists p, File_absolute_path f = Ok p /\ fs !! p = Some (Mtime t).

(** The artifact exists. *)
Definition present (fs : filesystem) (f : File) : Prop :=
  exists t, modified_at fs f t.

(** The artifact has a path, and the file system has no file there. *)
Definition absent (fs : filesystem) (f : File) : Prop :=
  exists p, File_absolute_path f = Ok p /\ forall t, fs !! p <> Some (Mtime t).

(** Going through [files] in order, an artifact whose path cannot be
    formed comes before any artifact that does not exist: whether all of
    them exist cannot be told. *)
Definition blocked (fs : filesystem) (files : list File) : Prop :=
  exists pre f rest,
    files = pre ++ f :: rest /\ Forall (present fs) pre /\
    resolvable f = false.

(** [m] is the minimum (maximum) of the modification times of [files]. *)
Definition least_mtime (fs : filesystem) (files : list File) (m : Q) : Prop :=
  (exists f, f ∈ files /\ modified_at fs f m) /\
  forall f t, f ∈ files -> modified_at fs f t -> (m <= t)%Q.

Definition most_mtime (fs : filesystem) (files : list File) (m : Q) : Prop :=
  (exists f, f ∈ files /\ modified_at fs f m) /\
  forall f t, f ∈ files -> modified_at fs f t -> (t <= m)%Q.

(** The same read off [File.mtime], as the aggregation loops see the
    modification times. *)
Definition least_read (fs : filesystem) (files : list File) (m : Q) : Prop :=
  (exists f, f ∈ files /\ File_mtime fs f = Ok m) /\
  forall f t, f ∈ files -> File_mtime fs f = Ok t -> (m <= t)%Q.

Definition most_read (fs : filesystem) (files : list File) (m : Q) : Prop :=
  (exists f, f ∈ files /\ File_mtime fs f = Ok m) /\
  forall f t, f ∈ files -> File_mtime fs f = Ok t -> (t <= m)%Q.

(** The staleness rule as the specification words it. *)
Definition rebuild_rule {Pred} (fs : filesystem) (o : TargetBase Pred) : Prop :=
  output_files o = [] \/ (exists f, f ∈ output_files o /\ absent fs f) \/
  input_files o = [] \/ (exists f, f ∈ input_files o /\ absent fs f) \/
  exists earliest_input latest_output,
    least_mtime fs (input_files o) earliest_input /\
    most_mtime fs (output_files o) latest_output /\
    (earliest_input >= latest_output)%Q.

(** The staleness of the target cannot be told: the outputs are blocked,
    or there are outputs, all of them exist, and the inputs are blocked. *)
Definition undecided {Pred} (fs : filesystem) (o : TargetBase Pred) : Prop :=
  blocked fs (output_files o) \/
  (output_files o <> [] /\ Forall (present fs) (output_files o) /\
   blocked fs (input_files o)).

(** The running minimum and maximum of the two aggregation loops. *)
Definition least_step (res : option Q) (mtime : Q) : option Q :=
  match res with
  | None => Some mtime
  | Some r => if Qlt_bool mtime r then Some mtime else Some r
  end.

Definition most_step (res : option Q) (mtime : Q) : option Q :=
  match res with
  | None => Some mtime
  | Some r => if Qlt_bool r mtime then Some mtime else Some r
  end.

(** *** Example inputs *)

Definition proj : Directory := mkDirectory "/proj" None.
Definition src_dir : Directory := mkDirectory "src" (Some proj).
Definition main_c : File := File_init "main" (Some src_dir) (Some "c").
Definition util_c : File := File_init "util" (Some src_dir) (Some "c").
Definition app_bin : File := File_init "app" (Some proj) None.
Definition orphan : File := File_init "/usr/lib/libm.a" None None.

(** Inputs modified at 5 and 10, the output at 20. *)
Definition fs_fresh : filesystem :=
  <["/proj/src/main.c" := Mtime 5]>
    (<["/proj/src/util.c" := Mtime 10]> (<["/proj/app" := Mtime 20]> ∅)).

(** The input modified at 25, the output at 20. *)
Definition fs_stale : filesystem :=
  <["/proj/src/main.c" := Mtime 25]> (<["/proj/app" := Mtime 20]> ∅).

(** The output was never produced. *)
Definition fs_unbuilt : filesystem :=
  <["/proj/src/main.c" := Mtime 5]> ∅.

(** The source is there, and [/proj/app] is a regular file: nothing can be
    looked up under it. *)
Definition fs_under_a_file : filesystem :=
  <["/proj/src/main.c" := Mtime 5]>
    (<["/proj/app" := Mtime 20]> (<["/proj/app/x" := Fails NotADirectory]> ∅)).
Definition app_dir : Directory := mkDirectory "app" (Some proj).
Definition under_app : File := File_init "x" (Some app_dir) None.

Definition app_target : TargetBase unit :=
  mkTarget [] [] NOT_SELECTED [main_c; util_c] [app_bin].

Definition single_target : TargetBase unit :=
  mkTarget [] [] NOT_SELECTED [main_c] [app_bin].

Definition bare_target : TargetBase unit :=
  mkTarget [] [] NOT_SELECTED [] [].

(** A target whose only output has no parent. *)
Definition orphan_target : TargetBase unit :=
  mkTarget [] [] NOT_SELECTED [main_c] [orphan].

(** No output, and an input without a parent. *)
Definition orphan_input_target : TargetBase unit :=
  mkTarget [] [] NOT_SELECTED [orphan] [].

(** An output that does not exist before an output without a parent. *)
Definition missing_then_orphan_target : TargetBase unit :=
  mkTarget [] [] NOT_SELECTED [main_c] [app_bin; orphan].

End Staleness.

Module Graph.
Import Path Base.

(** A dependency edge as the pair (dependency target, dependent target);
    the edge object itself keeps only the first. *)
Definition edge : Type := target_ref * target_ref.

(** The dependent of the edge is in the [dependees] of its dependency. *)
Definition registered {Pred} (h : heap Pred) (e : edge) : Prop :=
  exists o, h !! e.1 = Some o /\ e.2 ∈ dependees o.

(** Every target of [h] is still there in [h'], with at least the
    dependees it had. *)
Definition grows {Pred} (h h' : heap Pred) : Prop :=
  forall t o, h !! t = Some o ->
    exists o', h' !! t = Some o' /\ dependees o ⊆ dependees o'.

(** A computation that leaves the store as it found it, whether it
    returns or raises. *)
Definition readonly {St A} (m : M St A) : Prop := forall s, (m s).2 = s.

(** The operations of a target and of an edge, as a build driver issues
    them. *)
Inductive op (Pred : Type) : Type :=
  | NewTarget (ins outs : list File)
  | NewDependency (target dependee : target_ref) (sel : option Pred)
  | AddDependencies (self : target_ref) (deps : list target_ref)
      (sel : option Pred)
  | SetState (t : target_ref) (s : TargetState)
  | GetDependencies (self : target_ref)
  | GetSelectedDependencies (self : target_ref)
  | IsRebuildNeeded (self : target_ref)
  | CheckOutputFiles (self : target_ref).
Arguments NewTarget {Pred}.
Arguments NewDependency {Pred}.
Arguments AddDependencies {Pred}.
Arguments SetState {Pred}.
Arguments GetDependencies {Pred}.
Arguments GetSelectedDependencies {Pred}.
Arguments IsRebuildNeeded {Pred}.
Arguments CheckOutputFiles {Pred}.

(** [target.state = s] *)
Definition assign_state {Pred} (t : target_ref) (s : TargetState)
    : M (heap Pred) unit :=
  o <- get_target t ;; put_target t (set_state o s).

(** The heap an operation leaves behind, whether it returns or raises. *)
Definition exec {Pred} (fs : filesystem) (a : op Pred) (h : heap Pred)
    : heap Pred :=
  match a with
  | NewTarget ins outs => (TargetBase_init ins outs h).2
  | NewDependency t d sel => (Dependency_init t d sel h).2
  | AddDependencies self deps sel => (add_dependencies self deps sel h).2
  | SetState t s => (assign_state t s h).2
  | GetDependencies self => (dependencies self h).2
  | GetSelectedDependencies self => (selected_dependencies self h).2
  | IsRebuildNeeded self => (is_rebuild_needed fs self h).2
  | CheckOutputFiles self => (check_output_files fs self h).2
  end.

Definition exec_all {Pred} (fs : filesystem) (l : list (op Pred))
    (h : heap Pred) : heap Pred :=
  fold_left (fun h a => exec fs a h) l h.

(** Selection callables of the examples: constant answers. *)
Definition call_const (f : bool) (d : Dependency bool) (h : heap bool)
    : result bool := Ok f.

(** *** Example inputs: T depends on A and B *)

Definition T : target_ref := 0.
Definition A : target_ref := 1.
Definition B : target_ref := 2.

(** Three targets without files, as three constructor calls leave them. *)
Definition three_targets : heap bool :=
  (TargetBase_init [] []
     (TargetBase_init [] [] (TargetBase_init [] [] ∅).2).2).2.

(** [T.add_dependencies([A, B], lambda edge: False)] *)
Definition after_add : heap bool :=
  (add_dependencies T [A; B] (Some false) three_targets).2.

(** [T.add_dependencies([])] *)
Definition after_add_none : heap bool :=
  (add_dependencies T [] None three_targets).2.

(** A heap in which the edge list of [T] holds the two edges themselves,
    the first with a callable that answers False. *)
Definition edge_A : Dependency bool := mkDependency A (Some false).
Definition edge_B : Dependency bool := mkDependency B None.
Definition with_edges : heap bool :=
  <[T := mkTarget [Edge edge_A; Edge edge_B] [] NOT_SELECTED [] []]>
    (<[A := mkTarget [] [T] NOT_SELECTED [] []]>
       (<[B := mkTarget [] [T] NOT_SELECTED [] []]> ∅)).

End Graph.

Module Trees.
Import Traversal.

(** What the children attribute of [n] evaluates to in [s], read without
    touching anything. *)
Definition source_elements (s : objects) (src : source) : option (list node) :=
  match src with
  | Stored r => lists s !! r
  | Fresh l => Some l
  end.

Definition children_of (s : objects) (n : node) : option (list node) :=
  match children_field s !! n with
  | Some (Plain src) | Some (Method src) => source_elements s src
  | None => None
  end.

Definition is_leaf (s : objects) (n : node) : Prop :=
  children_of s n = Some [].

(** [n] is a child of [root], or a child of a node reachable from it. *)
Inductive reachable (s : objects) (root : node) : node -> Prop :=
  | reach_child l n :
      children_of s root = Some l -> n ∈ l -> reachable s root n
  | reach_step m l n :
      reachable s root m -> children_of s m = Some l -> n ∈ l ->
      reachable s root n.

(** The set the specification asks of [leaves(root, childrenOf)]. *)
Definition leaf_set (s : objects) (root : node) (X : gset node) : Prop :=
  forall n, n ∈ X <-> reachable s root n /\ is_leaf s n.

(** The attributes are bound as before, and every list object of [s] is
    still there in [s'] and is not longer. *)
Definition shrinks (s s' : objects) : Prop :=
  children_field s' = children_field s /\
  forall r l, lists s !! r = Some l ->
    exists l', lists s' !! r = Some l' /\ length l' <= length l.

Definition shrinking {A} (m : M objects A) : Prop :=
  forall s, shrinks s (m s).2.

(** *** Example inputs *)

(** The tree of the specification: root 0 with children X = 1 and Y = 2,
    Y with the child Z = 3; every node keeps its children in a list
    attribute (list objects 10 to 13). *)
Definition tree_xyz : objects :=
  mkObjects
    (<[10 := [1; 2]]> (<[11 := []]> (<[12 := [3]]> (<[13 := []]> ∅))))
    (<[0 := Plain (Stored 10)]>
       (<[1 := Plain (Stored 11)]>
          (<[2 := Plain (Stored 12)]> (<[3 := Plain (Stored 13)]> ∅)))).

(** The same tree behind a property that builds a new list on every
    access. *)
Definition tree_xyz_fresh : objects :=
  mkObjects ∅
    (<[0 := Plain (Fresh [1; 2])]>
       (<[1 := Plain (Fresh [])]>
          (<[2 := Plain (Fresh [3])]> (<[3 := Plain (Fresh [])]> ∅)))).

(** A diamond: root 0 with children 1 and 2, both with the single child
    Z = 3, which has the single childless child W = 4. *)
Definition diamond : objects :=
  mkObjects
    (<[10 := [1; 2]]>
       (<[11 := [3]]> (<[12 := [3]]> (<[13 := [4]]> (<[14 := []]> ∅)))))
    (<[0 := Plain (Stored 10)]>
       (<[1 := Plain (Stored 11)]>
          (<[2 := Plain (Stored 12)]>
             (<[3 := Plain (Stored 13)]> (<[4 := Plain (Stored 14)]> ∅))))).

(** A root without children, as a list attribute, as a property and as a
    method. *)
Definition childless : objects :=
  mkObjects (<[10 := []]> ∅) (<[0 := Plain (Stored 10)]> ∅).
Definition childless_fresh : objects :=
  mkObjects ∅ (<[0 := Plain (Fresh [])]> ∅).
Definition childless_method : objects :=
  mkObjects (<[10 := []]> ∅) (<[0 := Method (Stored 10)]> ∅).

End Trees.


(** ** autobus.path: names, extensions and directories *)

Module PathNames.
Import Path.

(** *** String slicing and searching, as [str] has them *)

(** [s[:n]] and [s[n:]] for [n >= 0]. *)
Fixpoint str_take (n : nat) (s : string) : string :=
  match n, s with
  | S n', String c s' => String c (str_take n' s')
  | _, _ => EmptyString
  end.

Fixpoint str_drop (n : nat) (s : string) : string :=
  match n, s with
  | S n', String _ s' => str_drop n' s'
  | _, _ => s
  end.

(** Position of the last [c] in [s], counted from the left. *)
Fixpoint last_index (c : ascii) (s : string) : option nat :=
  match s with
  | EmptyString => None
  | String d s' =>
      match last_index c s' with
      | Some k => Some (S k)
      | None => if Ascii.eqb d c then Some 0%nat else None
      end
  end.

(** [s.rfind(c)]: the highest index of [c], or -1. *)
Definition rfind (s : string) (c : ascii) : Z :=
  match last_index c s with
  | Some k => Z.of_nat k
  | None => (-1)%Z
  end.

(** [c in s] *)
Fixpoint occurs (c : ascii) (s : string) : bool :=
  match s with
  | EmptyString => false
  | String d s' => Ascii.eqb d c || occurs c s'
  end.

(** *** [posixpath.basename] and [posixpath.splitext] *)

Definition basename (p : string) : string :=
  let i := (rfind p "/" + 1)%Z in
  str_drop (Z.to_nat i) p.

(** The loop of [genericpath._splitext] that skips leading dots: [n] turns
    are left before [filenameIndex] reaches [dotIndex]; the answer is
    whether a character other than the dot was met. *)
Fixpoint name_before_dot (p : string) (filenameIndex n : nat) : bool :=
  match n with
  | O => false
  | S n' =>
      if negb (String.eqb (String.substring filenameIndex 1 p) ".") then true
      else name_before_dot p (S filenameIndex) n'
  end.

Definition splitext (p : string) : string * string :=
  let sepIndex := rfind p "/" in
  let dotIndex := rfind p "." in
  if (dotIndex >? sepIndex)%Z
     && name_before_dot p (Z.to_nat (sepIndex + 1))
          (Z.to_nat (dotIndex - (sepIndex + 1)))
  then (str_take (Z.to_nat dotIndex) p, str_drop (Z.to_nat dotIndex) p)
  else (p, EmptyString).

(** A character other than the dot occurs in [s]. *)
Fixpoint has_name (s : string) : bool :=
  match s with
  | EmptyString => false
  | String c s' => negb (Ascii.eqb c ".") || has_name s'
  end.

(** *** The rest of [File] *)

(** [File.split] *)
Definition File_split (f : File) : string * string :=
  splitext (basename (name f)).

(** [File.extension] and [File.basename] *)
Definition File_extension (f : File) : string := (File_split f).2.
Definition File_basename (f : File) : string := (File_split f).1.

(** [File.__str__]: a [Directory] object is always true. *)
Definition File_str (f : File) : result string :=
  match parent f with
  | Some _ => File_absolute_path f
  | None => Ok (name f)
  end.

(** *** The rest of [Directory] *)

Section WithHome.
(** [os.path.expanduser], which reads the environment and the password
    database. *)
Variable expanduser : string -> string.

Definition first_is_tilde (s : string) : bool :=
  match s with
  | String c _ => Ascii.eqb c "~"%char
  | EmptyString => false
  end.

(** The path as [__init__] and the setter of [path] store it.  [normpath]
    never returns the empty string, so [self._path[0]] is there. *)
Definition stored_path (path : string) : string :=
  let p := normpath path in
  if first_is_tilde p then expanduser p else p.

(** [Directory.__init__] *)
Definition Directory_init (path : string) (parent : option Directory)
    : result Directory :=
  let p := stored_path path in
  if negb (isabs p) && bool_decide (parent = None)
  then Raise AttributeError
  else Ok (mkDirectory p parent).

(** [directory.path = value] *)
Definition Directory_set_path (d : Directory) (value : string) : Directory :=
  match d with
  | mkDirectory _ parent => mkDirectory (stored_path value) parent
  end.

End WithHome.

(** [Directory.__str__] *)
Definition Directory_str (d : Directory) : result string :=
  Directory_absolute_path d.

(** *** Example inputs *)

(** A home directory for the examples: [~] and [~/...] only. *)
Definition home_of_examples (p : string) : string :=
  match p with
  | String "~" rest => "/home/dev" +:+ rest
  | _ => p
  end.

End PathNames.

(** ** More example inputs *)

Module MoreExamples.
Import Path.

(** One input modified at 5, the other at 30, the output at 20. *)
Definition fs_mixed : filesystem :=
  <["/proj/src/main.c" := Mtime 5]>
    (<["/proj/src/util.c" := Mtime 30]> (<["/proj/app" := Mtime 20]> ∅)).

End MoreExamples.

(** ** Vocabulary for the effect of building edges *)

Module GraphEffect.
Import Base.

(** How many times [a] is listed in [ts]. *)
Definition times (a : target_ref) (ts : list target_ref) : nat :=
  length (filter (fun t => t = a) ts).

(** The target [o] with [n] more entries [d] at the end of its
    [dependees]. *)
Definition with_dependee {Pred} (d : target_ref) (n : nat)
    (o : TargetBase Pred) : TargetBase Pred :=
  set_dependees o (dependees o ++ replicate n d).

End GraphEffect.

(** ** Vocabulary for traversals behind a property *)

Module Computed.
Import Traversal Trees.

(** The children of [n] when the attribute is a property that builds a
    new list on every access - like [TargetBase.dependencies]. *)
Definition kids (s : objects) (n : node) : option (list node) :=
  match children_field s !! n with
  | Some (Plain (Fresh l)) => Some l
  | _ => None
  end.

(** [n] is [x], or below [x]. *)
Inductive below (s : objects) : node -> node -> Prop :=
  | below_self x : below s x x
  | below_child x l c n :
      kids s x = Some l -> c ∈ l -> below s c n -> below s x n.

(** Every child is an object with such a property itself, and the
    children relation has no cycle: it goes down along [rank]. *)
Definition graded (s : objects) (rank : node -> nat) : Prop :=
  forall n l c, kids s n = Some l -> c ∈ l ->
    is_Some (kids s c) /\ rank c < rank n.

(** The store the traversal is left with, up to the list objects it has
    built on the way: no attribute is rebound, no list object that was
    there is touched. *)
Definition untouched (s s' : objects) : Prop :=
  children_field s' = children_field s /\
  forall r l, lists s !! r = Some l -> lists s' !! r = Some l.

(** The same but for the list object [r]. *)
Definition untouched_but (r : list_ref) (s s' : objects) : Prop :=
  children_field s' = children_field s /\
  forall r0 l, r0 <> r -> lists s !! r0 = Some l -> lists s' !! r0 = Some l.

(** [X] is the set of the childless nodes at or below the nodes of [f]. *)
Definition leaves_below (s : objects) (f : list node) (X : gset node) : Prop :=
  forall m, m ∈ X <-> exists x, x ∈ f /\ below s x m /\ kids s m = Some [].

(** The node is at or below a node of [f]. *)
Definition found_below (s : objects) (f : list node) (n : node) : Prop :=
  exists x, x ∈ f /\ below s x n.

(** *** Example input: a diamond behind properties *)

Definition diamond_fresh : objects :=
  mkObjects ∅
    (<[0 := Plain (Fresh [1; 2])]>
       (<[1 := Plain (Fresh [3])]>
          (<[2 := Plain (Fresh [3])]>
             (<[3 := Plain (Fresh [4])]> (<[4 := Plain (Fresh [])]> ∅))))).

Definition diamond_rank (n : node) : nat :=
  match n with
  | 0 => 3 | 1 => 2 | 2 => 2 | 3 => 1 | _ => 0
  end.

End Computed.

(** ** Vocabulary for traversals over list attributes *)

Module Consumed.
Import Traversal Trees.

(** The number of entries of all the list objects of the store. *)
Definition entries (s : objects) : nat :=
  map_fold (fun _ l acc => length l + acc) 0 (lists s).

(** Every children attribute is a list object, or a method that returns
    one: no list is built on access. *)
Definition stored_only (s : objects) : Prop :=
  forall n fld, children_field s !! n = Some fld ->
    exists r, fld = Plain (Stored r) \/ fld = Method (Stored r).

(** *** Example input: a cycle in list attributes *)

(** Root 0 with the child 1, whose child is 2, whose child is 1 again. *)
Definition cycle : objects :=
  mkObjects
    (<[10 := [1]]> (<[11 := [2]]> (<[12 := [1]]> ∅)))
    (<[0 := Plain (Stored 10)]>
       (<[1 := Plain (Stored 11)]> (<[2 := Plain (Stored 12)]> ∅))).

End Consumed.

(** ** autobus.base: generators, commands and [build]; autobus.c *)

Module Generators.
Import Path PathNames.

(** The Python values that reach the generators as positional or keyword
    arguments. *)
#[warnings="-register-all"]
Inductive pyvalue : Type :=
  | PNone
  | PBool (b : bool)
  | PInt (z : Z)
  | PStr (s : string)
  | PList (l : list pyvalue).

(** [bool(v)] *)
Definition truth_value (v : pyvalue) : bool :=
  match v with
  | PNone => false
  | PBool b => b
  | PInt z => negb (z =? 0)%Z
  | PStr s => negb (String.eqb s "")
  | PList l => match l with [] => false | _ => true end
  end.

Definition is_str (v : pyvalue) : bool :=
  match v with PStr _ => true | _ => false end.

(** [isinstance(v, collections.abc.Iterable)]: a string is one. *)
Definition is_iterable (v : pyvalue) : bool :=
  match v with PStr _ | PList _ => true | _ => false end.

Abbreviation kwargs := (gmap string pyvalue).

(** [d.update(new)] *)
Definition update (d new : kwargs) : kwargs := new ∪ d.

(** What can be raised here besides the built-in exceptions met so far. *)
Inductive raised : Type :=
  | Builtin (e : exn)
  | KeyError (key : string)
  | ProcessError (what : string).

Inductive outcome (A : Type) : Type :=
  | Returned (a : A)
  | Raised (r : raised).
Arguments Returned {A} a.
Arguments Raised {A} r.

Definition of_result {A} (r : result A) : outcome A :=
  match r with
  | Ok a => Returned a
  | Raise e => Raised (Builtin e)
  end.

(** What a generator does to the outside: lines printed, processes run. *)
Inductive event : Type :=
  | Printed (line : string)
  | Ran (args : pyvalue) (kw : kwargs).

Definition world : Type := list event.

Definition G (A : Type) : Type := world -> outcome A * world.

Definition greturn {A} (a : A) : G A := fun w => (Returned a, w).
Definition gbind {A B} (m : G A) (k : A -> G B) : G B :=
  fun w => match m w with
           | (Returned a, w') => k a w'
           | (Raised r, w') => (Raised r, w')
           end.
Definition glift {A} (o : outcome A) : G A := fun w => (o, w).

Definition print (line : string) : G unit :=
  fun w => (Returned tt, w ++ [Printed line]).

(** [" ".join(l)] on a list of strings. *)
Definition join_space (l : list string) : string := String.concat " " l.

Fixpoint strings_of (l : list pyvalue) : option (list string) :=
  match l with
  | [] => Some []
  | PStr s :: l' => cons s <$> strings_of l'
  | _ :: _ => None
  end.

Fixpoint chars_of (s : string) : list string :=
  match s with
  | EmptyString => []
  | String c s' => String c "" :: chars_of s'
  end.

(** [" ".join(v)] on a value: a string is joined character by character,
    and an item that is not a string is a [TypeError]. *)
Definition join_value (v : pyvalue) : outcome string :=
  match v with
  | PStr s => Returned (join_space (chars_of s))
  | PList l =>
      match strings_of l with
      | Some ss => Returned (join_space ss)
      | None => Raised (Builtin TypeError)
      end
  | _ => Raised (Builtin TypeError)
  end.

(** [print(x)] of a string or of [None]. *)
Definition shown (c : option string) : string :=
  match c with Some s => s | None => "None" end.

(** *** GeneratorBase *)

Record GeneratorBase : Type := mkGeneratorBase {
  popen_kwargs : kwargs;
  imitate : bool
}.

Definition default_popen_kwargs : kwargs :=
  list_to_map
    [("stdin", PNone); ("input", PNone); ("stdout", PNone); ("stderr", PNone);
     ("capture_output", PBool false); ("shell", PBool false); ("cwd", PNone);
     ("timeout", PNone); ("check", PBool false); ("encoding", PNone);
     ("errors", PNone); ("text", PNone); ("env", PNone);
     ("universal_newlines", PNone)].

(** [GeneratorBase.__init__] with keyword arguments [kw]; [imitate] is the class attribute. *)
Definition GeneratorBase_init (kw : kwargs) : GeneratorBase :=
  mkGeneratorBase (update default_popen_kwargs kw) false.

Section OS.
(** [subprocess.run] as the operating system answers it, given what has
    happened so far: [None] when the call returns. *)
Variable spawn : world -> pyvalue -> kwargs -> option raised.

Definition subprocess_run (args : pyvalue) (kw : kwargs) : G unit :=
  fun w => (match spawn w args kw with
            | None => Returned tt
            | Some r => Raised r
            end, w ++ [Ran args kw]).

(** [GeneratorBase._execute] with one positional
    argument; [cmd] is what the property [self.cmd] evaluates to. *)
Definition _execute (self : GeneratorBase) (cmd : outcome (option string))
    (args : pyvalue) (kw : kwargs) : G unit :=
  gbind (glift cmd) (fun c =>
  gbind (print (shown c)) (fun _ =>
  if negb (imitate self) then subprocess_run args kw else greturn tt)).

(** [GeneratorBase.execute], for a class whose [cmd_list]
    property evaluates to [cmd_list]. *)
Definition GeneratorBase_execute (self : GeneratorBase)
    (cmd_list : outcome (list string)) (kw : kwargs) : G unit :=
  let new_kwargs := update (update ∅ (popen_kwargs self)) kw in
  gbind (glift cmd_list) (fun l =>
  _execute self
    (match cmd_list with
     | Returned l => Returned (Some (join_space l))
     | Raised r => Raised r
     end)
    (PList (PStr <$> l)) new_kwargs).

(** *** Command *)

Record Command : Type := mkCommand {
  base : GeneratorBase;
  _cmd : option string;
  _cmd_list : option pyvalue
}.

Definition set_shell (g : GeneratorBase) (b : bool) : GeneratorBase :=
  mkGeneratorBase (<["shell" := PBool b]> (popen_kwargs g)) (imitate g).

(** The property [cmd] and its setter. *)
Definition Command_cmd (c : Command) : outcome (option string) :=
  match _cmd c, _cmd_list c with
  | Some s, _ => Returned (Some s)
  | None, Some v =>
      match join_value v with
      | Returned s => Returned (Some s)
      | Raised r => Raised r
      end
  | None, None => Returned None
  end.

Definition Command_set_cmd (c : Command) (value : pyvalue) : outcome Command :=
  match value with
  | PStr s => Returned (mkCommand (set_shell (base c) true) (Some s) None)
  | _ => Raised (Builtin TypeError)
  end.

(** The property [cmd_list] and its setter; [None] is Python's. *)
Definition Command_cmd_list (c : Command) : option pyvalue :=
  match _cmd c with
  | Some s => Some (PList [PStr s])
  | None => _cmd_list c
  end.

Definition Command_set_cmd_list (c : Command) (value : pyvalue)
    : outcome Command :=
  if is_iterable value
  then Returned (mkCommand (set_shell (base c) false) None (Some value))
  else Raised (Builtin TypeError).

(** [Command.__init__] *)
Definition Command_init (args : list pyvalue) (kw : kwargs) : outcome Command :=
  let self := mkCommand (GeneratorBase_init kw) None None in
  match args with
  | [a] => Command_set_cmd self a
  | _ :: _ :: _ => Command_set_cmd_list self (PList args)
  | [] => Raised (Builtin AttributeError)
  end.

Definition value_of (v : option pyvalue) : pyvalue :=
  match v with Some x => x | None => PNone end.

(** [Command.execute] *)
Definition Command_execute (c : Command) (kw : kwargs) : G unit :=
  match popen_kwargs (base c) !! "shell" with
  | None => glift (Raised (KeyError "shell"))
  | Some sh =>
      if truth_value sh
      then gbind (glift (Command_cmd c)) (fun s =>
             _execute (base c) (Command_cmd c)
               (match s with Some x => PStr x | None => PNone end) kw)
      else _execute (base c) (Command_cmd c) (value_of (Command_cmd_list c)) kw
  end.

(** *** autobus.c *)

(** [CCMixin.define_arg_list] *)
Definition define_arg_list (defines : list string) : list string :=
  (fun item => "-D" +:+ item) <$> defines.

(** [str(file)] where [file] may be [None]. *)
Definition str_of_file (f : option File) : outcome string :=
  match f with
  | Some f => of_result (File_str f)
  | None => Returned "None"
  end.

Record CCObjectFileGenerator : Type := mkCCObject {
  obj_base : GeneratorBase;
  obj_cmd : string;
  obj_input_file : option File;
  obj_output_file : option File;
  obj_external_libs : list string;
  obj_defines : list string;
  obj_verbose : bool
}.

(** [x or default] on an optional list or string. *)
Definition list_or {A} (x : option (list A)) : list A :=
  match x with Some l => l | None => [] end.
Definition command_or_gcc (command : option string) : string :=
  match command with
  | Some c => if String.eqb c "" then "gcc" else c
  | None => "gcc"
  end.

(** [CCObjectFileGenerator.__init__]; [flags] is accepted and dropped. *)
Definition CCObjectFileGenerator_init (input_file output_file : option File)
    (command : option string) (external_libs defines flags : option (list string))
    (verbose : bool) : CCObjectFileGenerator :=
  mkCCObject (GeneratorBase_init ∅) (command_or_gcc command)
    input_file output_file (list_or external_libs) (list_or defines) verbose.

Definition when {A} (b : bool) (l : list A) : list A := if b then l else [].

(** [bool(l)] on a list. *)
Definition list_true {A} (l : list A) : bool :=
  match l with [] => false | _ :: _ => true end.

Definition option_true {A} (x : option A) : bool :=
  match x with Some _ => true | None => false end.

(** [CCObjectFileGenerator.cmd_list] *)
Definition CCObjectFileGenerator_cmd_list (g : CCObjectFileGenerator)
    : outcome (list string) :=
  match str_of_file (obj_input_file g) with
  | Raised r => Raised r
  | Returned i =>
      let result := [obj_cmd g; "-c"; i] in
      let result :=
        result ++ when (list_true (obj_defines g))
                       (define_arg_list (obj_defines g)) in
      if option_true (obj_output_file g)
      then match str_of_file (obj_output_file g) with
           | Raised r => Raised r
           | Returned o => Returned (result ++ ["-o"; o])
           end
      else Returned result
  end.

Record CCBinaryFileGenerator : Type := mkCCBinary {
  bin_base : GeneratorBase;
  bin_cmd : string;
  bin_input_files : list File;
  bin_output_file : option File;
  bin_external_libs : list string;
  bin_defines : list string;
  bin_flags : list string;
  bin_linker_flags : list string;
  bin_verbose : bool
}.

(** [CCBinaryFileGenerator.__init__] *)
Definition CCBinaryFileGenerator_init (input_files : list File)
    (output_file : option File) (command : option string)
    (external_libs defines flags linker_flags : option (list string))
    (verbose : bool) : CCBinaryFileGenerator :=
  mkCCBinary (GeneratorBase_init ∅) (command_or_gcc command)
    input_files output_file (list_or external_libs) (list_or defines)
    (list_or flags) (list_or linker_flags) verbose.

(** One turn of the loop of [external_lib_arg_list]: [File(lib)] has no
    parent and no extension argument. *)
Definition external_lib_arg (lib : string) : string :=
  if negb (String.eqb (File_extension (File_init lib None None)) "")
  then "-l:" +:+ lib
  else "-l" +:+ lib.

Definition external_lib_arg_list (libs : list string) : list string :=
  external_lib_arg <$> libs.

Definition linker_flag_arg_list (flags : list string) : list string :=
  (fun flag => "-Wl," +:+ flag) <$> flags.

(** [[str(file) for file in files]] *)
Fixpoint strs_of_files (files : list File) : outcome (list string) :=
  match files with
  | [] => Returned []
  | f :: rest =>
      match of_result (File_str f) with
      | Raised r => Raised r
      | Returned x =>
          match strs_of_files rest with
          | Raised r => Raised r
          | Returned xs => Returned (x :: xs)
          end
      end
  end.

(** [CCBinaryFileGenerator.cmd_list] *)
Definition CCBinaryFileGenerator_cmd_list (g : CCBinaryFileGenerator)
    : outcome (list string) :=
  match strs_of_files (bin_input_files g) with
  | Raised r => Raised r
  | Returned ins =>
      let result := [bin_cmd g] ++ ins in
      let result := result ++ when (bin_verbose g) ["-v"] in
      let result :=
        result ++ when (list_true (bin_defines g))
                       (define_arg_list (bin_defines g)) in
      let result :=
        result ++ when (list_true (bin_external_libs g))
                       (external_lib_arg_list (bin_external_libs g)) in
      let result := result ++ when (list_true (bin_flags g)) (bin_flags g) in
      let result :=
        result ++ when (list_true (bin_linker_flags g))
                       (linker_flag_arg_list (bin_linker_flags g)) in
      if option_true (bin_output_file g)
      then match str_of_file (bin_output_file g) with
           | Raised r => Raised r
           | Returned o => Returned (result ++ ["-o"; o])
           end
      else Returned result
  end.

(** *** [TargetBase.build] *)

(** The generator classes of the repository. *)
Inductive generator : Type :=
  | GCommand (c : Command)
  | GObject (g : CCObjectFileGenerator)
  | GBinary (g : CCBinaryFileGenerator).

(** [generator.execute()] *)
Definition execute (g : generator) : G unit :=
  match g with
  | GCommand c => Command_execute c ∅
  | GObject o =>
      GeneratorBase_execute (obj_base o) (CCObjectFileGenerator_cmd_list o) ∅
  | GBinary b =>
      GeneratorBase_execute (bin_base b) (CCBinaryFileGenerator_cmd_list b) ∅
  end.

(** An entry of [stages]: one generator, or a list of them. *)
Inductive stage : Type :=
  | Single (g : generator)
  | Group (gs : list generator).

Fixpoint run_stage (gs : list generator) : G unit :=
  match gs with
  | [] => greturn tt
  | g :: rest => gbind (execute g) (fun _ => run_stage rest)
  end.

Definition as_list (st : stage) : list generator :=
  match st with Single g => [g] | Group gs => gs end.

(** [TargetBase.build(force)] on the [stages] of the target. *)
Fixpoint build (stages : list stage) (force : bool) : G unit :=
  match stages with
  | [] => greturn tt
  | st :: rest =>
      gbind (run_stage (as_list st)) (fun _ => build rest force)
  end.

End OS.

(** *** Vocabulary of the statements *)

Definition imitate_of (g : generator) : bool :=
  match g with
  | GCommand c => imitate (base c)
  | GObject o => imitate (obj_base o)
  | GBinary b => imitate (bin_base b)
  end.

(** The processes run, in order. *)
Definition runs (w : world) : list (pyvalue * kwargs) :=
  omap (fun e => match e with Ran a k => Some (a, k) | Printed _ => None end) w.

(** The lines printed, in order. *)
Definition prints (w : world) : list string :=
  omap (fun e => match e with Printed l => Some l | Ran _ _ => None end) w.

(** The two attributes and the flag of a command agree: exactly one of
    [_cmd] and [_cmd_list] is set, and [shell] says which. *)
Definition coherent (c : Command) : Prop :=
  (exists s, _cmd c = Some s /\ _cmd_list c = None /\
             popen_kwargs (base c) !! "shell" = Some (PBool true)) \/
  (exists v, _cmd c = None /\ _cmd_list c = Some v /\ is_iterable v = true /\
             popen_kwargs (base c) !! "shell" = Some (PBool false)).

(** An assignment to [cmd] or to [cmd_list]. *)
Inductive assignment : Type :=
  | AssignCmd (value : pyvalue)
  | AssignCmdList (value : pyvalue).

(** The command after an assignment; one that raises changes nothing. *)
Definition assign (c : Command) (a : assignment) : Command :=
  match
    match a with
    | AssignCmd v => Command_set_cmd c v
    | AssignCmdList v => Command_set_cmd_list c v
    end
  with
  | Returned c' => c'
  | Raised _ => c
  end.

(** *** Example inputs *)

Definition os_fine (w : world) (args : pyvalue) (kw : kwargs) : option raised :=
  None.

(** A command in imitation. *)
Definition dry (line : string) : generator :=
  GCommand (mkCommand (mkGeneratorBase {["shell" := PBool true]} true)
              (Some line) None).

End Generators.

(** ** Running monadic code *)

Lemma bind_ok {St A B} (m : M St A) (k : A -> M St B) s a s' :
  m s = (Ok a, s') -> bind m k s = k a s'.
Proof. intros Hm. unfold bind. by rewrite Hm. Qed.

Lemma bind_raise {St A B} (m : M St A) (k : A -> M St B) s e s' :
  m s = (Raise e, s') -> bind m k s = (Raise e, s').
Proof. intros Hm. unfold bind. by rewrite Hm. Qed.

(** ** Paths and staleness *)

Module StalenessProofs.
Import Path Base Staleness.

(** Showing that a given file is there, or is not, in a given file
    system. *)
Ltac file_is_there := do 2 eexists; split; reflexivity.
Ltac file_is_not_there :=
  eexists; split; [reflexivity |];
  let H := fresh in intros ? H; vm_compute in H; discriminate H.

Section Facts.
Variable fs : filesystem.

Lemma resolvable_path f :
  resolvable f = true -> exists p, File_absolute_path f = Ok p.
Proof.
  unfold resolvable. destruct (File_absolute_path f); [eauto | discriminate].
Qed.

Lemma exists_total f :
  resolvable f = true -> exists b, File_exists fs f = Ok b.
Proof.
  intros [p Hp]%resolvable_path. unfold File_exists. rewrite Hp. simpl. eauto.
Qed.

(** Forming a path fails in one way only. *)
Lemma Directory_absolute_path_raises :
  forall d e, Directory_absolute_path d = Raise e -> e = AttributeError.
Proof.
  fix IH 1. intros [path [p |]] e; simpl.
  - destruct (isabs path); [done |].
    destruct (Directory_absolute_path p) as [a | e'] eqn:Hp; simpl; [done |].
    intros [= <-]. by apply (IH p).
  - destruct (isabs path); [done |]. by intros [= <-].
Qed.

Lemma File_absolute_path_raises f e :
  File_absolute_path f = Raise e -> e = AttributeError.
Proof.
  unfold File_absolute_path. destruct (parent f) as [p |]; [| by intros [= <-]].
  destruct (Directory_absolute_path p) as [a | e'] eqn:Hp; simpl; [done |].
  intros [= <-]. by apply (Directory_absolute_path_raises p).
Qed.

Lemma unresolvable_path f :
  resolvable f = false -> File_absolute_path f = Raise AttributeError.
Proof.
  unfold resolvable.
  destruct (File_absolute_path f) as [p | e] eqn:Hf; [done |]. intros _.
  by rewrite (File_absolute_path_raises f e Hf).
Qed.

(** [os.stat] answers with a time exactly for the files that are there. *)
Lemma os_stat_ok p t : os_stat fs p = Ok t <-> fs !! p = Some (Mtime t).
Proof.
  unfold os_stat. destruct (fs !! p) as [[t' | []] |]; split; try done.
  - by intros [= ->].
  - by intros [= ->].
Qed.

Lemma os_exists_true p : os_exists fs p = true <-> exists t, fs !! p = Some (Mtime t).
Proof.
  unfold os_exists. destruct (os_stat fs p) as [t | e] eqn:Hs.
  - apply os_stat_ok in Hs. split; [by eauto | done].
  - split; [done |]. intros [t Ht]. apply os_stat_ok in Ht. congruence.
Qed.

(** What the two properties of [File] read is what the file system holds. *)
Lemma mtime_modified_at f t : File_mtime fs f = Ok t <-> modified_at fs f t.
Proof.
  unfold File_mtime, modified_at, os_getmtime.
  destruct (File_absolute_path f) as [p | e]; simpl.
  - rewrite os_stat_ok. split; [by eauto |]. by intros (q & [= <-] & Hq).
  - split; [done |]. by intros (q & Hq & _).
Qed.

Lemma exists_present f : File_exists fs f = Ok true <-> present fs f.
Proof.
  unfold File_exists, present, modified_at.
  destruct (File_absolute_path f) as [p | e]; simpl.
  - split.
    + intros [= Hb]. apply os_exists_true in Hb as [t Ht]. by eauto.
    + intros (t & q & [= <-] & Hq). f_equal. apply os_exists_true. by eauto.
  - split; [done |]. by intros (t & q & Hq & _).
Qed.

Lemma exists_absent f : File_exists fs f = Ok false <-> absent fs f.
Proof.
  unfold File_exists, absent.
  destruct (File_absolute_path f) as [p | e]; simpl.
  - split.
    + intros [= Hb]. exists p. split; [done |]. intros t Ht.
      assert (os_exists fs p = true) by (apply os_exists_true; eauto).
      congruence.
    + intros (q & [= <-] & Hq). f_equal.
      destruct (os_exists fs p) eqn:Hb; [| done].
      apply os_exists_true in Hb as [t Ht]. by destruct (Hq t).
  - split; [done |]. by intros (q & Hq & _).
Qed.

Lemma present_mtime f :
  present fs f -> exists t, File_mtime fs f = Ok t.
Proof. intros [t Ht]. exists t. by apply mtime_modified_at. Qed.

Lemma present_resolvable f : present fs f -> resolvable f = true.
Proof. intros (t & p & Hp & _). unfold resolvable. by rewrite Hp. Qed.

Lemma absent_resolvable f : absent fs f -> resolvable f = true.
Proof. intros (p & Hp & _). unfold resolvable. by rewrite Hp. Qed.

Lemma present_not_absent f : present fs f -> absent fs f -> False.
Proof.
  intros (t & p & Hp & Ht) (q & Hq & Hno).
  assert (q = p) as -> by congruence. by destruct (Hno t).
Qed.

(** A file whose path can be formed is there, or is not. *)
Lemma present_or_absent f :
  resolvable f = true -> present fs f \/ absent fs f.
Proof.
  intros [b Hb]%exists_total.
  destruct b; [left; by apply exists_present | right; by apply exists_absent].
Qed.

(** [check_files_exist] answers, and says yes exactly when nothing is
    missing. *)
Lemma check_files_exist_spec files :
  forallb resolvable files = true ->
  exists b, check_files_exist fs files = Ok b /\
    (b = true <-> Forall (present fs) files) /\
    (b = false <-> exists f, f ∈ files /\ absent fs f).
Proof.
  induction files as [| f files IH]; simpl.
  - intros _. exists true. split; [done |]. split; split; try done.
    intros (f & Hf & _). by apply not_elem_of_nil in Hf.
  - intros [Hf Hfs]%andb_prop.
    destruct (exists_total f Hf) as [b Hb]. rewrite Hb. simpl.
    destruct b; simpl.
    + destruct (IH Hfs) as (b & -> & Ht & Hn). exists b.
      split; [done |]. split.
      * rewrite Ht. split; [| by inversion 1].
        intros Hall. constructor; [by apply exists_present | done].
      * rewrite Hn. split.
        -- intros (g & Hg & Ha). exists g. split; [by right | done].
        -- intros (g & Hg & Ha). apply elem_of_cons in Hg as [-> | Hg].
           ++ apply exists_absent in Ha. congruence.
           ++ eauto.
    + exists false. split; [done |]. split; split; try done.
      * inversion 1 as [| ? ? Hp _]; subst. apply exists_present in Hp.
        congruence.
      * intros _. exists f. split; [by left |]. by apply exists_absent.
Qed.

(** *** Files whose path cannot be formed *)

Lemma not_blocked_nil : ~ blocked fs [].
Proof. intros (pre & f & rest & Heq & _). by destruct pre. Qed.

Lemma blocked_not_nil files : blocked fs files -> files <> [].
Proof. intros Hb ->. by apply not_blocked_nil. Qed.

Lemma blocked_here f files : resolvable f = false -> blocked fs (f :: files).
Proof. intros Hf. exists [], f, files. by repeat split. Qed.

Lemma blocked_later f files :
  present fs f -> blocked fs files -> blocked fs (f :: files).
Proof.
  intros Hf (pre & g & rest & -> & Hpre & Hg).
  exists (f :: pre), g, rest. split; [done |]. split; [by constructor | done].
Qed.

Lemma blocked_cons f files :
  blocked fs (f :: files) ->
  resolvable f = false \/ (present fs f /\ blocked fs files).
Proof.
  intros (pre & g & rest & Heq & Hpre & Hg).
  destruct pre as [| f' pre]; simpl in Heq; injection Heq as <- ->.
  - by left.
  - right. inversion Hpre; subst. split; [done |].
    exists pre, g, rest. by repeat split.
Qed.

Lemma present_not_blocked files : Forall (present fs) files -> ~ blocked fs files.
Proof.
  induction 1 as [| f files Hf _ IH]; [apply not_blocked_nil |].
  intros [Hres | [_ Hb]]%blocked_cons; [| done].
  apply present_resolvable in Hf. congruence.
Qed.

Lemma absent_not_blocked f files : absent fs f -> ~ blocked fs (f :: files).
Proof.
  intros Ha [Hr | [Hp _]]%blocked_cons.
  - apply absent_resolvable in Ha. congruence.
  - by apply (present_not_absent f).
Qed.

Lemma resolvable_not_blocked files :
  forallb resolvable files = true -> ~ blocked fs files.
Proof.
  intros Hall (pre & f & rest & -> & _ & Hf).
  rewrite forallb_app in Hall. apply andb_prop in Hall as [_ Hall].
  simpl in Hall. apply andb_prop in Hall as [Hres _]. congruence.
Qed.

(** The three ways a scan of [files] ends, and what [check_files_exist]
    does in each. *)
Lemma check_files_exist_scan files :
  (blocked fs files /\ check_files_exist fs files = Raise AttributeError) \/
  (~ blocked fs files /\ (exists f, f ∈ files /\ absent fs f) /\
   check_files_exist fs files = Ok false) \/
  (Forall (present fs) files /\ check_files_exist fs files = Ok true).
Proof.
  induction files as [| f files IH]; simpl.
  - right; right. by split; [constructor |].
  - destruct (resolvable f) eqn:Hres.
    + destruct (present_or_absent f Hres) as [Hp | Ha].
      * rewrite (proj2 (exists_present f) Hp). simpl.
        destruct IH as [[Hb Hrun] | [(Hnb & (g & Hg & Ha) & Hrun) | [Hall Hrun]]].
        -- left. split; [by apply blocked_later | done].
        -- right; left. split; [| split; [| done]].
           ++ intros [Hr | [_ Hb]]%blocked_cons; [congruence | done].
           ++ exists g. split; [by right | done].
        -- right; right. split; [by constructor | done].
      * rewrite (proj2 (exists_absent f) Ha). simpl.
        right; left. split; [| split; [| done]].
        -- intros [Hr | [Hp _]]%blocked_cons; [congruence |].
           by apply (present_not_absent f).
        -- exists f. split; [by left | done].
    + left. split; [by apply blocked_here |].
      unfold File_exists. by rewrite (unresolvable_path f Hres).
Qed.

(** On files that all exist, the loops are folds of the running
    minimum and maximum over the modification times. *)
Lemma least_loop_fold files res :
  Forall (present fs) files ->
  exists ts, Forall2 (fun f t => File_mtime fs f = Ok t) files ts /\
    least_loop fs files res = Ok (fold_left least_step ts res).
Proof.
  intros Hall. revert res.
  induction Hall as [| f files Hf _ IH]; intros res; simpl.
  - exists []. by split; [constructor |].
  - destruct (present_mtime f Hf) as [t Ht]. rewrite Ht. simpl.
    destruct (IH (least_step res t)) as (ts & Hts & Heq).
    exists (t :: ts). split; [by constructor |]. simpl.
    rewrite <- Heq. unfold least_step. destruct res as [r |]; [| done].
    by destruct (Qlt_bool t r).
Qed.

Lemma most_loop_fold files res :
  Forall (present fs) files ->
  exists ts, Forall2 (fun f t => File_mtime fs f = Ok t) files ts /\
    most_loop fs files res = Ok (fold_left most_step ts res).
Proof.
  intros Hall. revert res.
  induction Hall as [| f files Hf _ IH]; intros res; simpl.
  - exists []. by split; [constructor |].
  - destruct (present_mtime f Hf) as [t Ht]. rewrite Ht. simpl.
    destruct (IH (most_step res t)) as (ts & Hts & Heq).
    exists (t :: ts). split; [by constructor |]. simpl.
    rewrite <- Heq. unfold most_step. destruct res as [r |]; [| done].
    by destruct (Qlt_bool r t).
Qed.

End Facts.

Lemma Qlt_bool_true x y : Qlt_bool x y = true -> (x < y)%Q.
Proof.
  unfold Qlt_bool. intros Hb. apply negb_true_iff in Hb.
  apply Qnot_le_lt. intros Hle. apply Qle_bool_iff in Hle. congruence.
Qed.

Lemma Qlt_bool_false x y : Qlt_bool x y = false -> (y <= x)%Q.
Proof.
  unfold Qlt_bool. intros Hb. apply negb_false_iff in Hb.
  by apply Qle_bool_iff.
Qed.

(** The fold of the running minimum ends on an element that is below the
    start value and below every element. *)
Lemma fold_least ts : forall r,
  exists m, fold_left least_step ts (Some r) = Some m /\
    (m = r \/ m ∈ ts) /\ (m <= r)%Q /\ Forall (fun t => (m <= t)%Q) ts.
Proof.
  induction ts as [| t ts IH]; intros r; simpl.
  - exists r. repeat split; [by left | apply Qle_refl | constructor].
  - destruct (Qlt_bool t r) eqn:Hlt.
    + apply Qlt_bool_true in Hlt.
      destruct (IH t) as (m & -> & Hin & Hle & Hall). exists m.
      repeat split.
      * right. destruct Hin as [-> | Hin]; [by left | by right].
      * eapply Qle_trans; [exact Hle | by apply Qlt_le_weak].
      * by constructor.
    + apply Qlt_bool_false in Hlt.
      destruct (IH r) as (m & -> & Hin & Hle & Hall). exists m.
      repeat split.
      * destruct Hin as [-> | Hin]; [by left | right; by right].
      * done.
      * constructor; [by eapply Qle_trans | done].
Qed.

Lemma fold_most ts : forall r,
  exists m, fold_left most_step ts (Some r) = Some m /\
    (m = r \/ m ∈ ts) /\ (r <= m)%Q /\ Forall (fun t => (t <= m)%Q) ts.
Proof.
  induction ts as [| t ts IH]; intros r; simpl.
  - exists r. repeat split; [by left | apply Qle_refl | constructor].
  - destruct (Qlt_bool r t) eqn:Hlt.
    + apply Qlt_bool_true in Hlt.
      destruct (IH t) as (m & -> & Hin & Hle & Hall). exists m.
      repeat split.
      * right. destruct Hin as [-> | Hin]; [by left | by right].
      * eapply Qle_trans; [by apply Qlt_le_weak | exact Hle].
      * by constructor.
    + apply Qlt_bool_false in Hlt.
      destruct (IH r) as (m & -> & Hin & Hle & Hall). exists m.
      repeat split.
      * destruct Hin as [-> | Hin]; [by left | right; by right].
      * done.
      * constructor; [by eapply Qle_trans | done].
Qed.

Lemma or_zero_some t : (or_zero (Some t) == t)%Q.
Proof.
  unfold or_zero. destruct (Qeq_bool t 0) eqn:Hz; [| reflexivity].
  apply Qeq_bool_iff in Hz. by symmetry.
Qed.

Section Aggregates.
Variable fs : filesystem.

Lemma mtimes_elem files ts f t' :
  Forall2 (fun f t => File_mtime fs f = Ok t) files ts ->
  f ∈ files -> File_mtime fs f = Ok t' -> t' ∈ ts.
Proof.
  induction 1 as [| g t files ts Hg _ IH]; intros Hin Hf.
  - by apply not_elem_of_nil in Hin.
  - apply elem_of_cons in Hin as [-> | Hin].
    + assert (t' = t) as -> by congruence. by left.
    + right. by apply IH.
Qed.

Lemma mtimes_origin files ts t :
  Forall2 (fun f t => File_mtime fs f = Ok t) files ts ->
  t ∈ ts -> exists f, f ∈ files /\ File_mtime fs f = Ok t.
Proof.
  induction 1 as [| g t' files ts Hg _ IH]; intros Hin.
  - by apply not_elem_of_nil in Hin.
  - apply elem_of_cons in Hin as [-> | Hin].
    + exists g. split; [by left | done].
    + destruct (IH Hin) as (f & Hf & Ht). exists f. split; [by right | done].
Qed.

(** [get_least_mtime] on a non-empty list of existing files returns the
    minimum of their modification times. *)
Lemma get_least_mtime_min files :
  files <> [] -> Forall (present fs) files ->
  exists r m, get_least_mtime fs files = Ok r /\ (r == m)%Q /\
    least_read fs files m.
Proof.
  intros Hne Hall. unfold get_least_mtime.
  destruct (least_loop_fold fs files None Hall) as (ts & Hts & ->).
  destruct Hts as [| f t files ts Hf Hts]; [done |]. simpl.
  destruct (fold_least ts t) as (m & -> & Hin & Hle & Hbelow).
  exists (or_zero (Some m)), m. split; [done |].
  split; [apply or_zero_some |]. split.
  - destruct Hin as [-> | Hin].
    + exists f. split; [by left | done].
    + destruct (mtimes_origin _ _ _ Hts Hin) as (g & Hg & Hm).
      exists g. split; [by right | done].
  - intros g t' Hg Ht'. apply elem_of_cons in Hg as [-> | Hg].
    + replace t' with t by congruence. done.
    + rewrite Forall_forall in Hbelow. apply Hbelow.
      eapply mtimes_elem; eauto.
Qed.

Lemma get_most_mtime_max files :
  files <> [] -> Forall (present fs) files ->
  exists r m, get_most_mtime fs files = Ok r /\ (r == m)%Q /\
    most_read fs files m.
Proof.
  intros Hne Hall. unfold get_most_mtime.
  destruct (most_loop_fold fs files None Hall) as (ts & Hts & ->).
  destruct Hts as [| f t files ts Hf Hts]; [done |]. simpl.
  destruct (fold_most ts t) as (m & -> & Hin & Hle & Habove).
  exists (or_zero (Some m)), m. split; [done |].
  split; [apply or_zero_some |]. split.
  - destruct Hin as [-> | Hin].
    + exists f. split; [by left | done].
    + destruct (mtimes_origin _ _ _ Hts Hin) as (g & Hg & Hm).
      exists g. split; [by right | done].
  - intros g t' Hg Ht'. apply elem_of_cons in Hg as [-> | Hg].
    + replace t' with t by congruence. done.
    + rewrite Forall_forall in Habove. apply Habove.
      eapply mtimes_elem; eauto.
Qed.

(** Two minima (maxima) of the same list are equal as numbers. *)
Lemma least_read_unique files m m' :
  least_read fs files m -> least_read fs files m' -> (m == m')%Q.
Proof.
  intros [(f & Hf & Hm) Hlow] [(f' & Hf' & Hm') Hlow'].
  apply Qle_antisym; eauto.
Qed.

Lemma most_read_unique files m m' :
  most_read fs files m -> most_read fs files m' -> (m == m')%Q.
Proof.
  intros [(f & Hf & Hm) Hup] [(f' & Hf' & Hm') Hup'].
  apply Qle_antisym; eauto.
Qed.

Lemma least_read_mtime files m : least_read fs files m <-> least_mtime fs files m.
Proof.
  unfold least_read, least_mtime. split.
  - intros [(f & Hf & Hm) Hlow]. split.
    + exists f. split; [done |]. by apply mtime_modified_at.
    + intros g t Hg Ht. apply (Hlow g t Hg). by apply mtime_modified_at.
  - intros [(f & Hf & Hm) Hlow]. split.
    + exists f. split; [done |]. by apply mtime_modified_at.
    + intros g t Hg Ht. apply (Hlow g t Hg). by apply mtime_modified_at.
Qed.

Lemma most_read_mtime files m : most_read fs files m <-> most_mtime fs files m.
Proof.
  unfold most_read, most_mtime. split.
  - intros [(f & Hf & Hm) Hup]. split.
    + exists f. split; [done |]. by apply mtime_modified_at.
    + intros g t Hg Ht. apply (Hup g t Hg). by apply mtime_modified_at.
  - intros [(f & Hf & Hm) Hup]. split.
    + exists f. split; [done |]. by apply mtime_modified_at.
    + intros g t Hg Ht. apply (Hup g t Hg). by apply mtime_modified_at.
Qed.

End Aggregates.

Section Reads.
Context {Pred : Type}.
Variables (fs : filesystem) (h : heap Pred) (self : target_ref)
          (o : TargetBase Pred).
Hypothesis Hself : h !! self = Some o.

Lemma run_get_target : get_target self h = (Ok o, h).
Proof. unfold get_target. by rewrite Hself. Qed.

Lemma run_output_files_exist :
  output_files_exist fs self h = (check_files_exist fs (output_files o), h).
Proof. unfold output_files_exist. by rewrite (bind_ok _ _ _ _ _ run_get_target). Qed.

Lemma run_input_files_exist :
  input_files_exist fs self h = (check_files_exist fs (input_files o), h).
Proof. unfold input_files_exist. by rewrite (bind_ok _ _ _ _ _ run_get_target). Qed.

Lemma run_input_files_most_mtime :
  input_files_most_mtime fs self h = (get_least_mtime fs (input_files o), h).
Proof. unfold input_files_most_mtime. by rewrite (bind_ok _ _ _ _ _ run_get_target). Qed.

Lemma run_output_files_least_mtime :
  output_files_least_mtime fs self h = (get_most_mtime fs (output_files o), h).
Proof. unfold output_files_least_mtime. by rewrite (bind_ok _ _ _ _ _ run_get_target). Qed.

Lemma run_check_output_files :
  check_output_files fs self h = (check_loop fs (output_files o), h).
Proof. unfold check_output_files. by rewrite (bind_ok _ _ _ _ _ run_get_target). Qed.

Lemma run_empty_or_missing files (exist : M (heap Pred) bool) e :
  exist h = (Ok e, h) ->
  empty_or_missing files exist h = (Ok (is_nil files || negb e), h).
Proof.
  intros He. unfold empty_or_missing. destruct files; simpl; [done |].
  by rewrite (bind_ok _ _ _ _ _ He).
Qed.
End Reads.

Section Raises.
Context {Pred : Type}.
Variables (h : heap Pred) (files : list File) (exist : M (heap Pred) bool).

Lemma run_empty_or_missing_raise e :
  files <> [] -> exist h = (Raise e, h) ->
  empty_or_missing files exist h = (Raise e, h).
Proof.
  intros Hne He. unfold empty_or_missing. destruct files; [done |]. simpl.
  by rewrite (bind_raise _ _ _ _ _ He).
Qed.
End Raises.

Lemma Qle_eq_compat a a' b b' :
  (a == a')%Q -> (b == b')%Q -> (a <= b)%Q -> (a' <= b')%Q.
Proof.
  intros Ha Hb Hab. apply Qle_trans with a.
  - apply Qle_lteq. right. by symmetry.
  - apply Qle_trans with b; [done |]. apply Qle_lteq. by right.
Qed.

Lemma is_nil_true {A} (l : list A) : is_nil l = true <-> l = [].
Proof. by destruct l. Qed.

(** Where the staleness can be told, the three steps of
    [is_rebuild_needed]. *)
Lemma is_rebuild_needed_decided {Pred} fs (h : heap Pred) self o :
  h !! self = Some o -> ~ undecided fs o ->
  exists b, is_rebuild_needed fs self h = (Ok b, h) /\
    (b = true <-> rebuild_rule fs o).
Proof.
  intros Hself Hdec.
  unfold is_rebuild_needed, rebuild_rule.
  rewrite (bind_ok _ _ _ _ _ (run_get_target h self o Hself)).
  destruct (check_files_exist_scan fs (output_files o))
    as [[Hb _] | [(_ & Hao & Heo) | [Hpo Heo]]].
  { destruct Hdec. by left. }
  { erewrite bind_ok; last first.
    { apply run_empty_or_missing.
      rewrite (run_output_files_exist _ _ _ o Hself). by rewrite Heo. }
    rewrite orb_true_r. simpl. exists true. split; [done |].
    split; [| done]. intros _. right; by left. }
  erewrite bind_ok; last first.
  { apply run_empty_or_missing. rewrite (run_output_files_exist _ _ _ o Hself).
    by rewrite Heo. }
  destruct (is_nil (output_files o)) eqn:Eo; simpl.
  { exists true. split; [done |]. split; [| done].
    intros _. left. by apply is_nil_true. }
  assert (Hno : output_files o <> []).
  { intros Hn. apply is_nil_true in Hn. congruence. }
  destruct (check_files_exist_scan fs (input_files o))
    as [[Hb _] | [(_ & Hai & Hei) | [Hpi Hei]]].
  { destruct Hdec. right. by repeat split. }
  { erewrite bind_ok; last first.
    { apply run_empty_or_missing.
      rewrite (run_input_files_exist _ _ _ o Hself). by rewrite Hei. }
    rewrite orb_true_r. simpl. exists true. split; [done |].
    split; [| done]. intros _. do 3 right; by left. }
  erewrite bind_ok; last first.
  { apply run_empty_or_missing. rewrite (run_input_files_exist _ _ _ o Hself).
    by rewrite Hei. }
  destruct (is_nil (input_files o)) eqn:Ei; simpl.
  { exists true. split; [done |]. split; [| done].
    intros _. do 2 right; left. by apply is_nil_true. }
  assert (Hni : input_files o <> []).
  { intros Hn. apply is_nil_true in Hn. congruence. }
  destruct (get_least_mtime_min fs _ Hni Hpi) as (ri & mi & Hrun_i & Hri & Hmi).
  destruct (get_most_mtime_max fs _ Hno Hpo) as (ro & mo & Hrun_o & Hro & Hmo).
  apply least_read_mtime in Hmi. apply most_read_mtime in Hmo.
  erewrite bind_ok; last first.
  { rewrite (run_input_files_most_mtime _ _ _ o Hself). by rewrite Hrun_i. }
  erewrite bind_ok; last first.
  { rewrite (run_output_files_least_mtime _ _ _ o Hself). by rewrite Hrun_o. }
  destruct (Qle_bool ro ri) eqn:Hcmp.
  - exists true. split; [done |]. split; [| done]. intros _.
    do 4 right. exists mi, mo. split; [done |]. split; [done |].
    apply Qle_bool_iff in Hcmp. unfold Qge.
    by apply (Qle_eq_compat ro mo ri mi).
  - exists false. split; [done |]. split; [done |].
    intros [Hnil | [(f & Hf & Ha) | [Hnil | [(f & Hf & Ha) | Hcase]]]].
    + done.
    + rewrite Forall_forall in Hpo. exfalso.
      eapply (present_not_absent fs); eauto.
    + done.
    + rewrite Forall_forall in Hpi. exfalso.
      eapply (present_not_absent fs); eauto.
    + destruct Hcase as (mi' & mo' & Hmi' & Hmo' & Hge).
      assert (Hle : (ro <= ri)%Q).
      { apply (Qle_eq_compat mo' ro mi' ri); [| | exact Hge].
        - transitivity mo; [| by symmetry].
          apply (most_read_unique fs (output_files o));
            by apply most_read_mtime.
        - transitivity mi; [| by symmetry].
          apply (least_read_unique fs (input_files o));
            by apply least_read_mtime. }
      apply Qle_bool_iff in Hle. congruence.
Qed.

(** Where it cannot, the missing-parent error. *)
Lemma is_rebuild_needed_undecided {Pred} fs (h : heap Pred) self o :
  h !! self = Some o -> undecided fs o ->
  is_rebuild_needed fs self h = (Raise AttributeError, h).
Proof.
  intros Hself Hun. unfold is_rebuild_needed.
  rewrite (bind_ok _ _ _ _ _ (run_get_target h self o Hself)).
  destruct Hun as [Hb | (Hno & Hpo & Hb)].
  - destruct (check_files_exist_scan fs (output_files o))
      as [[_ Heo] | [(Hnb & _) | [Hall _]]];
      [| done | by apply present_not_blocked in Hall].
    erewrite bind_raise; [done |].
    apply run_empty_or_missing_raise; [by apply (blocked_not_nil fs) |].
    rewrite (run_output_files_exist _ _ _ o Hself). by rewrite Heo.
  - destruct (check_files_exist_scan fs (output_files o))
      as [[Hbo _] | [(_ & (f & Hf & Ha) & _) | [_ Heo]]].
    { by apply present_not_blocked in Hpo. }
    { rewrite Forall_forall in Hpo. exfalso.
      eapply (present_not_absent fs); eauto. }
    erewrite bind_ok; last first.
    { apply run_empty_or_missing.
      rewrite (run_output_files_exist _ _ _ o Hself). by rewrite Heo. }
    assert (is_nil (output_files o) = false) as ->
      by (by destruct (output_files o)).
    simpl.
    destruct (check_files_exist_scan fs (input_files o))
      as [[_ Hei] | [(Hnb & _) | [Hall _]]];
      [| done | by apply present_not_blocked in Hall].
    erewrite bind_raise; [done |].
    apply run_empty_or_missing_raise; [by apply (blocked_not_nil fs) |].
    rewrite (run_input_files_exist _ _ _ o Hself). by rewrite Hei.
Qed.

(** C1, as stated, at a target whose only output has no parent: the call
    raises, and returns neither true nor false. *)
Lemma is_rebuild_needed_parentless_output :
  parent orphan = None /\
  is_rebuild_needed fs_fresh 1 {[1 := orphan_target]}
  = (Raise AttributeError, {[1 := orphan_target]}) /\
  ~ exists b, is_rebuild_needed fs_fresh 1 {[1 := orphan_target]}
              = (Ok b, {[1 := orphan_target]}).
Proof.
  split; [reflexivity |]. split; [vm_compute; reflexivity |].
  intros [b Hb]. vm_compute in Hb. discriminate.
Qed.

(** C1, amended: for every target, [is_rebuild_needed] leaves the heap
    alone, and either raises the missing-parent error - exactly when,
    going through the output files and then, if there are outputs and
    all of them exist, through the input files, it meets a file whose
    path cannot be formed before a file that does not exist - or returns
    true exactly when the outputs are empty or one is missing, or the
    inputs are empty or one is missing, or the least input mtime is at
    least the greatest output mtime, and false otherwise. *)
Theorem is_rebuild_needed_rule {Pred} fs (h : heap Pred) self o :
  h !! self = Some o ->
  (undecided fs o ->
     is_rebuild_needed fs self h = (Raise AttributeError, h)) /\
  (~ undecided fs o ->
     exists b, is_rebuild_needed fs self h = (Ok b, h) /\
       (b = true <-> rebuild_rule fs o) /\
       (b = false <-> ~ rebuild_rule fs o)).
Proof.
  intros Hself. split; [by apply is_rebuild_needed_undecided |].
  intros Hdec.
  destruct (is_rebuild_needed_decided fs h self o Hself Hdec) as (b & Hrun & Hb).
  exists b. split; [done |]. split; [done |].
  destruct b; split; intros Hx; try done.
  - exfalso. by apply Hx, Hb.
  - intros HP. by apply Hb in HP.
Qed.

(** The theorem at a target whose only output has no parent, at the
    target of the example - inputs at 5 and 10, output at 20 - and at a
    target without outputs whose input has no parent. *)
Lemma is_rebuild_needed_rule_witness :
  is_rebuild_needed fs_fresh 1 {[1 := orphan_target]}
  = (Raise AttributeError, {[1 := orphan_target]}) /\
  (exists b, is_rebuild_needed fs_fresh 1 {[1 := app_target]}
             = (Ok b, {[1 := app_target]}) /\
     (b = true <-> rebuild_rule fs_fresh app_target) /\
     (b = false <-> ~ rebuild_rule fs_fresh app_target)) /\
  (exists b, is_rebuild_needed fs_fresh 1 {[1 := orphan_input_target]}
             = (Ok b, {[1 := orphan_input_target]}) /\
     (b = true <-> rebuild_rule fs_fresh orphan_input_target) /\
     (b = false <-> ~ rebuild_rule fs_fresh orphan_input_target)).
Proof.
  split; [| split].
  - apply (is_rebuild_needed_rule fs_fresh {[1 := orphan_target]} 1
             orphan_target); [reflexivity |].
    left. exists [], orphan, [].
    split; [reflexivity | split; [constructor | reflexivity]].
  - apply (is_rebuild_needed_rule fs_fresh {[1 := app_target]} 1 app_target);
      [reflexivity |].
    intros [Hb | (_ & _ & Hb)];
      (eapply resolvable_not_blocked; [| exact Hb]); reflexivity.
  - apply (is_rebuild_needed_rule fs_fresh {[1 := orphan_input_target]} 1
             orphan_input_target); [reflexivity |].
    intros [Hb | (Hne & _)]; [| by destruct Hne].
    eapply resolvable_not_blocked; [| exact Hb]. reflexivity.
Defined.

(** The timestamps of the specification's examples. *)
Example rebuild_not_needed_5_10_vs_20 :
  is_rebuild_needed fs_fresh 1 {[1 := app_target]}
  = (Ok false, {[1 := app_target]}).
Proof. vm_compute. reflexivity. Qed.

Example rebuild_needed_25_vs_20 :
  is_rebuild_needed fs_stale 1 {[1 := single_target]}
  = (Ok true, {[1 := single_target]}).
Proof. vm_compute. reflexivity. Qed.

Example rebuild_needed_output_missing :
  is_rebuild_needed fs_unbuilt 1 {[1 := single_target]}
  = (Ok true, {[1 := single_target]}).
Proof. vm_compute. reflexivity. Qed.

Example rebuild_needed_no_files :
  is_rebuild_needed fs_fresh 1 {[1 := bare_target]}
  = (Ok true, {[1 := bare_target]}).
Proof. vm_compute. reflexivity. Qed.

(** Files without a parent that are never looked at: no output and an
    input without a parent; a missing output before an output without a
    parent. *)
Example rebuild_needed_orphan_input_unread :
  is_rebuild_needed fs_fresh 1 {[1 := orphan_input_target]}
  = (Ok true, {[1 := orphan_input_target]}).
Proof. vm_compute. reflexivity. Qed.

Example rebuild_needed_missing_before_orphan :
  is_rebuild_needed fs_unbuilt 1 {[1 := missing_then_orphan_target]}
  = (Ok true, {[1 := missing_then_orphan_target]}).
Proof. vm_compute. reflexivity. Qed.

(** The three ways a scan of [files] ends, and what the loop of
    [check_output_files] does in each. *)
Lemma check_loop_scan fs files :
  (blocked fs files /\ check_loop fs files = Raise AttributeError) \/
  (~ blocked fs files /\ (exists f, f ∈ files /\ absent fs f) /\
   check_loop fs files = Raise FileNotFoundError) \/
  (Forall (present fs) files /\ check_loop fs files = Ok tt).
Proof.
  induction files as [| f files IH]; simpl.
  - right; right. by split; [constructor |].
  - destruct (resolvable f) eqn:Hres.
    + destruct (present_or_absent fs f Hres) as [Hp | Ha].
      * rewrite (proj2 (exists_present fs f) Hp). simpl.
        destruct IH as [[Hb Hrun] | [(Hnb & (g & Hg & Ha) & Hrun) | [Hall Hrun]]].
        -- left. split; [by apply blocked_later | done].
        -- right; left. split; [| split; [| done]].
           ++ intros [Hr | [_ Hb]]%blocked_cons; [congruence | done].
           ++ exists g. split; [by right | done].
        -- right; right. split; [by constructor | done].
      * rewrite (proj2 (exists_absent fs f) Ha). simpl.
        right; left. split; [| split; [| done]].
        -- intros [Hr | [Hp _]]%blocked_cons; [congruence |].
           by apply (present_not_absent fs f).
        -- exists f. split; [by left | done].
    + left. split; [by apply blocked_here |].
      unfold File_exists. by rewrite (unresolvable_path f Hres).
Qed.

(** C8, as stated, at a target whose only output has no parent: the
    output is not known to exist, nor known to be missing, and the call
    raises the missing-parent error, which is neither the missing-output
    error nor a normal return. *)
Lemma check_output_files_parentless_output :
  parent orphan = None /\
  check_output_files fs_fresh 1 {[1 := orphan_target]}
  = (Raise AttributeError, {[1 := orphan_target]}) /\
  ~ Forall (present fs_fresh) (output_files orphan_target) /\
  ~ exists f, f ∈ output_files orphan_target /\ absent fs_fresh f.
Proof.
  split; [reflexivity |]. split; [vm_compute; reflexivity |]. split.
  - intros Hall. apply Forall_inv in Hall as (t & p & Hp & _).
    vm_compute in Hp. discriminate.
  - intros (f & Hf & p & Hp & _).
    apply list_elem_of_singleton in Hf as ->. vm_compute in Hp. discriminate.
Qed.

(** C8, amended: for every target, [check_output_files] leaves the heap
    as it was, and either raises the missing-parent error - exactly when,
    going through the output files, it meets a file whose path cannot be
    formed before a file that does not exist - or raises the
    missing-output error exactly when some declared output does not
    exist, and returns normally exactly when all of them exist (so also
    when there is none). *)
Theorem check_output_files_raises_iff {Pred} fs (h : heap Pred) self o :
  h !! self = Some o ->
  (blocked fs (output_files o) ->
     check_output_files fs self h = (Raise AttributeError, h)) /\
  (~ blocked fs (output_files o) ->
     exists r, check_output_files fs self h = (r, h) /\
       (r = Raise FileNotFoundError \/ r = Ok tt) /\
       (r = Raise FileNotFoundError <->
          exists f, f ∈ output_files o /\ absent fs f) /\
       (r = Ok tt <-> Forall (present fs) (output_files o)) /\
       (output_files o = [] -> r = Ok tt)).
Proof.
  intros Hself. rewrite (run_check_output_files fs h self o Hself).
  destruct (check_loop_scan fs (output_files o))
    as [[Hb Hrun] | [(Hnb & Ha & Hrun) | [Hall Hrun]]]; rewrite Hrun.
  - by split.
  - split; [done |]. intros _. eexists. split; [done |].
    split; [by left |]. split; [done |]. split.
    + split; [done |]. intros Hall. destruct Ha as (f & Hf & Ha).
      rewrite Forall_forall in Hall. exfalso.
      eapply (present_not_absent fs); eauto.
    + intros Hnil. rewrite Hnil in Ha. destruct Ha as (f & Hf & _).
      by apply not_elem_of_nil in Hf.
  - split; [intros Hb; by apply present_not_blocked in Hall |].
    intros _. eexists. split; [done |]. split; [by right |]. split.
    + split; [done |]. intros (f & Hf & Ha).
      rewrite Forall_forall in Hall. exfalso.
      eapply (present_not_absent fs); eauto.
    + done.
Qed.

(** The theorem at a target whose only output has no parent, at a target
    whose output was never produced, and at a target with a missing
    output before an output without a parent. *)
Lemma check_output_files_raises_iff_witness :
  check_output_files fs_fresh 1 {[1 := orphan_target]}
  = (Raise AttributeError, {[1 := orphan_target]}) /\
  (exists r, check_output_files fs_unbuilt 1 {[1 := single_target]}
             = (r, {[1 := single_target]}) /\
     (r = Raise FileNotFoundError \/ r = Ok tt) /\
     (r = Raise FileNotFoundError <->
        exists f, f ∈ output_files single_target /\ absent fs_unbuilt f) /\
     (r = Ok tt <-> Forall (present fs_unbuilt) (output_files single_target)) /\
     (output_files single_target = [] -> r = Ok tt)) /\
  (exists r, check_output_files fs_unbuilt 1 {[1 := missing_then_orphan_target]}
             = (r, {[1 := missing_then_orphan_target]}) /\
     (r = Raise FileNotFoundError \/ r = Ok tt) /\
     (r = Raise FileNotFoundError <->
        exists f, f ∈ output_files missing_then_orphan_target /\
                  absent fs_unbuilt f) /\
     (r = Ok tt <->
        Forall (present fs_unbuilt) (output_files missing_then_orphan_target)) /\
     (output_files missing_then_orphan_target = [] -> r = Ok tt)).
Proof.
  split; [| split].
  - apply (check_output_files_raises_iff fs_fresh {[1 := orphan_target]} 1
             orphan_target); [reflexivity |].
    exists [], orphan, [].
    split; [reflexivity | split; [constructor | reflexivity]].
  - apply (check_output_files_raises_iff fs_unbuilt {[1 := single_target]} 1
             single_target); [reflexivity |].
    apply resolvable_not_blocked. reflexivity.
  - apply (check_output_files_raises_iff fs_unbuilt
             {[1 := missing_then_orphan_target]} 1 missing_then_orphan_target);
      [reflexivity |].
    apply absent_not_blocked. file_is_not_there.
Defined.

Example check_output_files_missing :
  check_output_files fs_unbuilt 1 {[1 := single_target]}
  = (Raise FileNotFoundError, {[1 := single_target]}).
Proof. vm_compute. reflexivity. Qed.

Example check_output_files_all_present :
  check_output_files fs_fresh 1 {[1 := app_target]}
  = (Ok tt, {[1 := app_target]}).
Proof. vm_compute. reflexivity. Qed.

(** A missing output before an output without a parent: the
    missing-output error. *)
Example check_output_files_missing_before_orphan :
  check_output_files fs_unbuilt 1 {[1 := missing_then_orphan_target]}
  = (Raise FileNotFoundError, {[1 := missing_then_orphan_target]}).
Proof. vm_compute. reflexivity. Qed.

Example check_output_files_no_outputs :
  check_output_files fs_unbuilt 1 {[1 := bare_target]}
  = (Ok tt, {[1 := bare_target]}).
Proof. vm_compute. reflexivity. Qed.

(** C9, as stated, at [/usr/lib/libm.a] without a parent: the name is
    absolute and the resolution still fails. *)
Lemma absolute_name_without_parent_fails :
  parent orphan = None /\ isabs (name orphan) = true /\
  ~ exists p, File_absolute_path orphan = Ok p.
Proof.
  split; [reflexivity |]. split; [reflexivity |].
  intros [p Hp]. vm_compute in Hp. discriminate.
Qed.

(** C9, amended: an artifact reference without a parent never resolves to
    an absolute path; the resolution fails with the missing-parent error
    whatever the name is, absolute or not. *)
Theorem absolute_path_without_parent name extension :
  File_absolute_path (File_init name None extension) = Raise AttributeError /\
  File_absolute_path (mkFile name None) = Raise AttributeError.
Proof.
  split; [| reflexivity].
  unfold File_init. destruct extension as [ext |]; [| reflexivity].
  by destruct (String.eqb ext "").
Qed.

(** With a parent directory that resolves, so does the file. *)
Lemma absolute_path_with_parent name d a :
  Directory_absolute_path d = Ok a ->
  File_absolute_path (mkFile name (Some d)) = Ok (normpath (join a name)).
Proof. intros Hd. unfold File_absolute_path. simpl. by rewrite Hd. Qed.

(** C10: on the empty list both aggregation helpers return 0.0, and the
    two staleness properties of a target without input (output) files are
    defined and equal to 0.0. *)
Theorem mtime_of_no_files {Pred} fs :
  get_least_mtime fs [] = Ok 0%Q /\ get_most_mtime fs [] = Ok 0%Q /\
  forall (h : heap Pred) self o, h !! self = Some o ->
    (input_files o = [] ->
       input_files_most_mtime fs self h = (Ok 0%Q, h)) /\
    (output_files o = [] ->
       output_files_least_mtime fs self h = (Ok 0%Q, h)).
Proof.
  split; [reflexivity |]. split; [reflexivity |].
  intros h self o Hself. split; intros Hnil.
  - by rewrite (run_input_files_most_mtime fs h self o Hself), Hnil.
  - by rewrite (run_output_files_least_mtime fs h self o Hself), Hnil.
Qed.

Lemma mtime_of_no_files_witness :
  input_files_most_mtime fs_fresh 1 {[1 := bare_target]}
  = (Ok 0%Q, {[1 := bare_target]}) /\
  output_files_least_mtime fs_fresh 1 {[1 := bare_target]}
  = (Ok 0%Q, {[1 := bare_target]}).
Proof.
  destruct (mtime_of_no_files (Pred := unit) fs_fresh) as (_ & _ & Hprops).
  destruct (Hprops {[1 := bare_target]} 1 bare_target) as [Hi Ho];
    [reflexivity |].
  split; [apply Hi | apply Ho]; reflexivity.
Defined.

End StalenessProofs.

(** ** Targets and dependency edges *)

Module GraphProofs.
Import Path Base Graph.

Section Slots.
Context {Pred : Type}.
Implicit Types (l : list (slot Pred)) (ds : list (Dependency Pred)).

(** Reading the targets off a slot list that ends in a list of edges
    fails on that slot at the latest. *)
Lemma result_map_edge_list l ds :
  result_map getattr_target (l ++ [EdgeList ds]) = Raise AttributeError.
Proof.
  induction l as [| [d | ds'] l IH]; simpl; [done | | done].
  by rewrite IH.
Qed.

(** The comprehension of [selected_dependencies] keeps every slot it can
    read: the truth value it tests is that of a bound method. *)
Lemma selected_loop_unfiltered l :
  selected_loop l = result_map getattr_target l.
Proof.
  induction l as [| [d | ds] l IH]; simpl; [done | | done].
  by rewrite IH.
Qed.

Lemma result_map_edges ds :
  result_map getattr_target (Edge <$> ds) = Ok (target <$> ds).
Proof. induction ds as [| d ds IH]; csimpl; [done |]. by rewrite IH. Qed.

(** Whatever the selection callables answer, [selected_dependencies] is
    [dependencies]. *)
Lemma selected_dependencies_eq_dependencies self (h : heap Pred) :
  selected_dependencies self h = dependencies self h.
Proof.
  unfold selected_dependencies, dependencies, bind.
  destruct (get_target self h) as [[o | e] h']; [| done].
  unfold lift. by rewrite selected_loop_unfiltered.
Qed.
End Slots.

(** *** What the operations do to [dependees] *)

Section Growth.
Context {Pred : Type}.
Implicit Types (h : heap Pred).

Lemma grows_refl h : grows h h.
Proof. intros t o Ht. exists o. by split. Qed.

Lemma grows_trans h1 h2 h3 : grows h1 h2 -> grows h2 h3 -> grows h1 h3.
Proof.
  intros H12 H23 t o Ht.
  destruct (H12 t o Ht) as (o2 & Ht2 & Hsub2).
  destruct (H23 t o2 Ht2) as (o3 & Ht3 & Hsub3).
  exists o3. split; [done |]. by etrans.
Qed.

Lemma grows_insert h t o o' :
  h !! t = Some o -> dependees o ⊆ dependees o' -> grows h (<[t := o']> h).
Proof.
  intros Ht Hsub u ou Hu. destruct (decide (t = u)) as [-> | Hne].
  - exists o'. rewrite lookup_insert_eq. split; [done |].
    by assert (ou = o) as -> by congruence.
  - exists ou. rewrite lookup_insert_ne; [| done]. by split.
Qed.

Lemma grows_registered h h' e :
  grows h h' -> registered h e -> registered h' e.
Proof.
  intros Hg (o & Ho & Hin). destruct (Hg _ _ Ho) as (o' & Ho' & Hsub).
  exists o'. split; [done |]. by apply Hsub.
Qed.
End Growth.

Section ReadOnly.
Context {St : Type}.

Lemma readonly_ret {A} (a : A) : readonly (St := St) (ret a).
Proof. by intros s. Qed.

Lemma readonly_lift {A} (r : result A) : readonly (St := St) (lift r).
Proof. by intros s. Qed.

Lemma readonly_bind {A B} (m : M St A) (k : A -> M St B) :
  readonly m -> (forall a, readonly (k a)) -> readonly (bind m k).
Proof.
  intros Hm Hk s. unfold bind. specialize (Hm s).
  destruct (m s) as [[a | e] s']; simpl in *; subst; [apply Hk | done].
Qed.
End ReadOnly.

Section Operations.
Context {Pred : Type}.
Variable fs : filesystem.
Implicit Types (h : heap Pred).

Lemma readonly_get_target t : readonly (get_target (Pred := Pred) t).
Proof. intros h. unfold get_target. by destruct (h !! t). Qed.

Create HintDb ro.
#[local] Hint Resolve readonly_ret readonly_lift readonly_get_target : ro.
#[local] Hint Extern 2 (readonly (bind _ _)) =>
  apply readonly_bind; [| intros ?] : ro.
#[local] Hint Extern 2 (readonly (if ?b then _ else _)) => destruct b : ro.

Lemma readonly_dependencies self :
  readonly (dependencies (Pred := Pred) self).
Proof. unfold dependencies. auto with ro. Qed.

Lemma readonly_selected_dependencies self :
  readonly (selected_dependencies (Pred := Pred) self).
Proof. unfold selected_dependencies. auto with ro. Qed.

Lemma readonly_check_output_files self :
  readonly (check_output_files (Pred := Pred) fs self).
Proof. unfold check_output_files. auto with ro. Qed.

Lemma readonly_is_rebuild_needed self :
  readonly (is_rebuild_needed (Pred := Pred) fs self).
Proof.
  unfold is_rebuild_needed, empty_or_missing, output_files_exist,
    input_files_exist, input_files_most_mtime, output_files_least_mtime.
  auto 20 with ro.
Qed.

(** [Dependency.__init__] only ever appends to one [dependees]. *)
Lemma Dependency_init_grows a d sel h :
  grows h (Dependency_init a d sel h).2.
Proof.
  unfold Dependency_init, bind, get_target, put_target, ret.
  destruct (h !! a) as [o |] eqn:Ha; simpl; [| apply grows_refl].
  eapply grows_insert; [done |]. simpl. set_solver.
Qed.

(** A constructed edge is registered at once. *)
Lemma Dependency_init_registers a d sel h e h' :
  Dependency_init a d sel h = (Ok e, h') ->
  target e = a /\ selection_function e = sel /\ registered h' (a, d).
Proof.
  unfold Dependency_init, bind, get_target, put_target, ret.
  destruct (h !! a) as [o |] eqn:Ha; simpl; [| done].
  intros [= <- <-]. split; [done |]. split; [done |].
  eexists. simpl. rewrite lookup_insert_eq. split; [done |]. simpl.
  set_solver.
Qed.

Lemma from_list_grows ts d sel h :
  grows h (from_list ts d sel h).2.
Proof.
  unfold from_list. revert h. induction ts as [| a ts IH]; intros h; simpl.
  - apply grows_refl.
  - unfold bind at 1.
    pose proof (Dependency_init_grows a d sel h) as Hg.
    destruct (Dependency_init a d sel h) as [[e | x] h1]; simpl in *; [| done].
    unfold bind at 1. specialize (IH h1).
    destruct (mapM _ ts h1) as [[es | x] h2]; simpl in *;
      by eapply grows_trans.
Qed.

(** [from_list], when it returns, has built one edge per target, in
    order, and each of them is registered. *)
Lemma from_list_registers ts d sel h es h' :
  from_list ts d sel h = (Ok es, h') ->
  target <$> es = ts /\
  Forall (fun e => selection_function e = sel) es /\
  forall a, a ∈ ts -> registered h' (a, d).
Proof.
  unfold from_list. revert h es.
  induction ts as [| a ts IH]; intros h es; simpl.
  - intros [= <- <-]. split; [done |]. split; [constructor |].
    intros a Ha. by apply not_elem_of_nil in Ha.
  - unfold bind at 1.
    destruct (Dependency_init a d sel h) as [[e | x] h1] eqn:He; [| done].
    apply Dependency_init_registers in He as (Ht & Hs & Hreg).
    unfold bind at 1.
    destruct (mapM _ ts h1) as [[es' | x] h2] eqn:Hes; [| done].
    intros [= <- <-].
    pose proof (from_list_grows ts d sel h1) as Hg.
    unfold from_list in Hg. rewrite Hes in Hg. simpl in Hg.
    destruct (IH _ _ Hes) as (Hts & Hsel & Hregs).
    split; [csimpl; congruence |]. split; [by constructor |].
    intros b [-> | Hb]%elem_of_cons; [| by apply Hregs].
    by eapply grows_registered.
Qed.

(** Building edges leaves every edge list alone. *)
Lemma Dependency_init_slots a d sel h t o :
  h !! t = Some o ->
  exists o', (Dependency_init a d sel h).2 !! t = Some o' /\
             _dependencies o' = _dependencies o.
Proof.
  intros Ht. unfold Dependency_init, bind, get_target, put_target, ret.
  destruct (h !! a) as [oa |] eqn:Ha; simpl; [| eauto].
  destruct (decide (a = t)) as [-> | Hne].
  - rewrite lookup_insert_eq. eexists. split; [done |]. simpl. congruence.
  - rewrite lookup_insert_ne; [| done]. eauto.
Qed.

Lemma from_list_slots ts d sel h t o :
  h !! t = Some o ->
  exists o', (from_list ts d sel h).2 !! t = Some o' /\
             _dependencies o' = _dependencies o.
Proof.
  unfold from_list. revert h o.
  induction ts as [| a ts IH]; intros h o Ht; simpl; [eauto |].
  unfold bind at 1.
  destruct (Dependency_init_slots a d sel h t o Ht) as (o1 & H1 & E1).
  destruct (Dependency_init a d sel h) as [[e | x] h1]; simpl in *; [| eauto].
  unfold bind at 1.
  destruct (IH h1 o1 H1) as (o2 & H2 & E2).
  destruct (mapM _ ts h1) as [[es | x] h2]; simpl in *; eauto with congruence.
Qed.

Lemma add_dependencies_grows self ts sel h :
  grows h (add_dependencies self ts sel h).2.
Proof.
  unfold add_dependencies. unfold bind at 1.
  pose proof (readonly_get_target self h) as Hro.
  destruct (get_target self h) as [[o | x] h0]; simpl in Hro; subst;
    [| apply grows_refl].
  unfold bind at 1. pose proof (from_list_grows ts self sel h) as Hg.
  destruct (from_list ts self sel h) as [[es | x] h1]; simpl in Hg; [| done].
  unfold bind, get_target, put_target.
  destruct (h1 !! self) as [o1 |] eqn:H1; simpl; [| done].
  eapply grows_trans; [done |]. by eapply grows_insert.
Qed.

(** [add_dependencies], when it returns, has registered the target as a
    dependee of every dependency, and has appended exactly one slot,
    holding the list of the new edges, to the edge list. *)
Lemma add_dependencies_spec self ts sel h h' :
  add_dependencies self ts sel h = (Ok tt, h') ->
  (forall a, a ∈ ts -> registered h' (a, self)) /\
  exists o o' es,
    h !! self = Some o /\ h' !! self = Some o' /\
    target <$> es = ts /\
    _dependencies o' = _dependencies o ++ [EdgeList es].
Proof.
  unfold add_dependencies. unfold bind at 1. unfold get_target at 1.
  destruct (h !! self) as [o |] eqn:Hself; [| done].
  unfold bind at 1.
  destruct (from_list_slots ts self sel h self o Hself) as (o1 & H1 & E1).
  destruct (from_list ts self sel h) as [[es | x] h1] eqn:Hes; [| done].
  simpl in H1. apply from_list_registers in Hes as (Hts & _ & Hreg).
  unfold bind, get_target, put_target. rewrite H1. intros [= <-].
  split.
  - intros a Ha. eapply grows_registered; [| by apply Hreg].
    by eapply grows_insert.
  - exists o, (set_dependencies o1 (_dependencies o1 ++ [EdgeList es])), es.
    rewrite lookup_insert_eq. simpl. by rewrite E1.
Qed.

(** After [add_dependencies] has returned, neither projection of the
    edge list can be read any more. *)
Lemma dependencies_after_add_dependencies self ts sel h h' :
  add_dependencies self ts sel h = (Ok tt, h') ->
  dependencies self h' = (Raise AttributeError, h') /\
  selected_dependencies self h' = (Raise AttributeError, h').
Proof.
  intros (_ & o & o' & es & _ & Ho' & _ & Hslots)%add_dependencies_spec.
  rewrite selected_dependencies_eq_dependencies.
  enough (dependencies self h' = (Raise AttributeError, h')) by done.
  unfold dependencies, bind, get_target, lift. rewrite Ho', Hslots.
  by rewrite result_map_edge_list.
Qed.

(** No operation of a target or of an edge removes a dependee. *)
Lemma exec_grows a h : grows h (exec fs a h).
Proof.
  destruct a; simpl.
  - unfold TargetBase_init. simpl. intros t o Ht.
    exists o. split; [| done]. rewrite lookup_insert_ne; [done |].
    intros <-. pose proof (is_fresh (dom h)) as Hfresh.
    apply Hfresh, elem_of_dom. eauto.
  - apply Dependency_init_grows.
  - apply add_dependencies_grows.
  - unfold assign_state, bind, get_target, put_target.
    destruct (h !! t) as [o |] eqn:Ht; simpl; [| apply grows_refl].
    by eapply grows_insert.
  - rewrite readonly_dependencies. apply grows_refl.
  - rewrite readonly_selected_dependencies. apply grows_refl.
  - rewrite readonly_is_rebuild_needed. apply grows_refl.
  - rewrite readonly_check_output_files. apply grows_refl.
Qed.

Lemma exec_all_grows l h : grows h (exec_all fs l h).
Proof.
  unfold exec_all. revert h. induction l as [| a l IH]; intros h; simpl.
  - apply grows_refl.
  - eapply grows_trans; [apply exec_grows | apply IH].
Qed.

(** An edge that is registered stays registered through every sequence
    of operations of targets and edges. *)
Lemma registered_exec_all l h e :
  registered h e -> registered (exec_all fs l h) e.
Proof. apply grows_registered, exec_all_grows. Qed.

(** Every edge built by the constructor, and every edge built by
    [add_dependencies], is registered from then on. *)
Lemma edge_registered_from_construction a d sel h e h' l :
  Dependency_init a d sel h = (Ok e, h') ->
  registered (exec_all fs l h') (target e, d).
Proof.
  intros (-> & _ & Hreg)%Dependency_init_registers.
  by apply registered_exec_all.
Qed.

Lemma add_dependencies_registered self ts sel h h' l a :
  add_dependencies self ts sel h = (Ok tt, h') -> a ∈ ts ->
  registered (exec_all fs l h') (a, self).
Proof.
  intros [Hreg _]%add_dependencies_spec Ha.
  by apply registered_exec_all, Hreg.
Qed.

End Operations.

(** C2 fails on the code.  Whenever [add_dependencies] returns, the edge
    list of the target has gained one single slot, which holds the whole
    list of the new edges (one edge per target, in order), and reading
    [dependencies] afterwards raises instead of giving the targets. *)
Theorem add_dependencies_appends_one_list {Pred} self ts sel
    (h h' : heap Pred) :
  add_dependencies self ts sel h = (Ok tt, h') ->
  (exists o o' es,
     h !! self = Some o /\ h' !! self = Some o' /\
     target <$> es = ts /\
     _dependencies o' = _dependencies o ++ [EdgeList es]) /\
  dependencies self h' = (Raise AttributeError, h').
Proof.
  intros Hadd. split.
  - by apply add_dependencies_spec in Hadd as [_ Hslots].
  - by apply dependencies_after_add_dependencies in Hadd as [Hdeps _].
Qed.

(** The theorem at [T.add_dependencies([A, B], pred)] on three new
    targets: [T.dependencies] raises, where [[A, B]] is expected. *)
Lemma add_dependencies_appends_one_list_witness :
  _dependencies <$> after_add !! T
    = Some [EdgeList [mkDependency A (Some false);
                      mkDependency B (Some false)]] /\
  dependencies T after_add = (Raise AttributeError, after_add).
Proof.
  split; [vm_compute; reflexivity |].
  apply (add_dependencies_appends_one_list T [A; B] (Some false)
           three_targets after_add).
  vm_compute. reflexivity.
Defined.

(** With no target at all the edge list gains a slot as well. *)
Example add_dependencies_of_nothing :
  _dependencies <$> after_add_none !! T = Some [EdgeList []] /\
  dependencies T after_add_none = (Raise AttributeError, after_add_none).
Proof. split; vm_compute; reflexivity. Qed.

(** Without any callable an edge counts as selected, and on edge lists
    that hold edges both projections give the targets in order. *)
Lemma Dependency_selected_default {Pred} call (h : heap Pred) t :
  Dependency_selected call (mkDependency t None) h = (Ok true, h).
Proof. reflexivity. Qed.

Lemma selected_dependencies_of_edges {Pred} (h : heap Pred) self o es :
  h !! self = Some o -> _dependencies o = Edge <$> es ->
  selected_dependencies self h = (Ok (target <$> es), h) /\
  dependencies self h = (Ok (target <$> es), h).
Proof.
  intros Hself Hslots. rewrite selected_dependencies_eq_dependencies.
  enough (dependencies self h = (Ok (target <$> es), h)) by done.
  unfold dependencies, bind, get_target, lift.
  by rewrite Hself, Hslots, result_map_edges.
Qed.

(** C3 fails on the code.  On every heap [selected_dependencies] is
    [dependencies]: no edge is ever excluded.  At a target whose first edge
    carries a callable answering False, the edge is kept; and when the edge
    went in through [add_dependencies], [selected_dependencies] raises. *)
Theorem selected_dependencies_keeps_unselected :
  (forall Pred (h : heap Pred) self,
     selected_dependencies self h = dependencies self h) /\
  Dependency_selected call_const edge_A with_edges = (Ok false, with_edges) /\
  selected_dependencies T with_edges = (Ok [A; B], with_edges) /\
  selected_dependencies T after_add = (Raise AttributeError, after_add).
Proof.
  split; [intros Pred h self; apply selected_dependencies_eq_dependencies |].
  split; [reflexivity |].
  split.
  - apply (selected_dependencies_of_edges with_edges T
             (mkTarget [Edge edge_A; Edge edge_B] [] NOT_SELECTED [] [])
             [edge_A; edge_B]); reflexivity.
  - eapply proj2, (dependencies_after_add_dependencies T [A; B] (Some false)
                     three_targets).
    vm_compute. reflexivity.
Qed.

End GraphProofs.

(** ** TraversalTree *)

Module TraversalProofs.
Import Traversal Trees.

Section Generic.
Context {St Node Val : Type} `{Countable Node} {Py : PyObjects St Node Val}.

(** More fuel does not change an answer. *)
Lemma get_leaves_loop_fuel fuel k stack leaves s r :
  get_leaves_loop fuel stack leaves s = Some r ->
  get_leaves_loop (fuel + k) stack leaves s = Some r.
Proof.
  revert stack leaves s. induction fuel as [| fuel IH];
    intros stack leaves s; simpl; [done |].
  destruct (last stack) as [top |]; [| done].
  destruct (get_leaves_body stack top leaves s) as [[[stack' leaves'] | e] s'];
    [apply IH | done].
Qed.

Lemma find_loop_fuel fuel k node stack s r :
  find_loop fuel node stack s = Some r ->
  find_loop (fuel + k) node stack s = Some r.
Proof.
  revert stack s. induction fuel as [| fuel IH]; intros stack s; simpl;
    [done |].
  destruct (last stack) as [top |]; [| done].
  destruct (find_body node stack top s) as [[[stack' |] | e] s'];
    [apply IH | done | done].
Qed.

Lemma get_leaves_fuel fuel k root s r :
  get_leaves fuel root s = Some r -> get_leaves (fuel + k) root s = Some r.
Proof.
  unfold get_leaves. destruct (getattr root s) as [[v | e] s']; [| done].
  apply get_leaves_loop_fuel.
Qed.

Lemma find_fuel fuel k root node s r :
  find fuel root node s = Some r -> find (fuel + k) root node s = Some r.
Proof.
  unfold find. destruct (getattr root s) as [[v | e] s']; [| done].
  apply find_loop_fuel.
Qed.

(** When the first [pop] raises, so do both traversals. *)
Lemma first_pop_raises fuel root node s v s1 e s2 :
  getattr root s = (Ok v, s1) -> pop v s1 = (Raise e, s2) ->
  get_leaves (S fuel) root s = Some (Raise e, s2) /\
  find (S fuel) root node s = Some (Raise e, s2).
Proof.
  intros Hroot Hpop. unfold get_leaves, find. rewrite Hroot. simpl.
  unfold get_leaves_body, find_body.
  by rewrite !(bind_raise _ _ _ _ _ Hpop).
Qed.
End Generic.

(** A root whose children attribute is an empty list object makes both
    traversals raise at the first [pop]. *)
Lemma empty_root_raises (s : objects) root r fuel node :
  children_field s !! root = Some (Plain (Stored r)) ->
  lists s !! r = Some [] ->
  get_leaves (S fuel) root s = Some (Raise IndexError, s) /\
  find (S fuel) root node s = Some (Raise IndexError, s).
Proof.
  intros Hroot Hr. apply (first_pop_raises fuel root node s (VList r) s).
  - simpl. unfold obj_getattr. by rewrite Hroot.
  - simpl. by rewrite Hr.
Qed.

(** C5 fails on the code.  For every root whose children collection is
    empty - a list attribute, a property building a new list, or a method
    - [get_leaves] and [find] raise instead of returning the empty set and
    [False]: the first [pop] is on an empty list ([IndexError]) or on the
    method object ([AttributeError]). *)
Theorem childless_root_raises (s : objects) root fuel node :
  children_of s root = Some [] ->
  exists e s',
    get_leaves (S fuel) root s = Some (Raise e, s') /\
    find (S fuel) root node s = Some (Raise e, s') /\
    (e = IndexError \/ e = AttributeError).
Proof.
  unfold children_of.
  destruct (children_field s !! root) as [[[r | l] | src] |] eqn:Hroot;
    simpl; intros Hkids; [| | | done].
  - exists IndexError, s.
    destruct (empty_root_raises s root r fuel node Hroot Hkids) as [Hl Hf].
    by eauto.
  - injection Hkids as ->.
    set (r := fresh (dom (lists s))).
    exists IndexError, (set_list r [] s).
    destruct (first_pop_raises fuel root node s (VList r) (set_list r [] s)
                IndexError (set_list r [] s)) as [Hl Hf].
    + simpl. unfold obj_getattr. by rewrite Hroot.
    + simpl. by rewrite lookup_insert_eq.
    + by eauto.
  - exists AttributeError, s.
    destruct (first_pop_raises fuel root node s (VMethod src) s
                AttributeError s) as [Hl Hf].
    + simpl. unfold obj_getattr. by rewrite Hroot.
    + done.
    + by eauto.
Qed.

(** The theorem at a root whose list attribute is the empty list. *)
Lemma childless_root_raises_witness :
  exists e s',
    get_leaves 1 0 childless = Some (Raise e, s') /\
    find 1 0 7 childless = Some (Raise e, s') /\
    (e = IndexError \/ e = AttributeError).
Proof. apply (childless_root_raises childless 0 0 7). reflexivity. Defined.

Example childless_root_list fuel node :
  get_leaves (S fuel) 0 childless = Some (Raise IndexError, childless) /\
  find (S fuel) 0 node childless = Some (Raise IndexError, childless).
Proof. apply (empty_root_raises childless 0 10); reflexivity. Qed.

Example childless_root_property fuel node :
  fst <$> get_leaves (S fuel) 0 childless_fresh = Some (Raise IndexError) /\
  fst <$> find (S fuel) 0 node childless_fresh = Some (Raise IndexError).
Proof.
  destruct (first_pop_raises fuel 0 node childless_fresh (VList 0)
              (set_list 0 [] childless_fresh) IndexError
              (set_list 0 [] childless_fresh)) as [-> ->]; [done | done |].
  by split.
Qed.

Example childless_root_method fuel node :
  get_leaves (S fuel) 0 childless_method
    = Some (Raise AttributeError, childless_method) /\
  find (S fuel) 0 node childless_method
    = Some (Raise AttributeError, childless_method).
Proof.
  apply (first_pop_raises fuel 0 node childless_method (VMethod (Stored 10))
           childless_method AttributeError childless_method); reflexivity.
Qed.

(** The example of the specification: the result is {X, Z}, and that is
    the set of the leaves below the root. *)
Lemma get_leaves_xyz fuel :
  fst <$> get_leaves (4 + fuel) 0 tree_xyz = Some (Ok {[1; 3]}) /\
  fst <$> get_leaves (4 + fuel) 0 tree_xyz_fresh = Some (Ok {[1; 3]}).
Proof.
  split.
  - erewrite get_leaves_fuel; [| vm_compute; reflexivity]. reflexivity.
  - erewrite get_leaves_fuel; [| vm_compute; reflexivity]. reflexivity.
Qed.

(** [find] on the same tree: Z is found, the root is not. *)
Example find_xyz fuel :
  fst <$> find (2 + fuel) 0 3 tree_xyz = Some (Ok true) /\
  fst <$> find (4 + fuel) 0 0 tree_xyz = Some (Ok false).
Proof.
  split.
  - erewrite find_fuel; [| vm_compute; reflexivity]. reflexivity.
  - erewrite find_fuel; [| vm_compute; reflexivity]. reflexivity.
Qed.

Lemma reachable_xyz n : reachable tree_xyz 0 n -> n ∈ [1; 2; 3].
Proof.
  induction 1 as [l n Hl Hn | m l n _ IH Hl Hn].
  - vm_compute in Hl. injection Hl as <-.
    rewrite !elem_of_cons in *. tauto.
  - rewrite !elem_of_cons, elem_of_nil in IH.
    destruct IH as [-> | [-> | [-> | []]]]; vm_compute in Hl;
      injection Hl as <-; rewrite ?elem_of_cons, ?elem_of_nil in *; tauto.
Qed.

Lemma leaf_set_xyz : leaf_set tree_xyz 0 {[1; 3]}.
Proof.
  intros n. split.
  - intros Hn. assert (n = 1 \/ n = 3) as [-> | ->] by set_solver.
    + split; [| reflexivity]. apply (reach_child _ _ [1; 2]); [done | set_solver].
    + split; [| reflexivity].
      apply (reach_step _ _ 2 [3]); [| done | set_solver].
      apply (reach_child _ _ [1; 2]); [done | set_solver].
  - intros [Hr Hleaf]. apply reachable_xyz in Hr.
    repeat (apply elem_of_cons in Hr as [-> | Hr]);
      try (by apply not_elem_of_nil in Hr); try set_solver.
    vm_compute in Hleaf. discriminate.
Qed.

(** *** The traversals consume the lists they walk *)

Lemma shrinks_refl s : shrinks s s.
Proof. split; [done |]. intros r l Hr. eauto. Qed.

Lemma shrinks_trans s1 s2 s3 : shrinks s1 s2 -> shrinks s2 s3 -> shrinks s1 s3.
Proof.
  intros [F12 H12] [F23 H23]. split; [congruence |]. intros r l Hr.
  destruct (H12 r l Hr) as (l2 & Hr2 & Hlen2).
  destruct (H23 r l2 Hr2) as (l3 & Hr3 & Hlen3).
  exists l3. split; [done | lia].
Qed.

Lemma shrinks_set_list s r l l' :
  lists s !! r = Some l -> length l' <= length l -> shrinks s (set_list r l' s).
Proof.
  intros Hr Hlen. split; [done |].
  intros r0 l0 Hr0. simpl. destruct (decide (r = r0)) as [-> | Hne].
  - rewrite lookup_insert_eq. exists l'. split; [done |].
    by assert (l0 = l) as -> by congruence.
  - rewrite lookup_insert_ne; [| done]. eauto.
Qed.

Lemma shrinks_alloc s l : shrinks s (set_list (fresh (dom (lists s))) l s).
Proof.
  split; [done |].
  intros r0 l0 Hr0. simpl. rewrite lookup_insert_ne; [eauto |].
  intros <-. apply (is_fresh (dom (lists s))), elem_of_dom. eauto.
Qed.

Lemma shrinking_ret {A} (a : A) : shrinking (ret a).
Proof. intros s. apply shrinks_refl. Qed.

Lemma shrinking_raise {A} e : shrinking (raise (A := A) e).
Proof. intros s. apply shrinks_refl. Qed.

Lemma shrinking_bind {A B} (m : M objects A) (k : A -> M objects B) :
  shrinking m -> (forall a, shrinking (k a)) -> shrinking (bind m k).
Proof.
  intros Hm Hk s. unfold bind. specialize (Hm s).
  destruct (m s) as [[a | e] s1]; simpl in *; [| done].
  eapply shrinks_trans; [done | apply Hk].
Qed.

Lemma shrinking_truthy v : shrinking (truthy v).
Proof. intros s. apply shrinks_refl. Qed.

Lemma shrinking_eval_source src : shrinking (eval_source src).
Proof.
  intros s. destruct src as [r | l]; simpl;
    [apply shrinks_refl | apply shrinks_alloc].
Qed.

Lemma shrinking_getattr n : shrinking (getattr n).
Proof.
  intros s. simpl. unfold obj_getattr.
  destruct (children_field s !! n) as [[src | src] |];
    [apply shrinking_eval_source | apply shrinks_refl | apply shrinks_refl].
Qed.

Lemma shrinking_call v : shrinking (call v).
Proof.
  destruct v as [r | src]; simpl;
    [apply shrinking_raise | apply shrinking_eval_source].
Qed.

Lemma length_removelast_lt {A} (l : list A) x :
  last l = Some x -> length (removelast l) < length l.
Proof.
  intros [l' ->]%last_Some. rewrite removelast_last, length_app. simpl. lia.
Qed.

Lemma shrinking_pop v : shrinking (pop v).
Proof.
  intros s. destruct v as [r | src]; simpl; [| apply shrinks_refl].
  destruct (lists s !! r) as [l |] eqn:Hr; [| apply shrinks_refl].
  destruct (last l) as [x |] eqn:Hlast; [| apply shrinks_refl].
  eapply shrinks_set_list; [done |].
  apply length_removelast_lt in Hlast. lia.
Qed.

Create HintDb shrink.
#[local] Hint Resolve shrinking_ret shrinking_raise shrinking_truthy
  shrinking_getattr shrinking_call shrinking_pop : shrink.
#[local] Hint Extern 2 (shrinking (bind _ _)) =>
  apply shrinking_bind; [| intros ?] : shrink.
#[local] Hint Extern 2 (shrinking (if ?b then _ else _)) => destruct b : shrink.

Lemma shrinking_get_leaves_body stack top leaves :
  shrinking (get_leaves_body stack top leaves).
Proof. unfold get_leaves_body. auto 20 with shrink. Qed.

Lemma shrinking_find_body node stack top :
  shrinking (find_body node stack top).
Proof. unfold find_body. auto 20 with shrink. Qed.

Lemma get_leaves_loop_shrinks fuel stack leaves s res s' :
  get_leaves_loop fuel stack leaves s = Some (res, s') -> shrinks s s'.
Proof.
  revert stack leaves s. induction fuel as [| fuel IH];
    intros stack leaves s; simpl; [done |].
  destruct (last stack) as [top |];
    [| intros [= <- <-]; apply shrinks_refl].
  pose proof (shrinking_get_leaves_body stack top leaves s) as Hbody.
  destruct (get_leaves_body stack top leaves s)
    as [[[stack' leaves'] | e] s1]; simpl in Hbody.
  - intros Hloop%IH. by eapply shrinks_trans.
  - by intros [= <- <-].
Qed.

Lemma find_loop_shrinks fuel node stack s res s' :
  find_loop fuel node stack s = Some (res, s') -> shrinks s s'.
Proof.
  revert stack s. induction fuel as [| fuel IH]; intros stack s; simpl;
    [done |].
  destruct (last stack) as [top |];
    [| intros [= <- <-]; apply shrinks_refl].
  pose proof (shrinking_find_body node stack top s) as Hbody.
  destruct (find_body node stack top s) as [[[stack' |] | e] s1];
    simpl in Hbody.
  - intros Hloop%IH. by eapply shrinks_trans.
  - by intros [= <- <-].
  - by intros [= <- <-].
Qed.

(** After the first [pop] has returned, the rest of the turn and of the
    loop can only shorten lists further. *)
Lemma get_leaves_after_pop fuel stack top leaves s x s1 res s' :
  pop top s = (Ok x, s1) -> last stack = Some top ->
  get_leaves_loop fuel stack leaves s = Some (res, s') -> shrinks s1 s'.
Proof.
  intros Hpop Htop. destruct fuel as [| fuel]; simpl; [done |].
  rewrite Htop. unfold get_leaves_body. rewrite (bind_ok _ _ _ _ _ Hpop).
  match goal with
  | |- match ?m s1 with _ => _ end = _ -> _ =>
      assert (shrinking m) as Hrest by auto 20 with shrink;
      specialize (Hrest s1); destruct (m s1) as [[[stack' leaves'] | e] s2]
  end; simpl in Hrest.
  - intros Hloop%get_leaves_loop_shrinks. by eapply shrinks_trans.
  - by intros [= <- <-].
Qed.

Lemma find_after_pop fuel node stack top s x s1 res s' :
  pop top s = (Ok x, s1) -> last stack = Some top ->
  find_loop fuel node stack s = Some (res, s') -> shrinks s1 s'.
Proof.
  intros Hpop Htop. destruct fuel as [| fuel]; simpl; [done |].
  rewrite Htop. unfold find_body. rewrite (bind_ok _ _ _ _ _ Hpop).
  match goal with
  | |- match ?m s1 with _ => _ end = _ -> _ =>
      assert (shrinking m) as Hrest by auto 20 with shrink;
      specialize (Hrest s1); destruct (m s1) as [[[stack' |] | e] s2]
  end; simpl in Hrest.
  - intros Hloop%find_loop_shrinks. by eapply shrinks_trans.
  - by intros [= <- <-].
  - by intros [= <- <-].
Qed.

(** For every root that keeps a non-empty list of children in an
    attribute, a traversal that comes to an end - normally or by raising -
    leaves the root with fewer children than it had: the frames of the
    stack are the nodes' own lists, and the loop pops from them. *)
Lemma traversal_shortens_root_children (s : objects) root r l fuel :
  children_field s !! root = Some (Plain (Stored r)) ->
  lists s !! r = Some l -> 0 < length l ->
  children_of s root = Some l /\
  (forall res s', get_leaves fuel root s = Some (res, s') ->
     exists l', children_of s' root = Some l' /\ length l' < length l) /\
  (forall node res s', find fuel root node s = Some (res, s') ->
     exists l', children_of s' root = Some l' /\ length l' < length l).
Proof.
  intros Hroot Hr Hpos.
  assert (Hne : l <> []) by (intros ->; simpl in Hpos; lia).
  assert (Hkids : children_of s root = Some l).
  { unfold children_of. by rewrite Hroot. }
  split; [done |].
  destruct (last l) as [x |] eqn:Hlast; [| by apply last_None in Hlast].
  assert (Hpop : pop (VList r) s = (Ok x, set_list r (removelast l) s)).
  { simpl. by rewrite Hr, Hlast. }
  assert (Hshort : forall s', shrinks (set_list r (removelast l) s) s' ->
            exists l', children_of s' root = Some l' /\ length l' < length l).
  { intros s' [Hfield Hlists].
    destruct (Hlists r (removelast l)) as (l' & Hr' & Hlen);
      [simpl; by rewrite lookup_insert_eq |].
    exists l'. split.
    - unfold children_of. rewrite Hfield. simpl. by rewrite Hroot.
    - apply length_removelast_lt in Hlast. lia. }
  split.
  - intros res s'. unfold get_leaves. simpl. unfold obj_getattr.
    rewrite Hroot. simpl. intros Hloop. apply Hshort.
    by apply (get_leaves_after_pop fuel [VList r] (VList r) ∅ s x _ res).
  - intros node res s'. unfold find. simpl. unfold obj_getattr.
    rewrite Hroot. simpl. intros Hloop. apply Hshort.
    by apply (find_after_pop fuel node [VList r] (VList r) s x _ res).
Qed.

(** C6 fails on the code, at the tree of the specification kept in list
    attributes: before the call the root has the children X and Y and Y
    has the child Z; [get_leaves] returns and leaves both lists empty, and
    [find] for Z returns and leaves the root with X alone and Y with
    nothing. *)
Theorem traversal_empties_children fuel :
  children_of tree_xyz 0 = Some [1; 2] /\
  children_of tree_xyz 2 = Some [3] /\
  (exists s', get_leaves (4 + fuel) 0 tree_xyz = Some (Ok {[1; 3]}, s') /\
     children_of s' 0 = Some [] /\ children_of s' 2 = Some []) /\
  (exists s', find (2 + fuel) 0 3 tree_xyz = Some (Ok true, s') /\
     children_of s' 0 = Some [1] /\ children_of s' 2 = Some []).
Proof.
  split; [reflexivity |]. split; [reflexivity |]. split.
  - exists (set_list 10 [] (set_list 12 [] tree_xyz)).
    split; [| split; reflexivity].
    apply (get_leaves_fuel 4). vm_compute. reflexivity.
  - exists (set_list 10 [1] (set_list 12 [] tree_xyz)).
    split; [| split; reflexivity].
    apply (find_fuel 2). vm_compute. reflexivity.
Qed.

(** Run twice, the traversals do not even agree with themselves. *)
Lemma get_leaves_twice fuel s' :
  get_leaves (4 + fuel) 0 tree_xyz = Some (Ok {[1; 3]}, s') ->
  get_leaves (S fuel) 0 s' = Some (Raise IndexError, s').
Proof.
  erewrite get_leaves_fuel; [| vm_compute; reflexivity].
  intros [= <-]. eapply proj1, (empty_root_raises _ 0 10 fuel 0); reflexivity.
Qed.

Lemma reachable_diamond n : reachable diamond 0 n -> n ∈ [1; 2; 3; 4].
Proof.
  induction 1 as [l n Hl Hn | m l n _ IH Hl Hn].
  - vm_compute in Hl. injection Hl as <-.
    rewrite !elem_of_cons in *. tauto.
  - rewrite !elem_of_cons, elem_of_nil in IH.
    destruct IH as [-> | [-> | [-> | [-> | []]]]]; vm_compute in Hl;
      injection Hl as <-; rewrite ?elem_of_cons, ?elem_of_nil in *; tauto.
Qed.

Lemma leaf_set_diamond : leaf_set diamond 0 {[4]}.
Proof.
  intros n. split.
  - intros ->%elem_of_singleton. split; [| reflexivity].
    apply (reach_step _ _ 3 [4]); [| done | set_solver].
    apply (reach_step _ _ 1 [3]); [| done | set_solver].
    apply (reach_child _ _ [1; 2]); [done | set_solver].
  - intros [Hr Hleaf]. apply reachable_diamond in Hr.
    repeat (apply elem_of_cons in Hr as [-> | Hr]);
      try (by apply not_elem_of_nil in Hr); try set_solver;
      vm_compute in Hleaf; discriminate.
Qed.

(** C4, at the diamond: Z is reached twice, the first visit empties its
    children list, and the second visit takes it for a leaf; the result
    is {Z, W}, while the leaves below the root are {W}. *)
Theorem get_leaves_diamond fuel :
  fst <$> get_leaves (7 + fuel) 0 diamond = Some (Ok {[3; 4]}) /\
  children_of diamond 3 = Some [4] /\
  leaf_set diamond 0 {[4]} /\
  ~ leaf_set diamond 0 {[3; 4]}.
Proof.
  split.
  { erewrite get_leaves_fuel; [| vm_compute; reflexivity]. reflexivity. }
  split; [reflexivity |]. split; [apply leaf_set_diamond |].
  intros Hset. destruct (Hset 3) as [Hin _].
  destruct Hin as [_ Hleaf]; [set_solver |].
  vm_compute in Hleaf. discriminate.
Qed.

End TraversalProofs.

(** ** Traversal over the dependees of targets *)

Module DependeesProofs.
Import Base Graph Traversal GraphProofs TraversalProofs.

(** C7, at [T.add_dependencies([A, B], pred)] followed by a traversal from
    [A] along [dependees]: right after the call [T] is among the dependees
    of [A] and of [B]; the traversal returns {T} and leaves [A] without
    dependees, so the edge from [T] to [A] is no longer registered. *)
Theorem traversal_unregisters_dependee fuel :
  add_dependencies T [A; B] (Some false) three_targets = (Ok tt, after_add) /\
  registered after_add (A, T) /\ registered after_add (B, T) /\
  exists h', get_leaves (2 + fuel) A after_add = Some (Ok {[T]}, h') /\
    dependees <$> h' !! A = Some [] /\ ~ registered h' (A, T).
Proof.
  split; [vm_compute; reflexivity |].
  destruct (add_dependencies_spec T [A; B] (Some false) three_targets after_add)
    as [Hreg _]; [vm_compute; reflexivity |].
  split; [apply Hreg; set_solver |]. split; [apply Hreg; set_solver |].
  exists (<[A := mkTarget [] [] NOT_SELECTED [] []]> after_add).
  split; [apply (get_leaves_fuel 2); vm_compute; reflexivity |].
  split; [reflexivity |].
  intros (o & Ho & Hin). vm_compute in Ho. simplify_eq. simpl in Hin.
  by apply not_elem_of_nil in Hin.
Qed.

End DependeesProofs.


(** ** Names, extensions and directories *)

Module PathNamesProofs.
Import Path Staleness PathNames.

Lemma isabs_inv s : isabs s = true -> exists s', s = String "/"%char s'.
Proof.
  destruct s as [| c s]; [intros Hs; vm_compute in Hs; discriminate |].
  unfold isabs, startswith, sep. cbn -[Ascii.ascii_dec].
  destruct (Ascii.ascii_dec "/"%char c) as [<- |]; [eauto | done].
Qed.

Lemma isabs_slash s : isabs (String "/"%char s) = true.
Proof. unfold isabs, startswith, sep. simpl. by destruct s. Qed.

Lemma isabs_join a b : isabs a = true -> isabs (join a b) = true.
Proof.
  intros [a' ->]%isabs_inv. unfold join.
  destruct (startswith b sep) eqn:Hb; [exact Hb |].
  destruct (_ || _); apply isabs_slash.
Qed.

Lemma isabs_normpath p : isabs p = true -> isabs (normpath p) = true.
Proof.
  intros [p' ->]%isabs_inv. unfold normpath.
  change (String.eqb (String "/"%char p') "") with false. cbv iota.
  change (startswith (String "/"%char p') sep) with (isabs (String "/"%char p')).
  rewrite isabs_slash.
  destruct (_ && _); simpl; apply isabs_slash.
Qed.


Lemma Directory_absolute_path_isabs :
  forall d a, Directory_absolute_path d = Ok a -> isabs a = true.
Proof.
  fix IH 1. intros [path [p |]] a; simpl.
  - destruct (isabs path) eqn:Hp; [by intros [= <-] |].
    destruct (Directory_absolute_path p) as [b |] eqn:Hb; simpl; [| done].
    intros [= <-]. apply isabs_normpath, isabs_join. by apply (IH p).
  - destruct (isabs path) eqn:Hp; [by intros [= <-] | done].
Qed.

(** Whatever the parent chain and the name are, an absolute path that
    [Directory.absolute_path] or [File.absolute_path] returns starts with
    the separator. *)
Theorem absolute_path_is_absolute :
  (forall d a, Directory_absolute_path d = Ok a -> isabs a = true) /\
  (forall f a, File_absolute_path f = Ok a -> isabs a = true) /\
  (forall f a, parent f <> None -> File_str f = Ok a -> isabs a = true).
Proof.
  split; [apply Directory_absolute_path_isabs |].
  assert (Hfile : forall f a, File_absolute_path f = Ok a -> isabs a = true).
  { intros [n [p |]] a; unfold File_absolute_path; simpl; [| done].
    destruct (Directory_absolute_path p) as [b |] eqn:Hb; simpl; [| done].
    intros [= <-]. apply isabs_normpath, isabs_join.
    by apply (Directory_absolute_path_isabs p). }
  split; [exact Hfile |].
  intros [n [p |]] a Hp; [| done]. unfold File_str. simpl. apply Hfile.
Qed.

Lemma absolute_path_is_absolute_witness :
  isabs "/proj/src/main.c" = true.
Proof.
  destruct absolute_path_is_absolute as (_ & Hfile & _).
  apply (Hfile main_c). reflexivity.
Defined.

Section Constructor.
Variable expanduser : string -> string.

(** [Directory(path, parent)] raises exactly when the stored path is
    relative and there is no parent.  When it returns and the parent, if
    there is one, resolves, the new directory resolves too, to an absolute
    path; without a parent that path is the stored path itself. *)
Theorem Directory_init_resolves path parent :
  (Directory_init expanduser path parent = Raise AttributeError <->
     isabs (stored_path expanduser path) = false /\ parent = None) /\
  forall d, Directory_init expanduser path parent = Ok d ->
    (forall p, parent = Some p -> exists b, Directory_absolute_path p = Ok b) ->
    exists a, Directory_absolute_path d = Ok a /\ isabs a = true /\
      (parent = None -> a = stored_path expanduser path).
Proof.
  unfold Directory_init. split.
  - destruct (isabs _) eqn:Hp; simpl; [split; [done | by intros [? _]] |].
    case_bool_decide as Hpar; split; try done. by intros [_ ?].
  - intros d Hd Hparent.
    destruct (negb _ && _) eqn:Hc; [done |]. injection Hd as <-. simpl.
    destruct (isabs (stored_path expanduser path)) eqn:Hp; [by eauto |].
    destruct parent as [p |]; [| done].
    destruct (Hparent p eq_refl) as [b Hb]. rewrite Hb. simpl.
    eexists. split; [done |]. split; [| done].
    apply isabs_normpath, isabs_join.
    by apply (Directory_absolute_path_isabs p).
Qed.

End Constructor.

Lemma Directory_init_resolves_witness :
  exists a, Directory_absolute_path (mkDirectory "/home/dev/work" None) = Ok a
            /\ isabs a = true /\
            (@None Directory = None ->
             a = stored_path home_of_examples "~/proj/../work").
Proof.
  destruct (Directory_init_resolves home_of_examples "~/proj/../work" None)
    as [_ Hok].
  apply (Hok (mkDirectory "/home/dev/work" None)); [reflexivity |].
  intros p Hp. discriminate Hp.
Defined.



(** *** Slices and searches *)

Lemma append_cons c s t : String c s +:+ t = String c (s +:+ t).
Proof. reflexivity. Qed.

Lemma append_nil t : "" +:+ t = t.
Proof. reflexivity. Qed.

Lemma app_assoc_cons s c t : s +:+ String c t = (s +:+ String c "") +:+ t.
Proof.
  induction s as [| d s IH]; [done |]. rewrite !append_cons. by rewrite IH.
Qed.

Lemma length_app_cons s c :
  String.length (s +:+ String c "") = S (String.length s).
Proof.
  induction s as [| d s IH]; [done |]. rewrite append_cons. simpl.
  by rewrite IH.
Qed.

Lemma str_take_drop n s : str_take n s +:+ str_drop n s = s.
Proof.
  revert s. induction n as [| n IH]; intros [| c s]; simpl; try done.
  rewrite append_cons. by rewrite IH.
Qed.

Lemma str_drop_drop n m s : str_drop n (str_drop m s) = str_drop (m + n) s.
Proof.
  revert s. induction m as [| m IH]; intros s; simpl; [done |].
  destruct s as [| c s]; [by destruct n | apply IH].
Qed.

Lemma str_drop_app n s t :
  n <= String.length s -> str_drop n (s +:+ t) = str_drop n s +:+ t.
Proof.
  revert s. induction n as [| n IH]; intros [| c s]; simpl; try done; try lia.
  intros Hn. rewrite ?append_cons. simpl. apply IH. lia.
Qed.

Lemma str_take_length s t : str_take (String.length s) (s +:+ t) = s.
Proof.
  induction s as [| c s IH]; simpl; [by destruct t |].
  rewrite ?append_cons. simpl. by rewrite IH.
Qed.

Lemma str_drop_length s t : str_drop (String.length s) (s +:+ t) = t.
Proof.
  induction s as [| c s IH]; simpl; [by destruct t |].
  by rewrite ?append_cons.
Qed.

Lemma occurs_app c s t : occurs c (s +:+ t) = occurs c s || occurs c t.
Proof.
  induction s as [| d s IH]; [done |]. rewrite append_cons. simpl.
  by rewrite IH, orb_assoc.
Qed.

Lemma occurs_drop c n s : occurs c s = false -> occurs c (str_drop n s) = false.
Proof.
  revert s. induction n as [| n IH]; intros [| d s]; simpl; try done.
  intros [_ Hs]%orb_false_elim. by apply IH.
Qed.

Lemma last_index_None c s : last_index c s = None <-> occurs c s = false.
Proof.
  induction s as [| d s IH]; simpl; [done |].
  destruct (last_index c s) as [k |].
  - split; [done |]. intros [_ Hs]%orb_false_elim. by apply IH in Hs.
  - destruct (Ascii.eqb d c); simpl; [done |]. split; [intros _ | done].
    by apply IH.
Qed.

(** The last occurrence: the character is there, and not after. *)
Lemma last_index_Some c s k :
  last_index c s = Some k ->
  k < String.length s /\
  str_drop k s = String c (str_drop (S k) s) /\
  occurs c (str_drop (S k) s) = false.
Proof.
  revert k. induction s as [| d s IH]; intros k; simpl; [done |].
  destruct (last_index c s) as [k' |] eqn:Hs.
  - intros [= <-]. destruct (IH k' eq_refl) as (Hlt & Hdrop & Hno).
    split; [lia |]. by split.
  - destruct (Ascii.eqb d c) eqn:Hd; [| done]. intros [= <-].
    apply Ascii.eqb_eq in Hd as ->. split; [lia |].
    split; [by destruct s |].
    apply last_index_None in Hs. by destruct s.
Qed.

Lemma last_index_app_no c s t :
  occurs c t = false -> last_index c (s +:+ t) = last_index c s.
Proof.
  intros Ht. induction s as [| d s IH].
  - by apply last_index_None.
  - rewrite append_cons. simpl. by rewrite IH.
Qed.

Lemma last_index_app_at c a b :
  occurs c b = false ->
  last_index c (a +:+ String c b) = Some (String.length a).
Proof.
  intros Hb. induction a as [| d a IH].
  - rewrite append_nil. simpl. apply last_index_None in Hb.
    by rewrite Hb, Ascii.eqb_refl.
  - rewrite append_cons. simpl. by rewrite IH.
Qed.


Lemma append_empty_r s : s +:+ "" = s.
Proof.
  induction s as [| c s IH]; [done |]. rewrite append_cons. by rewrite IH.
Qed.

Lemma str_drop_0 s : str_drop 0 s = s.
Proof. by destruct s. Qed.

(** *** [basename] and [splitext] *)

Lemma basename_no_sep p : occurs "/" (basename p) = false.
Proof.
  unfold basename, rfind.
  destruct (last_index "/" p) as [k |] eqn:Hk.
  - replace (Z.to_nat (Z.of_nat k + 1)) with (S k) by lia.
    by apply last_index_Some in Hk as (_ & _ & Hno).
  - simpl. rewrite ?str_drop_0. by apply last_index_None.
Qed.

Lemma basename_app p t :
  occurs "/" t = false -> basename (p +:+ t) = basename p +:+ t.
Proof.
  intros Ht. unfold basename, rfind. rewrite (last_index_app_no _ p t Ht).
  destruct (last_index "/" p) as [k |] eqn:Hk.
  - replace (Z.to_nat (Z.of_nat k + 1)) with (S k) by lia.
    apply last_index_Some in Hk as (Hlt & _ & _).
    apply str_drop_app. lia.
  - simpl. by rewrite ?str_drop_0.
Qed.

Lemma splitext_join p : (splitext p).1 +:+ (splitext p).2 = p.
Proof.
  unfold splitext. destruct (_ && _); simpl.
  - apply str_take_drop.
  - apply append_empty_r.
Qed.

Lemma splitext_shape p :
  (splitext p).2 = "" \/
  exists e, (splitext p).2 = String "."%char e /\ occurs "." e = false.
Proof.
  unfold splitext, rfind.
  destruct (last_index "." p) as [k |] eqn:Hk.
  - destruct (_ && _); simpl; [| by left]. right.
    rewrite Nat2Z.id.
    apply last_index_Some in Hk as (_ & Hdrop & Hno). eauto.
  - destruct (last_index "/" p) as [j |]; [| by left].
    assert ((-1 >? Z.of_nat j)%Z = false) as ->; [| by left].
    rewrite Z.gtb_ltb. apply Z.ltb_ge. lia.
Qed.

(** [File.split]: the two parts put together give the last component of
    the name, which holds no separator; the extension is empty or starts
    with its only dot. *)
Theorem File_split_parts f :
  File_basename f +:+ File_extension f = basename (name f) /\
  occurs "/" (basename (name f)) = false /\
  (File_extension f = "" \/
   exists e, File_extension f = String "."%char e /\ occurs "." e = false).
Proof.
  unfold File_basename, File_extension, File_split.
  split; [apply splitext_join |].
  split; [apply basename_no_sep | apply splitext_shape].
Qed.

Lemma substring_one pre c t :
  String.substring (String.length pre) 1 (pre +:+ String c t) = String c "".
Proof.
  induction pre as [| d pre IH]; [simpl; by destruct t |].
  rewrite append_cons. simpl. apply IH.
Qed.

(** The loop that skips leading dots finds a name exactly when the
    characters it scans are not all dots. *)
Lemma name_before_dot_scan pre body t :
  name_before_dot (pre +:+ body +:+ t) (String.length pre) (String.length body)
  = has_name body.
Proof.
  revert pre. induction body as [| c body IH]; intros pre; [done |].
  rewrite append_cons. simpl.
  rewrite substring_one. simpl.
  destruct (Ascii.eqb c ".") eqn:Hc; simpl; [| done].
  rewrite app_assoc_cons, <- (length_app_cons pre c). apply IH.
Qed.

(** [File(name, extension=ext)]: when [ext] is not empty and holds neither
    dot nor separator, and the last component of [name] is not made of
    dots only, the file has the extension [.ext] - with the dot the
    constructor was not given - and the base name of [name]. *)
Theorem File_init_extension n par ext :
  ext <> "" -> occurs "." ext = false -> occurs "/" ext = false ->
  has_name (basename n) = true ->
  File_extension (File_init n par (Some ext)) = "." +:+ ext /\
  File_basename (File_init n par (Some ext)) = basename n.
Proof.
  intros Hext Hdot Hsep Hname.
  unfold File_extension, File_basename, File_split, File_init.
  destruct (String.eqb ext "") eqn:He; [by apply String.eqb_eq in He |].
  simpl name. change ("." +:+ ext) with (String "."%char ext).
  rewrite basename_app by (simpl; by rewrite Hsep).
  set (b := basename n) in *.
  assert (Hb : occurs "/" b = false) by apply basename_no_sep.
  unfold splitext, rfind.
  assert (Hnosep : last_index "/" (b +:+ String "."%char ext) = None).
  { apply last_index_None. rewrite occurs_app. simpl. by rewrite Hb, Hsep. }
  rewrite Hnosep.
  rewrite (last_index_app_at "." b ext Hdot).
  assert ((Z.of_nat (String.length b) >? -1)%Z = true) as ->.
  { rewrite Z.gtb_ltb. apply Z.ltb_lt. lia. }
  replace (Z.to_nat (-1 + 1)) with (String.length "") by done.
  replace (Z.to_nat (Z.of_nat (String.length b) - (-1 + 1)))
    with (String.length b) by lia.
  rewrite Nat2Z.id.
  assert (Hscan : name_before_dot (b +:+ String "."%char ext)
                    (String.length "") (String.length b) = true).
  { etrans; [exact (name_before_dot_scan "" b (String "."%char ext)) | done]. }
  rewrite !Hscan. simpl.
  by rewrite str_take_length, str_drop_length.
Qed.

Lemma File_init_extension_witness :
  File_extension (File_init "src/main" None (Some "c")) = "." +:+ "c" /\
  File_basename (File_init "src/main" None (Some "c")) = basename "src/main".
Proof.
  apply (File_init_extension "src/main" None "c");
    [discriminate | reflexivity | reflexivity | reflexivity].
Defined.

End PathNamesProofs.

(** ** More on the file helpers and on staleness *)

Module StalenessMore.
Import Path Base Staleness StalenessProofs MoreExamples.

Section Helpers.
Variable fs : filesystem.

(** What [os.stat] raises is one of the errors [os.path.exists] turns
    into [False]. *)
Lemma os_stat_raises p e :
  os_stat fs p = Raise e ->
  (e = FileNotFoundError \/ e = NotADirectoryError \/ e = PermissionError \/
   (exists errno, e = OSError errno) \/ e = ValueError) /\
  (fs !! p = None -> e = FileNotFoundError).
Proof.
  unfold os_stat. destruct (fs !! p) as [[t | [| | errno |]] |];
    intros [= <-]; (split; [| done]); eauto 10.
Qed.

(** The modification time of a file that is not there cannot be read:
    the error of [os.stat] comes out. *)
Lemma absent_mtime f :
  absent fs f ->
  exists p e, File_absolute_path f = Ok p /\ os_stat fs p = Raise e /\
    File_mtime fs f = Raise e.
Proof.
  intros (p & Hp & Hno). unfold File_mtime, os_getmtime. rewrite Hp. simpl.
  destruct (os_stat fs p) as [t | e] eqn:Hs.
  - apply os_stat_ok in Hs. by destruct (Hno t).
  - by eauto.
Qed.

Lemma check_files_exist_stops pre f rest :
  Forall (present fs) pre -> absent fs f ->
  check_files_exist fs (pre ++ f :: rest) = Ok false.
Proof.
  intros Hpre Hf. induction Hpre as [| g pre Hg _ IH]; simpl.
  - by rewrite (proj2 (exists_absent fs f) Hf).
  - by rewrite (proj2 (exists_present fs g) Hg).
Qed.

(** [check_files_exist] answers for every list of files whose paths can
    be formed, and says [True] exactly when every file exists - so on the
    empty list.  It stops at the first missing file: what comes after it
    is not even resolved. *)
Theorem check_files_exist_answer :
  check_files_exist fs [] = Ok true /\
  (forall files, forallb resolvable files = true ->
     exists b, check_files_exist fs files = Ok b /\
       (b = true <-> Forall (present fs) files)) /\
  (forall pre f rest, Forall (present fs) pre -> absent fs f ->
     check_files_exist fs (pre ++ f :: rest) = Ok false).
Proof.
  split; [done |]. split; [| apply check_files_exist_stops].
  intros files Hres.
  destruct (check_files_exist_spec fs files Hres) as (b & Hb & Ht & _).
  eauto.
Qed.

Lemma least_loop_missing pre f rest res e :
  Forall (present fs) pre -> File_mtime fs f = Raise e ->
  least_loop fs (pre ++ f :: rest) res = Raise e.
Proof.
  intros Hpre Hf. revert res.
  induction Hpre as [| g pre Hg _ IH]; intros res; simpl.
  - by rewrite Hf.
  - destruct (present_mtime fs g Hg) as [t ->]. simpl.
    destruct res as [r |]; [destruct (Qlt_bool t r) |]; apply IH.
Qed.

Lemma most_loop_missing pre f rest res e :
  Forall (present fs) pre -> File_mtime fs f = Raise e ->
  most_loop fs (pre ++ f :: rest) res = Raise e.
Proof.
  intros Hpre Hf. revert res.
  induction Hpre as [| g pre Hg _ IH]; intros res; simpl.
  - by rewrite Hf.
  - destruct (present_mtime fs g Hg) as [t ->]. simpl.
    destruct res as [r |]; [destruct (Qlt_bool r t) |]; apply IH.
Qed.

(** Unlike on the empty list, on a list with a file that is not there
    both aggregation helpers raise: the modification time of the first
    such file cannot be read, and the error [os.stat] raises for its path
    comes out of both - [FileNotFoundError] when nothing is at the path,
    and otherwise another [OSError] or a [ValueError], the errors that
    [File.exists] answers [False] to. *)
Theorem mtime_of_missing_file pre f rest :
  Forall (present fs) pre -> absent fs f ->
  exists p e,
    File_absolute_path f = Ok p /\ os_stat fs p = Raise e /\
    get_least_mtime fs (pre ++ f :: rest) = Raise e /\
    get_most_mtime fs (pre ++ f :: rest) = Raise e /\
    (e = FileNotFoundError \/ e = NotADirectoryError \/ e = PermissionError \/
     (exists errno, e = OSError errno) \/ e = ValueError) /\
    (fs !! p = None -> e = FileNotFoundError).
Proof.
  intros Hpre Hf. destruct (absent_mtime f Hf) as (p & e & Hp & Hs & Hm).
  exists p, e. split; [done |]. split; [done |].
  unfold get_least_mtime, get_most_mtime.
  rewrite (least_loop_missing pre f rest None e Hpre Hm).
  rewrite (most_loop_missing pre f rest None e Hpre Hm).
  split; [done |]. split; [done |]. by apply os_stat_raises.
Qed.

(** On a non-empty list of existing files [get_least_mtime] returns the
    least of their modification times. *)
Theorem get_least_mtime_is_least files :
  0 < length files -> Forall (present fs) files ->
  exists r m, get_least_mtime fs files = Ok r /\ (r == m)%Q /\
    (exists f, f ∈ files /\ File_mtime fs f = Ok m) /\
    (forall f t, f ∈ files -> File_mtime fs f = Ok t -> (m <= t)%Q).
Proof.
  intros Hlen Hall. apply get_least_mtime_min; [| done].
  intros ->. simpl in Hlen. lia.
Qed.

(** On a non-empty list of existing files [get_most_mtime] returns the
    greatest of their modification times. *)
Theorem get_most_mtime_is_greatest files :
  0 < length files -> Forall (present fs) files ->
  exists r m, get_most_mtime fs files = Ok r /\ (r == m)%Q /\
    (exists f, f ∈ files /\ File_mtime fs f = Ok m) /\
    (forall f t, f ∈ files -> File_mtime fs f = Ok t -> (t <= m)%Q).
Proof.
  intros Hlen Hall. apply get_most_mtime_max; [| done].
  intros ->. simpl in Hlen. lia.
Qed.

(** What [is_rebuild_needed] comes down to once nothing is empty or
    missing: one comparison of the two aggregates. *)
Lemma is_rebuild_needed_compare {Pred} (h : heap Pred) self o :
  h !! self = Some o ->
  0 < length (input_files o) -> 0 < length (output_files o) ->
  Forall (present fs) (input_files o) ->
  Forall (present fs) (output_files o) ->
  exists ri mi ro mo,
    (ri == mi)%Q /\ least_read fs (input_files o) mi /\
    (ro == mo)%Q /\ most_read fs (output_files o) mo /\
    is_rebuild_needed fs self h = (Ok (Qle_bool ro ri), h).
Proof.
  intros Hself Hli Hlo Hpi Hpo.
  assert (Hni : input_files o <> []) by (intros E; rewrite E in Hli; simpl in Hli; lia).
  assert (Hno : output_files o <> []) by (intros E; rewrite E in Hlo; simpl in Hlo; lia).
  destruct (get_least_mtime_min fs _ Hni Hpi) as (ri & mi & Hrun_i & Hri & Hmi).
  destruct (get_most_mtime_max fs _ Hno Hpo) as (ro & mo & Hrun_o & Hro & Hmo).
  exists ri, mi, ro, mo. do 4 (split; [done |]).
  assert (Hres : forall files, Forall (present fs) files ->
            check_files_exist fs files = Ok true).
  { intros files Hp.
    destruct (check_files_exist_spec fs files) as (b & Hb & Ht & _).
    - apply forallb_forall. intros f Hf. apply (present_resolvable fs).
      rewrite Forall_forall in Hp. by apply Hp, list_elem_of_In.
    - rewrite Hb. f_equal. by apply Ht. }
  unfold is_rebuild_needed.
  rewrite (bind_ok _ _ _ _ _ (run_get_target h self o Hself)).
  erewrite bind_ok; last first.
  { apply run_empty_or_missing. rewrite (run_output_files_exist _ _ _ o Hself).
    by rewrite (Hres _ Hpo). }
  assert (is_nil (output_files o) = false) as ->.
  { destruct (output_files o); [done | done]. }
  simpl.
  erewrite bind_ok; last first.
  { apply run_empty_or_missing. rewrite (run_input_files_exist _ _ _ o Hself).
    by rewrite (Hres _ Hpi). }
  assert (is_nil (input_files o) = false) as ->.
  { destruct (input_files o); [done | done]. }
  simpl.
  erewrite bind_ok; last first.
  { rewrite (run_input_files_most_mtime _ _ _ o Hself). by rewrite Hrun_i. }
  erewrite bind_ok; last first.
  { rewrite (run_output_files_least_mtime _ _ _ o Hself). by rewrite Hrun_o. }
  by destruct (Qle_bool ro ri).
Qed.

(** With all inputs and outputs there, a target is reported up to date as
    soon as ONE input is strictly older than ONE output, and only then:
    an input newer than every output does not make it stale while another
    input is older than some output. *)
Theorem up_to_date_iff_some_input_older {Pred} (h : heap Pred) self o :
  h !! self = Some o ->
  0 < length (input_files o) -> 0 < length (output_files o) ->
  Forall (present fs) (input_files o) ->
  Forall (present fs) (output_files o) ->
  exists b, is_rebuild_needed fs self h = (Ok b, h) /\
    (b = false <->
     exists i out ti tout,
       i ∈ input_files o /\ out ∈ output_files o /\
       File_mtime fs i = Ok ti /\ File_mtime fs out = Ok tout /\
       (ti < tout)%Q).
Proof.
  intros Hself Hli Hlo Hpi Hpo.
  destruct (is_rebuild_needed_compare h self o Hself Hli Hlo Hpi Hpo)
    as (ri & mi & ro & mo & Hri & Hmi & Hro & Hmo & Hrun).
  exists (Qle_bool ro ri). split; [done |].
  destruct Hmi as [(i & Hi & Hti) Hlow]. destruct Hmo as [(out & Hout & Hto) Hup].
  split.
  - intros Hcmp. exists i, out, mi, mo. do 4 (split; [done |]).
    apply Qnot_le_lt. intros Hle.
    assert (Qle_bool ro ri = true); [| congruence].
    apply Qle_bool_iff. by apply (Qle_eq_compat mo ro mi ri).
  - intros (i' & out' & ti & tout & Hi' & Hout' & Hti' & Hto' & Hlt).
    destruct (Qle_bool ro ri) eqn:Hcmp; [| done]. exfalso.
    apply Qle_bool_iff in Hcmp.
    assert (Hle : (mo <= mi)%Q) by by apply (Qle_eq_compat ro mo ri mi).
    apply (Qlt_not_le ti tout Hlt).
    apply Qle_trans with mo; [by eapply Hup |].
    apply Qle_trans with mi; [done | by eapply Hlow].
Qed.

End Helpers.

Lemma check_files_exist_answer_witness :
  (exists b, check_files_exist fs_fresh [main_c; util_c] = Ok b /\
     (b = true <-> Forall (present fs_fresh) [main_c; util_c])) /\
  check_files_exist fs_unbuilt ([main_c] ++ app_bin :: [orphan]) = Ok false.
Proof.
  destruct (check_files_exist_answer fs_fresh) as (_ & Hall & _).
  destruct (check_files_exist_answer fs_unbuilt) as (_ & _ & Hstop).
  split.
  - apply (Hall [main_c; util_c]). reflexivity.
  - apply (Hstop [main_c] app_bin [orphan]).
    + constructor; [file_is_there | constructor].
    + file_is_not_there.
Defined.

(** A file under a regular file: [os.stat] raises [NotADirectoryError],
    [File.exists] is [False], and that error comes out of the helpers. *)
Lemma mtime_of_missing_file_witness :
  exists p e,
    File_absolute_path under_app = Ok p /\ os_stat fs_under_a_file p = Raise e /\
    get_least_mtime fs_under_a_file ([main_c] ++ under_app :: [])
    = Raise e /\
    get_most_mtime fs_under_a_file ([main_c] ++ under_app :: [])
    = Raise e /\
    (e = FileNotFoundError \/ e = NotADirectoryError \/ e = PermissionError \/
     (exists errno, e = OSError errno) \/ e = ValueError) /\
    (fs_under_a_file !! p = None -> e = FileNotFoundError).
Proof.
  apply (mtime_of_missing_file fs_under_a_file [main_c] under_app []).
  - constructor; [file_is_there | constructor].
  - file_is_not_there.
Defined.

Example mtime_under_a_file :
  File_exists fs_under_a_file under_app = Ok false /\
  get_least_mtime fs_under_a_file [main_c; under_app]
  = Raise NotADirectoryError /\
  get_most_mtime fs_unbuilt [main_c; app_bin] = Raise FileNotFoundError.
Proof. repeat split; vm_compute; reflexivity. Qed.

Lemma get_least_mtime_is_least_witness :
  exists r m, get_least_mtime fs_fresh [main_c; util_c] = Ok r /\ (r == m)%Q /\
    (exists f, f ∈ [main_c; util_c] /\ File_mtime fs_fresh f = Ok m) /\
    (forall f t, f ∈ [main_c; util_c] -> File_mtime fs_fresh f = Ok t ->
                 (m <= t)%Q).
Proof.
  apply (get_least_mtime_is_least fs_fresh [main_c; util_c]).
  - simpl. lia.
  - constructor; [file_is_there |]. constructor; [file_is_there | constructor].
Defined.

Lemma get_most_mtime_is_greatest_witness :
  exists r m, get_most_mtime fs_fresh [main_c; util_c] = Ok r /\ (r == m)%Q /\
    (exists f, f ∈ [main_c; util_c] /\ File_mtime fs_fresh f = Ok m) /\
    (forall f t, f ∈ [main_c; util_c] -> File_mtime fs_fresh f = Ok t ->
                 (t <= m)%Q).
Proof.
  apply (get_most_mtime_is_greatest fs_fresh [main_c; util_c]).
  - simpl. lia.
  - constructor; [file_is_there |]. constructor; [file_is_there | constructor].
Defined.

(** One input older than the output, one newer: reported up to date. *)
Lemma up_to_date_iff_some_input_older_witness :
  exists b,
    is_rebuild_needed fs_mixed 1 {[1 := app_target]}
    = (Ok b, {[1 := app_target]}) /\
    (b = false <->
     exists i out ti tout,
       i ∈ input_files app_target /\ out ∈ output_files app_target /\
       File_mtime fs_mixed i = Ok ti /\ File_mtime fs_mixed out = Ok tout /\
       (ti < tout)%Q).
Proof.
  apply (up_to_date_iff_some_input_older fs_mixed {[1 := app_target]} 1
           app_target).
  - reflexivity.
  - simpl. lia.
  - simpl. lia.
  - constructor; [file_is_there |]. constructor; [file_is_there | constructor].
  - constructor; [file_is_there | constructor].
Defined.

Example up_to_date_with_a_newer_input :
  is_rebuild_needed fs_mixed 1 {[1 := app_target]}
  = (Ok false, {[1 := app_target]}).
Proof. vm_compute. reflexivity. Qed.

End StalenessMore.

(** ** The exact effect of building edges *)

Module GraphMore.
Import Path Base Staleness Graph GraphProofs GraphEffect.

Section Effect.
Context {Pred : Type}.
Implicit Types (h : heap Pred) (o : TargetBase Pred).

Lemma times_cons_eq a ts : times a (a :: ts) = S (times a ts).
Proof. unfold times. by rewrite filter_cons_True by done. Qed.

Lemma times_cons_ne a b ts : b <> a -> times a (b :: ts) = times a ts.
Proof. intros Hne. unfold times. by rewrite filter_cons_False by done. Qed.

Lemma with_dependee_0 d o : with_dependee d 0 o = o.
Proof. destruct o. unfold with_dependee, set_dependees. simpl. by rewrite app_nil_r. Qed.

Lemma with_dependee_add d n m o :
  with_dependee d n (with_dependee d m o) = with_dependee d (m + n) o.
Proof.
  unfold with_dependee, set_dependees. simpl.
  by rewrite <- app_assoc, replicate_add.
Qed.

Lemma Dependency_init_run a d sel h o :
  h !! a = Some o ->
  Dependency_init a d sel h
  = (Ok (mkDependency a sel), <[a := with_dependee d 1 o]> h).
Proof.
  intros Ha. unfold Dependency_init, bind, get_target, put_target, ret.
  by rewrite Ha.
Qed.

Lemma Dependency_init_miss a d sel h :
  h !! a = None -> Dependency_init a d sel h = (Raise AttributeError, h).
Proof.
  intros Ha. unfold Dependency_init, bind, get_target. by rewrite Ha.
Qed.

(** Looking up after one more edge to [a0] has been built. *)
Lemma lookup_after_edge a0 d o0 ts h a :
  h !! a0 = Some o0 ->
  with_dependee d (times a ts) <$> (<[a0 := with_dependee d 1 o0]> h) !! a
  = with_dependee d (times a (a0 :: ts)) <$> h !! a.
Proof.
  intros H0. destruct (decide (a0 = a)) as [-> | Hne].
  - rewrite lookup_insert_eq, H0, times_cons_eq. simpl.
    by rewrite with_dependee_add.
  - rewrite lookup_insert_ne by done. by rewrite times_cons_ne.
Qed.

(** [from_list] on targets only: one edge per target, in order, and every
    target has the dependee once more for each time it is listed. *)
Lemma from_list_effect ts d sel h :
  (forall a, a ∈ ts -> is_Some (h !! a)) ->
  exists h',
    from_list ts d sel h = (Ok ((fun a => mkDependency a sel) <$> ts), h') /\
    forall a, h' !! a = with_dependee d (times a ts) <$> h !! a.
Proof.
  unfold from_list. revert h. induction ts as [| a0 ts IH]; intros h Hts.
  - exists h. split; [done |]. intros a. unfold times. simpl.
    destruct (h !! a) as [o |]; simpl; [| done]. by rewrite with_dependee_0.
  - destruct (Hts a0) as [o0 H0]; [by left |].
    destruct (IH (<[a0 := with_dependee d 1 o0]> h)) as (h' & Hrun & Hlook).
    { intros a Ha. destruct (decide (a0 = a)) as [-> | Hne].
      - rewrite lookup_insert_eq. eauto.
      - rewrite lookup_insert_ne by done. apply Hts. by right. }
    exists h'. split.
    + simpl. rewrite (bind_ok _ _ _ _ _ (Dependency_init_run a0 d sel h o0 H0)).
      by rewrite (bind_ok _ _ _ _ _ Hrun).
    + intros a. rewrite Hlook. by apply lookup_after_edge.
Qed.

(** [from_list] with something that is not a target in the list: it
    raises there, and the targets listed before keep their new dependee. *)
Lemma from_list_raises pre bad rest d sel h :
  (forall a, a ∈ pre -> is_Some (h !! a)) -> h !! bad = None ->
  exists h',
    from_list (pre ++ bad :: rest) d sel h = (Raise AttributeError, h') /\
    forall a, h' !! a = with_dependee d (times a pre) <$> h !! a.
Proof.
  unfold from_list. revert h. induction pre as [| a0 pre IH]; intros h Hpre Hbad.
  - exists h. split.
    + simpl. by rewrite (bind_raise _ _ _ _ _ (Dependency_init_miss bad d sel h Hbad)).
    + intros a. unfold times. simpl.
      destruct (h !! a) as [o |]; simpl; [| done]. by rewrite with_dependee_0.
  - destruct (Hpre a0) as [o0 H0]; [by left |].
    destruct (IH (<[a0 := with_dependee d 1 o0]> h)) as (h' & Hrun & Hlook).
    { intros a Ha. destruct (decide (a0 = a)) as [-> | Hne].
      - rewrite lookup_insert_eq. eauto.
      - rewrite lookup_insert_ne by done. apply Hpre. by right. }
    { rewrite lookup_insert_ne; [done |]. intros <-. congruence. }
    exists h'. split.
    + simpl. rewrite (bind_ok _ _ _ _ _ (Dependency_init_run a0 d sel h o0 H0)).
      by rewrite (bind_raise _ _ _ _ _ Hrun).
    + intros a. rewrite Hlook. by apply lookup_after_edge.
Qed.

(** [add_dependencies] returns whenever the target and everything listed
    are targets, and then the heap is the old one where every listed
    target has [self] once more in its [dependees] for each time it is
    listed (nothing is deduplicated), and where the edge list of [self]
    has one more slot; no target appears, disappears or changes
    otherwise. *)
Theorem add_dependencies_effect self ts sel h :
  is_Some (h !! self) -> (forall a, a ∈ ts -> is_Some (h !! a)) ->
  exists h' o,
    h !! self = Some o /\
    add_dependencies self ts sel h = (Ok tt, h') /\
    h' !! self
    = Some (set_dependencies (with_dependee self (times self ts) o)
              (_dependencies o
               ++ [EdgeList ((fun a => mkDependency a sel) <$> ts)])) /\
    forall a, a <> self ->
      h' !! a = with_dependee self (times a ts) <$> h !! a.
Proof.
  intros [o Hself] Hts.
  destruct (from_list_effect ts self sel h Hts) as (h1 & Hrun & Hlook).
  assert (H1 : h1 !! self = Some (with_dependee self (times self ts) o)).
  { by rewrite Hlook, Hself. }
  eexists _, o. split; [done |]. split; [| split].
  - unfold add_dependencies.
    rewrite (bind_ok _ _ _ _ _ (StalenessProofs.run_get_target h self o Hself)).
    rewrite (bind_ok _ _ _ _ _ Hrun).
    rewrite (bind_ok _ _ _ _ _ (StalenessProofs.run_get_target h1 self _ H1)).
    reflexivity.
  - by rewrite lookup_insert_eq.
  - intros a Hne. rewrite lookup_insert_ne by done. apply Hlook.
Qed.

(** There is no rollback: when something listed is not a target,
    [add_dependencies] raises, the edge list of [self] is as before, and
    yet the targets listed before the culprit have [self] among their
    dependees. *)
Theorem add_dependencies_partial self pre bad rest sel h :
  is_Some (h !! self) -> (forall a, a ∈ pre -> is_Some (h !! a)) ->
  h !! bad = None ->
  exists h',
    add_dependencies self (pre ++ bad :: rest) sel h
    = (Raise AttributeError, h') /\
    (forall a, h' !! a = with_dependee self (times a pre) <$> h !! a) /\
    (_dependencies <$> h' !! self = _dependencies <$> h !! self) /\
    (forall a, a ∈ pre -> exists o', h' !! a = Some o' /\ self ∈ dependees o').
Proof.
  intros [o Hself] Hpre Hbad.
  destruct (from_list_raises pre bad rest self sel h Hpre Hbad)
    as (h1 & Hrun & Hlook).
  exists h1. split; [| split; [done | split]].
  - unfold add_dependencies.
    rewrite (bind_ok _ _ _ _ _ (StalenessProofs.run_get_target h self o Hself)).
    by rewrite (bind_raise _ _ _ _ _ Hrun).
  - rewrite Hlook, Hself. done.
  - intros a Ha. destruct (Hpre a Ha) as [oa Hoa]. rewrite Hlook, Hoa. simpl.
    eexists. split; [done |]. simpl.
    apply elem_of_app. right. apply elem_of_replicate. split; [done |].
    unfold times. intros Hz. apply length_zero_iff_nil in Hz.
    assert (Hin : a ∈ filter (fun t => t = a) pre) by by apply list_elem_of_filter.
    rewrite Hz in Hin. by apply not_elem_of_nil in Hin.
Qed.

(** Once built, an edge stays registered through every sequence of
    operations of targets and edges: the dependee is among the
    [dependees] of the dependency right after [Dependency(...)] or
    [add_dependencies] has returned, and after anything that
    [TargetBase()], [Dependency(...)], [add_dependencies], an assignment to
    [state], the two projections, [is_rebuild_needed] and
    [check_output_files] do afterwards. *)
Theorem dependee_stays_registered fs :
  (forall a d sel h e h' ops,
     Dependency_init a d sel h = (Ok e, h') ->
     registered (exec_all fs ops h') (a, d)) /\
  (forall self ts sel h h' ops a,
     add_dependencies self ts sel h = (Ok tt, h') -> a ∈ ts ->
     registered (exec_all fs ops h') (a, self)).
Proof.
  split.
  - intros a d sel h e h' ops Hinit.
    destruct (Dependency_init_registers a d sel h e h' Hinit) as (Ht & _ & _).
    rewrite <- Ht.
    by apply (edge_registered_from_construction fs a d sel h e h' ops).
  - intros self ts sel h h' ops a Hadd Ha.
    by apply (add_dependencies_registered fs self ts sel h h' ops a).
Qed.

End Effect.

Lemma three_targets_known a : a ∈ [T; A; B] -> is_Some (three_targets !! a).
Proof.
  rewrite !elem_of_cons, elem_of_nil.
  intros [-> | [-> | [-> | []]]]; vm_compute; eauto.
Qed.

(** [T.add_dependencies([A, A, B])]: [A] gets [T] twice. *)
Lemma add_dependencies_effect_witness :
  exists h' o,
    three_targets !! T = Some o /\
    add_dependencies T [A; A; B] (Some false) three_targets = (Ok tt, h') /\
    h' !! T
    = Some (set_dependencies (with_dependee T (times T [A; A; B]) o)
              (_dependencies o
               ++ [EdgeList ((fun a => mkDependency a (Some false))
                             <$> [A; A; B])])) /\
    forall a, a <> T ->
      h' !! a = with_dependee T (times a [A; A; B]) <$> three_targets !! a.
Proof.
  apply (add_dependencies_effect T [A; A; B] (Some false) three_targets).
  - apply three_targets_known. by left.
  - intros a Ha. apply three_targets_known.
    rewrite !elem_of_cons, ?elem_of_nil in Ha |- *. tauto.
Defined.

Example add_dependencies_twice_the_same :
  dependees <$> (add_dependencies T [A; A; B] (Some false) three_targets).2 !! A
  = Some [T; T].
Proof. vm_compute. reflexivity. Qed.

(** [T.add_dependencies([A, x, B])] where [x] is not a target. *)
Lemma add_dependencies_partial_witness :
  exists h',
    add_dependencies T ([A] ++ 7 :: [B]) (Some false) three_targets
    = (Raise AttributeError, h') /\
    (forall a, h' !! a = with_dependee T (times a [A]) <$> three_targets !! a) /\
    (_dependencies <$> h' !! T = _dependencies <$> three_targets !! T) /\
    (forall a, a ∈ [A] -> exists o', h' !! a = Some o' /\ T ∈ dependees o').
Proof.
  apply (add_dependencies_partial T [A] 7 [B] (Some false) three_targets).
  - apply three_targets_known. by left.
  - intros a Ha. apply three_targets_known.
    apply list_elem_of_singleton in Ha as ->. right. by left.
  - vm_compute. reflexivity.
Defined.

Lemma dependee_stays_registered_witness :
  registered
    (exec_all fs_fresh
       [SetState A DONE; AddDependencies B [A] None; IsRebuildNeeded A]
       after_add)
    (A, T).
Proof.
  destruct (dependee_stays_registered (Pred := bool) fs_fresh) as [_ Hadd].
  apply (Hadd T [A; B] (Some false) three_targets after_add).
  - vm_compute. reflexivity.
  - by left.
Defined.

End GraphMore.

(** ** The traversals behind a property: what they compute *)

Module ComputedProofs.
Import Traversal Trees TraversalProofs Computed.

Lemma kids_field s n l :
  kids s n = Some l <-> children_field s !! n = Some (Plain (Fresh l)).
Proof.
  unfold kids. destruct (children_field s !! n) as [[[r | l'] | src] |];
    split; intros Hx; by simplify_eq.
Qed.

Lemma kids_same s s' n :
  children_field s' = children_field s -> kids s' n = kids s n.
Proof. intros Hf. unfold kids. by rewrite Hf. Qed.

Lemma kids_children_of s n l : kids s n = Some l -> children_of s n = Some l.
Proof. intros Hk%kids_field. unfold children_of. by rewrite Hk. Qed.

Lemma fresh_ref_new (s : objects) r l :
  lists s !! r = Some l -> r <> fresh (dom (lists s)).
Proof.
  intros Hr ->. apply (is_fresh (dom (lists s))), elem_of_dom. eauto.
Qed.

(** One turn of the loop of [get_leaves], on a top frame [f' ++ [x]]. *)
Lemma get_leaves_turn fuel B L (st : objects) r f' x l :
  lists st !! r = Some (f' ++ [x]) -> kids st x = Some l ->
  let st1 := set_list r f' st in
  let r' := fresh (dom (lists st1)) in
  let st2 := set_list r' l st1 in
  let stack1 := if bool_decide (f' = []) then B else B ++ [VList r] in
  get_leaves_loop (S fuel) (B ++ [VList r]) L st
  = if bool_decide (l = [])
    then get_leaves_loop fuel stack1 (L ∪ {[x]}) st2
    else get_leaves_loop fuel (stack1 ++ [VList r']) L st2.
Proof.
  intros Hr Hx%kids_field. simpl. rewrite last_snoc.
  unfold get_leaves_body, bind, truthy, ret. simpl.
  rewrite Hr, last_snoc, removelast_last. simpl.
  rewrite lookup_insert_eq. unfold obj_getattr. simpl. rewrite Hx. simpl.
  rewrite lookup_insert_eq.
  destruct f' as [| y f']; destruct l as [| c l]; simpl;
    rewrite ?removelast_last; reflexivity.
Qed.


(** One turn of the loop of [find]. *)
Lemma find_turn fuel node B (st : objects) r f' x l :
  lists st !! r = Some (f' ++ [x]) -> kids st x = Some l ->
  let st1 := set_list r f' st in
  let r' := fresh (dom (lists st1)) in
  let st2 := set_list r' l st1 in
  let stack1 := if bool_decide (f' = []) then B else B ++ [VList r] in
  find_loop (S fuel) node (B ++ [VList r]) st
  = if bool_decide (x = node) then Some (Ok true, st1)
    else if bool_decide (l = [])
    then find_loop fuel node stack1 st2
    else find_loop fuel node (stack1 ++ [VList r']) st2.
Proof.
  intros Hr Hx%kids_field.
  assert (Hpop : pop (VList r) st = (Ok x, set_list r f' st)).
  { simpl. by rewrite Hr, last_snoc, removelast_last. }
  cbn [find_loop]. rewrite last_snoc. unfold find_body.
  rewrite (bind_ok _ _ _ _ _ Hpop).
  destruct (bool_decide (x = node)); [done |].
  unfold bind, truthy, ret. simpl.
  rewrite lookup_insert_eq. unfold obj_getattr. simpl. rewrite Hx. simpl.
  rewrite lookup_insert_eq.
  destruct f' as [| y f']; destruct l as [| c l]; simpl;
    rewrite ?removelast_last; reflexivity.
Qed.

Lemma untouched_but_refl r st : untouched_but r st st.
Proof. by split. Qed.

Lemma untouched_but_pop_alloc r st f' l st3 :
  let st1 := set_list r f' st in
  let r' := fresh (dom (lists st1)) in
  let st2 := set_list r' l st1 in
  is_Some (lists st !! r) ->
  untouched_but r' st2 st3 ->
  untouched_but r st st3 /\ lists st3 !! r = Some f'.
Proof.
  intros st1 r' st2 [f Hr] [Hcf Hkeep].
  assert (H1 : lists st1 !! r = Some f') by (simpl; by rewrite lookup_insert_eq).
  assert (Hnew : r <> r') by by eapply fresh_ref_new.
  split; [split |].
  - by rewrite Hcf.
  - intros r0 l0 Hne H0.
    assert (H01 : lists st1 !! r0 = Some l0).
    { simpl. by rewrite lookup_insert_ne. }
    apply Hkeep; [by eapply fresh_ref_new |].
    simpl. rewrite lookup_insert_ne; [done |].
    intros E. symmetry in E. revert E. by eapply fresh_ref_new.
  - apply Hkeep; [done |]. simpl. rewrite lookup_insert_ne; [done |].
    intros E. by symmetry in E.
Qed.

Section Graded.
Variables (s : objects) (rank : node -> nat).
Hypothesis Hgraded : graded s rank.

Lemma leaves_below_nil : leaves_below s [] ∅.
Proof.
  intros m. split; [set_solver |].
  intros (x & Hx & _). by apply not_elem_of_nil in Hx.
Qed.

Lemma leaves_below_leaf x : kids s x = Some [] -> leaves_below s [x] {[x]}.
Proof.
  intros Hx m. split.
  - intros ->%elem_of_singleton. exists x. split; [by left |].
    split; [constructor | done].
  - intros (y & ->%list_elem_of_singleton & Hbelow & _).
    inversion Hbelow as [| ? l c ? Hk Hc _]; subst; [by apply elem_of_singleton |].
    rewrite Hx in Hk. injection Hk as <-. by apply not_elem_of_nil in Hc.
Qed.

Lemma leaves_below_node x l X :
  kids s x = Some l -> l <> [] -> leaves_below s l X -> leaves_below s [x] X.
Proof.
  intros Hx Hl HX m. rewrite (HX m). split.
  - intros (c & Hc & Hbelow & Hleaf). exists x. split; [by left |].
    split; [by eapply below_child | done].
  - intros (y & ->%list_elem_of_singleton & Hbelow & Hleaf).
    inversion Hbelow as [| ? l' c ? Hk Hc Hcm]; subst.
    + rewrite Hx in Hleaf. by injection Hleaf as ->.
    + rewrite Hx in Hk. injection Hk as <-. eauto.
Qed.

Lemma leaves_below_snoc f' x X' Xx :
  leaves_below s f' X' -> leaves_below s [x] Xx ->
  leaves_below s (f' ++ [x]) (Xx ∪ X').
Proof.
  intros H' Hx m. rewrite elem_of_union, (H' m), (Hx m). split.
  - intros [(y & Hy & Hrest) | (y & Hy & Hrest)]; exists y;
      (split; [apply elem_of_app; by eauto | done]).
  - intros (y & [Hy | Hy]%elem_of_app & Hrest); [right | left]; eauto.
Qed.

(** Emptying a frame: the loop takes some turns, adds the leaves at or
    below the nodes of the frame, and comes back to the stack below. *)
Lemma frame_leaves k : forall f,
  (forall x, x ∈ f -> is_Some (kids s x) /\ rank x < k) -> f <> [] ->
  forall B L st r,
    children_field st = children_field s -> lists st !! r = Some f ->
    exists n st' X,
      (forall fuel, get_leaves_loop (n + fuel) (B ++ [VList r]) L st
                    = get_leaves_loop fuel B (L ∪ X) st') /\
      leaves_below s f X /\ untouched_but r st st'.
Proof.
  induction k as [| k IHk]; intros f Hf Hne.
  { destruct f as [| x f]; [done |]. destruct (Hf x) as [_ Hx]; [by left | lia]. }
  revert Hf Hne. induction f as [| x f' IHf] using rev_ind; [done |].
  intros Hf _ B L st r Hcf Hr.
  destruct (Hf x) as [[l Hx] Hrank]; [apply elem_of_app; right; by left |].
  assert (Hxst : kids st x = Some l) by by rewrite (kids_same s st).
  pose proof (fun fuel => get_leaves_turn fuel B L st r f' x l Hr Hxst) as Hturn.
  cbv zeta in Hturn.
  set (st1 := set_list r f' st) in *.
  set (r' := fresh (dom (lists st1))) in *.
  set (st2 := set_list r' l st1) in *.
  set (stack1 := if bool_decide (f' = []) then B else B ++ [VList r]) in *.
  (* what is left of the frame once [x] is done *)
  assert (Hrest : forall L' st',
    children_field st' = children_field s -> lists st' !! r = Some f' ->
    exists n' st'' X',
      (forall fuel, get_leaves_loop (n' + fuel) stack1 L' st'
                    = get_leaves_loop fuel B (L' ∪ X') st'') /\
      leaves_below s f' X' /\ untouched_but r st' st'').
  { intros L' st' Hcf' Hr'. subst stack1.
    destruct (decide (f' = [])) as [Hf' | Hf'];
      [rewrite bool_decide_eq_true_2 by done
      | rewrite bool_decide_eq_false_2 by done].
    - exists 0, st', ∅. split; [| split].
      + intros fuel. by rewrite union_empty_r_L.
      + rewrite Hf'. apply leaves_below_nil.
      + apply untouched_but_refl.
    - apply IHf; [| done | done | done].
      intros y Hy. apply Hf, elem_of_app. by left. }
  assert (Hcf2 : children_field st2 = children_field s) by done.
  destruct l as [| c l].
  - (* [x] is a leaf *)
    destruct (untouched_but_pop_alloc r st f' [] st2) as [Hkeep2 Hr2];
      [by eauto | apply untouched_but_refl |].
    destruct (Hrest (L ∪ {[x]}) st2 Hcf2 Hr2) as (n' & st'' & X' & Hrun & HX' & Hkeep).
    exists (S n'), st'', ({[x]} ∪ X'). split; [| split].
    + intros fuel. change (S n' + fuel) with (S (n' + fuel)).
      rewrite Hturn, bool_decide_eq_true_2 by done.
      rewrite Hrun. by rewrite (assoc_L (∪)).
    + apply leaves_below_snoc; [done | by apply leaves_below_leaf].
    + destruct Hkeep2 as [Hc2 Hk2], Hkeep as [Hc Hk].
      split; [congruence |]. intros r0 l0 Hne H0. by apply Hk, Hk2.
  - (* [x] has children: its frame goes on top *)
    destruct (IHk (c :: l)) with (B := stack1) (L := L) (st := st2) (r := r')
      as (n1 & st3 & X1 & Hrun1 & HX1 & Hkeep1); [| done | done | |].
    { intros y Hy. destruct (Hgraded x (c :: l) y Hx Hy) as [Hky Hry].
      split; [done | lia]. }
    { simpl. by rewrite lookup_insert_eq. }
    destruct (untouched_but_pop_alloc r st f' (c :: l) st3) as [Hkeep3 Hr3];
      [by eauto | done |].
    destruct Hkeep1 as [Hc1 _].
    assert (Hcf3 : children_field st3 = children_field s) by congruence.
    destruct (Hrest (L ∪ X1) st3 Hcf3 Hr3) as (n' & st'' & X' & Hrun & HX' & Hkeep).
    exists (S (n1 + n')), st'', (X1 ∪ X'). split; [| split].
    + intros fuel. change (S (n1 + n') + fuel) with (S (n1 + n' + fuel)).
      rewrite Hturn, bool_decide_eq_false_2 by done.
      replace (n1 + n' + fuel) with (n1 + (n' + fuel)) by lia.
      rewrite Hrun1, Hrun. by rewrite (assoc_L (∪)).
    + apply leaves_below_snoc; [done |].
      by apply (leaves_below_node x (c :: l)).
    + destruct Hkeep3 as [Hc3 Hk3], Hkeep as [Hc Hk].
      split; [congruence |]. intros r0 l0 Hne H0. by apply Hk, Hk3.
Qed.

Lemma found_below_snoc f' x node :
  found_below s (f' ++ [x]) node <-> found_below s f' node \/ below s x node.
Proof.
  unfold found_below. split.
  - intros (y & [Hy | ->%list_elem_of_singleton]%elem_of_app & Hb); eauto.
  - intros [(y & Hy & Hb) | Hb].
    + exists y. split; [apply elem_of_app; by left | done].
    + exists x. split; [apply elem_of_app; right; by left | done].
Qed.

Lemma below_inv x l node :
  kids s x = Some l -> below s x node -> x = node \/ found_below s l node.
Proof.
  intros Hx Hb. inversion Hb as [| ? l' c ? Hk Hc Hcn]; subst; [by left |].
  right. rewrite Hx in Hk. injection Hk as <-. by exists c.
Qed.

(** Emptying a frame while looking for [node]: either the loop returns
    [True], and the node is at or below a node of the frame, or it comes
    back to the stack below, and the node is not. *)
Lemma frame_find node k : forall f,
  (forall x, x ∈ f -> is_Some (kids s x) /\ rank x < k) -> f <> [] ->
  forall B st r,
    children_field st = children_field s -> lists st !! r = Some f ->
    (exists n st',
       (forall fuel, find_loop (S n + fuel) node (B ++ [VList r]) st
                     = Some (Ok true, st')) /\
       found_below s f node /\ untouched_but r st st') \/
    (exists n st',
       (forall fuel, find_loop (n + fuel) node (B ++ [VList r]) st
                     = find_loop fuel node B st') /\
       ~ found_below s f node /\ untouched_but r st st').
Proof.
  induction k as [| k IHk]; intros f Hf Hne.
  { destruct f as [| x f]; [done |]. destruct (Hf x) as [_ Hx]; [by left | lia]. }
  revert Hf Hne. induction f as [| x f' IHf] using rev_ind; [done |].
  intros Hf _ B st r Hcf Hr.
  destruct (Hf x) as [[l Hx] Hrank]; [apply elem_of_app; right; by left |].
  assert (Hxst : kids st x = Some l) by by rewrite (kids_same s st).
  pose proof (fun fuel => find_turn fuel node B st r f' x l Hr Hxst) as Hturn.
  cbv zeta in Hturn.
  set (st1 := set_list r f' st) in *.
  set (r' := fresh (dom (lists st1))) in *.
  set (st2 := set_list r' l st1) in *.
  set (stack1 := if bool_decide (f' = []) then B else B ++ [VList r]) in *.
  destruct (decide (x = node)) as [Hxn | Hxn].
  { (* the node is [x] itself *)
    left. exists 0, st1. split; [| split].
    - intros fuel. change (1 + fuel) with (S fuel).
      by rewrite Hturn, bool_decide_eq_true_2 by done.
    - apply found_below_snoc. right. rewrite Hxn. constructor.
    - split; [done |]. intros r0 l0 Hne H0. simpl.
      by rewrite lookup_insert_ne. }
  assert (Hrest : forall st',
    children_field st' = children_field s -> lists st' !! r = Some f' ->
    (exists n' st'',
       (forall fuel, find_loop (S n' + fuel) node stack1 st'
                     = Some (Ok true, st'')) /\
       found_below s f' node /\ untouched_but r st' st'') \/
    (exists n' st'',
       (forall fuel, find_loop (n' + fuel) node stack1 st'
                     = find_loop fuel node B st'') /\
       ~ found_below s f' node /\ untouched_but r st' st'')).
  { intros st' Hcf' Hr'. subst stack1.
    destruct (decide (f' = [])) as [Hf' | Hf'];
      [rewrite bool_decide_eq_true_2 by done
      | rewrite bool_decide_eq_false_2 by done].
    - right. exists 0, st'. split; [done |]. split; [| apply untouched_but_refl].
      rewrite Hf'. intros (y & Hy & _). by apply not_elem_of_nil in Hy.
    - apply IHf; [| done | done | done].
      intros y Hy. apply Hf, elem_of_app. by left. }
  assert (Hcf2 : children_field st2 = children_field s) by done.
  assert (Hjoin : forall st3 n1,
    untouched_but r st st3 -> lists st3 !! r = Some f' ->
    children_field st3 = children_field s ->
    ~ found_below s l node ->
    (forall fuel, find_loop (S n1 + fuel) node (B ++ [VList r]) st
                  = find_loop fuel node stack1 st3) ->
    (exists n st',
       (forall fuel, find_loop (S n + fuel) node (B ++ [VList r]) st
                     = Some (Ok true, st')) /\
       found_below s (f' ++ [x]) node /\ untouched_but r st st') \/
    (exists n st',
       (forall fuel, find_loop (n + fuel) node (B ++ [VList r]) st
                     = find_loop fuel node B st') /\
       ~ found_below s (f' ++ [x]) node /\ untouched_but r st st')).
  { intros st3 n1 [Hc3 Hk3] Hr3 Hcf3 Hnot Hrun3.
    destruct (Hrest st3 Hcf3 Hr3)
      as [(n' & st'' & Hrun & Hfound & [Hc Hk])
         | (n' & st'' & Hrun & Hnone & [Hc Hk])].
    - left. exists (n1 + S n'), st''. split; [| split].
      + intros fuel.
        replace (S (n1 + S n') + fuel) with (S n1 + (S n' + fuel)) by lia.
        by rewrite Hrun3, Hrun.
      + apply found_below_snoc. by left.
      + split; [congruence |]. intros r0 l0 Hne H0. by apply Hk, Hk3.
    - right. exists (S n1 + n'), st''. split; [| split].
      + intros fuel.
        replace (S n1 + n' + fuel) with (S n1 + (n' + fuel)) by lia.
        by rewrite Hrun3, Hrun.
      + intros [Hin | Hb]%found_below_snoc; [done |].
        by destruct (below_inv x l node Hx Hb).
      + split; [congruence |]. intros r0 l0 Hne H0. by apply Hk, Hk3. }
  destruct l as [| c l].
  - (* [x] is a leaf *)
    destruct (untouched_but_pop_alloc r st f' [] st2) as [Hkeep2 Hr2];
      [by eauto | apply untouched_but_refl |].
    apply (Hjoin st2 0); try done.
    + intros (y & Hy & _). by apply not_elem_of_nil in Hy.
    + intros fuel. change (1 + fuel) with (S fuel).
      by rewrite Hturn, bool_decide_eq_false_2, bool_decide_eq_true_2 by done.
  - (* [x] has children: its frame goes on top *)
    destruct (IHk (c :: l)) with (B := stack1) (st := st2) (r := r')
      as [(n1 & st3 & Hrun1 & Hfound1 & Hkeep1)
         | (n1 & st3 & Hrun1 & Hnone1 & Hkeep1)]; [| done | done | | |].
    { intros y Hy. destruct (Hgraded x (c :: l) y Hx Hy) as [Hky Hry].
      split; [done | lia]. }
    { simpl. by rewrite lookup_insert_eq. }
    + destruct (untouched_but_pop_alloc r st f' (c :: l) st3) as [Hkeep3 _];
        [by eauto | done |].
      left. exists (S n1), st3. split; [| split; [| done]].
      * intros fuel. change (S (S n1) + fuel) with (S (S n1 + fuel)).
        rewrite Hturn, !bool_decide_eq_false_2 by done. apply Hrun1.
      * apply found_below_snoc. right.
        destruct Hfound1 as (y & Hy & Hb). by eapply below_child.
    + destruct (untouched_but_pop_alloc r st f' (c :: l) st3) as [Hkeep3 Hr3];
        [by eauto | done |].
      destruct Hkeep1 as [Hc1 _].
      apply (Hjoin st3 n1); try done; [congruence |].
      intros fuel. change (S n1 + fuel) with (S (n1 + fuel)).
      rewrite Hturn, !bool_decide_eq_false_2 by done. apply Hrun1.
Qed.

Lemma below_kids x m :
  is_Some (kids s x) -> below s x m -> is_Some (kids s m).
Proof.
  intros Hx Hb. induction Hb as [| x l c m Hk Hc _ IH]; [done |].
  apply IH. by destruct (Hgraded x l c Hk Hc).
Qed.

Lemma below_reachable root x m :
  reachable s root x -> is_Some (kids s x) -> below s x m -> reachable s root m.
Proof.
  intros Hr Hx Hb. induction Hb as [| x l c m Hk Hc _ IH]; [done |].
  apply IH.
  - eapply reach_step; [done | by apply kids_children_of | done].
  - by destruct (Hgraded x l c Hk Hc).
Qed.

(** Below the root: what [reachable] says in terms of the first frame. *)
Lemma reachable_found_below root l0 m :
  kids s root = Some l0 -> reachable s root m <-> found_below s l0 m.
Proof.
  intros Hroot. split.
  - induction 1 as [l m Hl Hm | x l m _ IH Hl Hm].
    + rewrite (kids_children_of s root l0 Hroot) in Hl. injection Hl as <-.
      exists m. split; [done | constructor].
    + destruct IH as (y & Hy & Hb). exists y. split; [done |].
      assert (Hkx : is_Some (kids s x)).
      { eapply below_kids; [| done]. by destruct (Hgraded root l0 y Hroot Hy). }
      destruct Hkx as [lx Hkx].
      rewrite (kids_children_of s x lx Hkx) in Hl. injection Hl as <-.
      clear Hy. induction Hb as [x | x l c n Hk Hc Hb IH].
      * eapply below_child; [done | done | constructor].
      * eapply below_child; [done | done |]. by apply IH.
  - intros (y & Hy & Hb).
    eapply below_reachable; [| by destruct (Hgraded root l0 y Hroot Hy) | done].
    eapply reach_child; [by apply kids_children_of | done].
Qed.

Lemma untouched_from_first_frame l0 st' :
  untouched_but (fresh (dom (lists s))) (set_list (fresh (dom (lists s))) l0 s) st' ->
  untouched s st'.
Proof.
  intros [Hcf Hkeep]. split; [done |]. intros r l Hr.
  apply Hkeep; [by eapply fresh_ref_new |].
  simpl. rewrite lookup_insert_ne; [done |].
  intros E. symmetry in E. revert E. by eapply fresh_ref_new.
Qed.

End Graded.

(** On objects whose children attribute is a property that builds a new
    list on every access, over a graph without cycles (a tree or a DAG),
    and from a root that has children: [get_leaves] returns, with enough
    fuel and then with any more, exactly the set of the childless nodes
    reachable from the root, and leaves every attribute and every list
    object that was there as it was. *)
Theorem get_leaves_behind_property (s : objects) rank root l0 :
  graded s rank -> kids s root = Some l0 -> 0 < length l0 ->
  exists fuel X s',
    (forall k, get_leaves (fuel + k) root s = Some (Ok X, s')) /\
    leaf_set s root X /\ untouched s s'.
Proof.
  intros Hgraded Hroot Hlen.
  set (r0 := fresh (dom (lists s))). set (st0 := set_list r0 l0 s).
  destruct (frame_leaves s rank Hgraded (rank root) l0) with
    (B := @nil value) (L := (∅ : gset node)) (st := st0) (r := r0)
    as (n & s' & X & Hrun & HX & Hkeep).
  - intros x Hx. apply (Hgraded root l0 x Hroot Hx).
  - intros ->. simpl in Hlen. lia.
  - done.
  - simpl. by rewrite lookup_insert_eq.
  - exists (n + 1), X, s'. split; [| split].
    + intros k. unfold get_leaves. simpl. unfold obj_getattr.
      apply kids_field in Hroot as ->. simpl.
      replace (n + 1 + k) with (n + S k) by lia.
      fold r0. fold st0. change [VList r0] with ([] ++ [VList r0]).
      rewrite Hrun. simpl. by rewrite union_empty_l_L.
    + intros m. rewrite (HX m), (reachable_found_below s rank Hgraded root l0 m Hroot).
      unfold found_below, is_leaf. split.
      * intros (x & Hx & Hb & Hleaf). split; [by eauto |].
        by apply kids_children_of.
      * intros [(x & Hx & Hb) Hleaf]. exists x. split; [done |]. split; [done |].
        destruct (below_kids s rank Hgraded x m) as [lm Hm]; [| done |].
        { by destruct (Hgraded root l0 x Hroot Hx). }
        rewrite (kids_children_of s m lm Hm) in Hleaf. by injection Hleaf as ->.
    + by apply (untouched_from_first_frame s l0).
Qed.

(** Under the same conditions [find] returns, and returns [True] exactly
    for the nodes reachable from the root - so never for the root itself
    - and leaves every attribute and every list object that was there as
    it was. *)
Theorem find_behind_property (s : objects) rank root l0 node :
  graded s rank -> kids s root = Some l0 -> 0 < length l0 ->
  exists fuel b s',
    (forall k, find (fuel + k) root node s = Some (Ok b, s')) /\
    (b = true <-> reachable s root node) /\
    ~ reachable s root root /\ untouched s s'.
Proof.
  intros Hgraded Hroot Hlen.
  set (r0 := fresh (dom (lists s))). set (st0 := set_list r0 l0 s).
  assert (Hstart : forall fuel, find fuel root node s
                                = find_loop fuel node ([] ++ [VList r0]) st0).
  { intros fuel. unfold find. simpl. unfold obj_getattr.
    by apply kids_field in Hroot as ->. }
  assert (Hnoloop : ~ reachable s root root).
  { rewrite (reachable_found_below s rank Hgraded root l0 root Hroot).
    intros (y & Hy & Hb).
    assert (Hle : forall a b, below s a b -> rank b <= rank a).
    { induction 1 as [| a l c b Hk Hc _ IH]; [lia |].
      destruct (Hgraded a l c Hk Hc). lia. }
    apply Hle in Hb. destruct (Hgraded root l0 y Hroot Hy). lia. }
  destruct (frame_find s rank Hgraded node (rank root) l0) with
    (B := @nil value) (st := st0) (r := r0)
    as [(n & s' & Hrun & Hfound & Hkeep) | (n & s' & Hrun & Hnone & Hkeep)].
  - intros x Hx. apply (Hgraded root l0 x Hroot Hx).
  - intros ->. simpl in Hlen. lia.
  - done.
  - simpl. by rewrite lookup_insert_eq.
  - exists (S n), true, s'. split; [| split; [| split]].
    + intros k. by rewrite Hstart, Hrun.
    + split; [intros _ | done].
      by apply (reachable_found_below s rank Hgraded root l0 node Hroot).
    + done.
    + by apply (untouched_from_first_frame s l0).
  - exists (n + 1), false, s'. split; [| split; [| split]].
    + intros k. rewrite Hstart.
      replace (n + 1 + k) with (n + S k) by lia. by rewrite Hrun.
    + split; [done |]. intros Hr. exfalso. apply Hnone.
      by apply (reachable_found_below s rank Hgraded root l0 node Hroot).
    + done.
    + by apply (untouched_from_first_frame s l0).
Qed.

Lemma graded_diamond : graded diamond_fresh diamond_rank.
Proof.
  intros n l c Hk%kids_field Hc. unfold diamond_fresh in Hk. simpl in Hk.
  repeat (apply lookup_insert_Some in Hk as [[<- Hk] | [_ Hk]]);
    try (by rewrite lookup_empty in Hk);
    injection Hk as <-;
    rewrite ?elem_of_cons, ?elem_of_nil in Hc;
    repeat (destruct Hc as [-> | Hc]); try done;
    (split; [vm_compute; eauto | vm_compute; lia]).
Qed.

(** The diamond behind properties: the leaf W alone, as it should be. *)
Lemma get_leaves_behind_property_witness :
  exists fuel X s',
    (forall k, get_leaves (fuel + k) 0 diamond_fresh = Some (Ok X, s')) /\
    leaf_set diamond_fresh 0 X /\ untouched diamond_fresh s'.
Proof.
  apply (get_leaves_behind_property diamond_fresh diamond_rank 0 [1; 2]).
  - apply graded_diamond.
  - reflexivity.
  - simpl. lia.
Defined.

Lemma find_behind_property_witness :
  exists fuel b s',
    (forall k, find (fuel + k) 0 4 diamond_fresh = Some (Ok b, s')) /\
    (b = true <-> reachable diamond_fresh 0 4) /\
    ~ reachable diamond_fresh 0 0 /\ untouched diamond_fresh s'.
Proof.
  apply (find_behind_property diamond_fresh diamond_rank 0 [1; 2] 4).
  - apply graded_diamond.
  - reflexivity.
  - simpl. lia.
Defined.

Example leaves_of_diamond_behind_property fuel :
  fst <$> get_leaves (7 + fuel) 0 diamond_fresh = Some (Ok {[4]}).
Proof. erewrite get_leaves_fuel; [| vm_compute; reflexivity]. reflexivity. Qed.

End ComputedProofs.

(** ** The traversals over list attributes: they always end *)

Module ConsumedProofs.
Import Traversal Trees TraversalProofs Consumed.

Lemma entries_lookup (s : objects) r l :
  lists s !! r = Some l ->
  entries s = length l + map_fold (fun _ l acc => length l + acc) 0
                           (delete r (lists s)).
Proof.
  intros Hr. unfold entries.
  apply (map_fold_delete_L (fun _ (l : list node) acc => length l + acc));
    [| done].
  intros; lia.
Qed.

Lemma entries_set_list (s : objects) r l l' :
  lists s !! r = Some l ->
  entries (set_list r l' s) + length l = entries s + length l'.
Proof.
  intros Hr. rewrite (entries_lookup s r l Hr).
  rewrite (entries_lookup (set_list r l' s) r l')
    by (simpl; by rewrite lookup_insert_eq).
  simpl. rewrite delete_insert_eq. lia.
Qed.

(** The turn after the [pop]: on such a store nothing else is written. *)
Lemma stored_getattr (s : objects) n :
  stored_only s -> (getattr n s).2 = s.
Proof.
  intros Hs. simpl. unfold obj_getattr.
  destruct (children_field s !! n) as [fld |] eqn:Hn; [| done].
  by destruct (Hs n fld Hn) as [r [-> | ->]].
Qed.


Lemma stored_only_same (s s' : objects) :
  children_field s' = children_field s -> stored_only s -> stored_only s'.
Proof. intros Hcf Hs n fld. rewrite Hcf. apply Hs. Qed.

(** A [pop] that returns takes one entry away. *)
Lemma pop_entries (s : objects) top x s1 :
  pop top s = (Ok x, s1) ->
  entries s1 < entries s /\ children_field s1 = children_field s.
Proof.
  destruct top as [r | src]; simpl; [| done].
  destruct (lists s !! r) as [l |] eqn:Hr; [| done].
  destruct (last l) as [y |] eqn:Hlast; [| done]. intros [= <- <-].
  split; [| done].
  pose proof (entries_set_list s r l (removelast l) Hr) as He.
  apply length_removelast_lt in Hlast. lia.
Qed.

(** What follows the [pop] in a turn writes nothing. *)
Lemma children_read (s : objects) x :
  stored_only s ->
  forall v s1, getattr x s = (Ok v, s1) ->
    s1 = s /\
    ((if callable v then call v else ret v) s).2 = s.
Proof.
  intros Hs v s1. simpl. unfold obj_getattr.
  destruct (children_field s !! x) as [fld |] eqn:Hx; [| done].
  destruct (Hs x fld Hx) as [r [-> | ->]]; simpl; by intros [= <- <-].
Qed.

Lemma get_leaves_body_entries (s : objects) stack top L stack' L' s' :
  stored_only s ->
  get_leaves_body stack top L s = (Ok (stack', L'), s') ->
  entries s' < entries s /\ children_field s' = children_field s.
Proof.
  intros Hs. unfold get_leaves_body. unfold bind at 1.
  destruct (pop top s) as [[x | e] s1] eqn:Hpop; [| done].
  apply pop_entries in Hpop as [Hlt Hcf].
  assert (Hs1 : stored_only s1) by by apply (stored_only_same s).
  unfold bind at 1, truthy at 1. unfold bind at 1.
  destruct (getattr x s1) as [[v | e] s2] eqn:Hget; [| done].
  destruct (children_read s1 x Hs1 v s2 Hget) as [-> Hcall].
  unfold bind at 1.
  destruct ((if callable v then call v else ret v) s1) as [[w | e] s3];
    [| done].
  simpl in Hcall. subst s3. unfold bind, truthy, ret.
  destruct (negb _); by intros [= <- <- <-].
Qed.

Lemma find_body_entries (s : objects) node stack top stack' s' :
  stored_only s ->
  find_body node stack top s = (Ok (Some stack'), s') ->
  entries s' < entries s /\ children_field s' = children_field s.
Proof.
  intros Hs. unfold find_body. unfold bind at 1.
  destruct (pop top s) as [[x | e] s1] eqn:Hpop; [| done].
  apply pop_entries in Hpop as [Hlt Hcf].
  assert (Hs1 : stored_only s1) by by apply (stored_only_same s).
  destruct (bool_decide (x = node)); [done |].
  unfold bind at 1, truthy at 1. unfold bind at 1.
  destruct (getattr x s1) as [[v | e] s2] eqn:Hget; [| done].
  destruct (children_read s1 x Hs1 v s2 Hget) as [-> Hcall].
  unfold bind at 1.
  destruct ((if callable v then call v else ret v) s1) as [[w | e] s3];
    [| done].
  simpl in Hcall. subst s3. unfold bind, truthy, ret.
  simpl. destruct (obj_truth w s1); by intros [= <- <-].
Qed.

Lemma get_leaves_loop_ends n : forall (s : objects) stack L,
  stored_only s -> entries s <= n ->
  exists res s', get_leaves_loop (S n) stack L s = Some (res, s').
Proof.
  induction n as [| n IH]; intros s stack L Hs Hn; simpl.
  - destruct (last stack) as [top |]; [| by eauto].
    destruct (get_leaves_body stack top L s) as [[[stack' L'] | e] s1] eqn:Hb;
      [| by eauto].
    apply get_leaves_body_entries in Hb as [Hlt _]; [lia | done].
  - destruct (last stack) as [top |]; [| by eauto].
    destruct (get_leaves_body stack top L s) as [[[stack' L'] | e] s1] eqn:Hb;
      [| by eauto].
    apply get_leaves_body_entries in Hb as [Hlt Hcf]; [| done].
    apply IH; [by apply (stored_only_same s) | lia].
Qed.

Lemma find_loop_ends n : forall (s : objects) node stack,
  stored_only s -> entries s <= n ->
  exists res s', find_loop (S n) node stack s = Some (res, s').
Proof.
  induction n as [| n IH]; intros s node stack Hs Hn; simpl.
  - destruct (last stack) as [top |]; [| by eauto].
    destruct (find_body node stack top s) as [[[stack' |] | e] s1] eqn:Hb;
      [| by eauto | by eauto].
    apply find_body_entries in Hb as [Hlt _]; [lia | done].
  - destruct (last stack) as [top |]; [| by eauto].
    destruct (find_body node stack top s) as [[[stack' |] | e] s1] eqn:Hb;
      [| by eauto | by eauto].
    apply find_body_entries in Hb as [Hlt Hcf]; [| done].
    apply IH; [by apply (stored_only_same s) | lia].
Qed.

(** Over objects that keep their children in list attributes, both
    traversals come to an end - by returning or by raising - whatever the
    shape of the graph, cycles included: every turn takes an entry out of
    some list, so there are no more turns than entries. *)
Theorem traversal_over_lists_ends (s : objects) root node :
  stored_only s ->
  (exists res s',
     forall k, get_leaves (entries s + 1 + k) root s = Some (res, s')) /\
  (exists res s',
     forall k, find (entries s + 1 + k) root node s = Some (res, s')).
Proof.
  intros Hs. replace (entries s + 1) with (S (entries s)) by lia. split.
  - assert (exists res s', get_leaves (S (entries s)) root s = Some (res, s'))
      as (res & s' & Hrun).
    { unfold get_leaves. pose proof (stored_getattr s root Hs) as Hget.
      destruct (getattr root s) as [[v | e] s1]; simpl in Hget; subst;
        [| by eauto].
      by apply get_leaves_loop_ends. }
    exists res, s'. intros k. by apply get_leaves_fuel.
  - assert (exists res s', find (S (entries s)) root node s = Some (res, s'))
      as (res & s' & Hrun).
    { unfold find. pose proof (stored_getattr s root Hs) as Hget.
      destruct (getattr root s) as [[v | e] s1]; simpl in Hget; subst;
        [| by eauto].
      by apply find_loop_ends. }
    exists res, s'. intros k. by apply find_fuel.
Qed.

Lemma stored_only_cycle : stored_only cycle.
Proof.
  intros n fld Hn. unfold cycle in Hn. simpl in Hn.
  repeat (apply lookup_insert_Some in Hn as [[_ <-] | [_ Hn]]; [by eauto |]).
  by rewrite lookup_empty in Hn.
Qed.

Lemma traversal_over_lists_ends_witness :
  (exists res s',
     forall k, get_leaves (entries cycle + 1 + k) 0 cycle = Some (res, s')) /\
  (exists res s',
     forall k, find (entries cycle + 1 + k) 0 5 cycle = Some (res, s')).
Proof. apply (traversal_over_lists_ends cycle 0 5), stored_only_cycle. Defined.

(** On the cycle: node 1 comes back once its own list is used up, and is
    taken for a leaf. *)
Example get_leaves_on_a_cycle fuel :
  fst <$> get_leaves (4 + fuel) 0 cycle = Some (Ok {[1]}).
Proof. erewrite get_leaves_fuel; [| vm_compute; reflexivity]. reflexivity. Qed.

End ConsumedProofs.

(** * Generators, commands and [build] *)

Module GeneratorsProofs.
Import Path PathNames Generators.

Lemma runs_app w1 w2 : runs (w1 ++ w2) = runs w1 ++ runs w2.
Proof. apply omap_app. Qed.

Lemma prints_app w1 w2 : prints (w1 ++ w2) = prints w1 ++ prints w2.
Proof. apply omap_app. Qed.

Lemma Command_set_cmd_coherent c v c' :
  Command_set_cmd c v = Returned c' -> coherent c'.
Proof.
  destruct v as [| | | s |]; try done. intros [= <-].
  left. exists s. simpl. by rewrite lookup_insert_eq.
Qed.

Lemma Command_set_cmd_list_coherent c v c' :
  Command_set_cmd_list c v = Returned c' -> coherent c'.
Proof.
  unfold Command_set_cmd_list. destruct (is_iterable v) eqn:Hv; [| done].
  intros [= <-]. right. exists v. simpl. by rewrite lookup_insert_eq.
Qed.

Lemma assign_coherent c a : coherent c -> coherent (assign c a).
Proof.
  intros Hc. unfold assign. destruct a as [v | v].
  - destruct (Command_set_cmd c v) eqn:Hset; [| done].
    by eapply Command_set_cmd_coherent.
  - destruct (Command_set_cmd_list c v) eqn:Hset; [| done].
    by eapply Command_set_cmd_list_coherent.
Qed.

Lemma Command_init_coherent args kw c :
  Command_init args kw = Returned c -> coherent c.
Proof.
  unfold Command_init. destruct args as [| a [| b args]]; [done | |].
  - apply Command_set_cmd_coherent.
  - apply Command_set_cmd_list_coherent.
Qed.

(** A command is built from one string or from two arguments or more, and
    from nothing else: without an argument the constructor raises
    [AttributeError], with one argument that is not a string
    [TypeError]. *)
Theorem Command_init_accepts args kw :
  ((exists c, Command_init args kw = Returned c) <->
   (2 <= length args \/ exists s, args = [PStr s])) /\
  (args = [] -> Command_init args kw = Raised (Builtin AttributeError)) /\
  (forall a, args = [a] -> is_str a = false ->
     Command_init args kw = Raised (Builtin TypeError)).
Proof.
  split; [| split].
  - unfold Command_init. destruct args as [| a [| b args]]; simpl.
    + split; [by intros [c ?] | intros [? | [s ?]]; [lia | done]].
    + destruct a as [| | | s |]; simpl;
        (split; [intros [c Hc] | intros [? | [s' ?]]]); try done; try lia;
        eauto.
    + split; [intros _; left; lia | intros _]. eauto.
  - by intros ->.
  - intros a -> Ha. by destruct a.
Qed.

(** Whatever is assigned to [cmd] and [cmd_list] after the construction,
    and whether the assignments raise or not, exactly one of [_cmd] and
    [_cmd_list] is set and the stored [shell] flag says which. *)
Theorem Command_stays_coherent args kw c (l : list assignment) :
  Command_init args kw = Returned c ->
  coherent (foldl assign c l).
Proof.
  intros Hinit. apply Command_init_coherent in Hinit.
  revert c Hinit. induction l as [| a l IH]; intros c Hc; [done |].
  simpl. apply IH. by apply assign_coherent.
Qed.

Lemma Command_stays_coherent_witness :
  Command_init [PStr "make"] ∅
  = Returned (mkCommand (set_shell (GeneratorBase_init ∅) true)
                (Some "make") None) /\
  coherent (foldl assign
              (mkCommand (set_shell (GeneratorBase_init ∅) true)
                 (Some "make") None)
              [AssignCmdList (PList [PStr "ls"; PStr "-l"]);
               AssignCmd (PInt 3)]).
Proof.
  split; [reflexivity |].
  apply (Command_stays_coherent [PStr "make"] ∅). reflexivity.
Defined.

(** *** Library arguments *)

Lemma str_take_full_length n s :
  n <= String.length s -> String.length (str_take n s) = n.
Proof.
  revert s. induction n as [| n IH]; intros [| c s]; simpl; try done; try lia.
  intros Hn. rewrite IH; lia.
Qed.

Lemma has_name_app a t : has_name (a +:+ t) = has_name a || has_name t.
Proof.
  induction a as [| c a IH]; [done |].
  change (String c a +:+ t) with (String c (a +:+ t)). simpl.
  by rewrite IH, orb_assoc.
Qed.

Lemma str_take_app_ge a t n :
  String.length a <= n ->
  str_take n (a +:+ t) = a +:+ str_take (n - String.length a) t.
Proof.
  revert n. induction a as [| c a IH]; intros n Hn.
  - simpl. by rewrite Nat.sub_0_r.
  - change (String c a +:+ t) with (String c (a +:+ t)).
    simpl in Hn. destruct n as [| n]; [lia |]. simpl.
    change (String c a +:+ ?x) with (String c (a +:+ x)).
    f_equal. apply IH. lia.
Qed.

Lemma last_index_app_ge c a t k :
  last_index c (a +:+ String c t) = Some k -> String.length a <= k.
Proof.
  revert k. induction a as [| d a IH]; intros k; [simpl; lia |].
  change (String d a +:+ ?x) with (String d (a +:+ x)). simpl.
  destruct (last_index c (a +:+ String c t)) as [k' |] eqn:Hk.
  - intros [= <-]. specialize (IH k' eq_refl). lia.
  - apply PathNamesProofs.last_index_None in Hk.
    rewrite PathNamesProofs.occurs_app in Hk. simpl in Hk.
    rewrite Ascii.eqb_refl in Hk. simpl in Hk.
    by rewrite orb_true_r in Hk.
Qed.

Lemma name_before_dot_take p n :
  n <= String.length p ->
  name_before_dot p 0 n = has_name (str_take n p).
Proof.
  intros Hn.
  pose proof (PathNamesProofs.name_before_dot_scan
                "" (str_take n p) (str_drop n p)) as H.
  rewrite str_take_full_length in H by done.
  change ("" +:+ ?x) with x in H.
  by rewrite PathNamesProofs.str_take_drop in H.
Qed.

(** A library is passed as [-l:lib], the exact file name, exactly when
    the last component of [lib] has a dot after a character that is not a
    dot, and as [-llib] otherwise: [m] gives [-lm], [libfoo.a] gives
    [-l:libfoo.a], and [.so] gives [-l.so]. *)
Theorem external_lib_arg_rule lib :
  let dotted :=
    exists stem e,
      basename lib = stem +:+ "." +:+ e /\ has_name stem = true in
  (external_lib_arg lib = "-l:" +:+ lib /\ dotted) \/
  (external_lib_arg lib = "-l" +:+ lib /\ ~ dotted).
Proof.
  intros dotted. subst dotted.
  unfold external_lib_arg, File_extension, File_split, File_init. simpl name.
  set (b := basename lib).
  assert (Hsep : rfind b "/" = (-1)%Z).
  { unfold rfind.
    destruct (last_index "/" b) eqn:Hl; [| done].
    pose proof (PathNamesProofs.basename_no_sep lib) as Hno.
    apply PathNamesProofs.last_index_None in Hno. fold b in Hno. congruence. }
  unfold splitext. rewrite Hsep. unfold rfind.
  destruct (last_index "." b) as [k |] eqn:Hk.
  - assert ((Z.of_nat k >? -1)%Z = true) as ->.
    { rewrite Z.gtb_ltb. apply Z.ltb_lt. lia. }
    replace (Z.to_nat (-1 + 1)) with 0 by done.
    replace (Z.to_nat (Z.of_nat k - (-1 + 1))) with k by lia.
    rewrite Nat2Z.id.
    pose proof (PathNamesProofs.last_index_Some _ _ _ Hk)
      as (Hlt & Hdrop & Hno).
    rewrite name_before_dot_take by lia.
    destruct (has_name (str_take k b)) eqn:Hname; simpl.
    + left. rewrite Hdrop. simpl. split; [done |].
      exists (str_take k b), (str_drop (S k) b). split; [| done].
      change ("." +:+ ?x) with (String "."%char x).
      by rewrite <- Hdrop, PathNamesProofs.str_take_drop.
    + right. split; [done |]. intros (stem & e & Hb & Hstem).
      change ("." +:+ e) with (String "."%char e) in Hb.
      rewrite Hb in Hk, Hname.
      apply last_index_app_ge in Hk.
      rewrite str_take_app_ge, has_name_app, Hstem in Hname by done.
      done.
  - right. simpl.
    split; [done |]. intros (stem & e & Hb & _).
    apply PathNamesProofs.last_index_None in Hk.
    rewrite Hb, PathNamesProofs.occurs_app in Hk.
    change ("." +:+ e) with (String "."%char e) in Hk. simpl in Hk.
    by rewrite orb_true_r in Hk.
Qed.

Section OS.
Variable spawn : world -> pyvalue -> kwargs -> option raised.




(** *** [build] *)

Lemma run_stage_app gs1 gs2 w :
  run_stage spawn (gs1 ++ gs2) w =
  match run_stage spawn gs1 w with
  | (Returned _, w1) => run_stage spawn gs2 w1
  | (Raised r, w1) => (Raised r, w1)
  end.
Proof.
  revert w. induction gs1 as [| g gs1 IH]; intros w; [done |].
  simpl. unfold gbind. destruct (execute spawn g w) as [[[] | r] w1]; [| done].
  apply IH.
Qed.

Lemma build_is_run_stage stages force w :
  build spawn stages force w = run_stage spawn (mjoin (as_list <$> stages)) w.
Proof.
  revert w. induction stages as [| st stages IH]; intros w; [done |].
  simpl. rewrite run_stage_app. unfold gbind.
  destruct (run_stage spawn (as_list st) w) as [[[] | r] w1]; [| done].
  apply IH.
Qed.

(** [build] executes the generators of all stages one after the other, in
    the order of the stages: how they are grouped into stages, and the
    argument [force], change nothing. *)
Theorem build_flat stages stages' force force' w :
  mjoin (as_list <$> stages) = mjoin (as_list <$> stages') ->
  build spawn stages force w = build spawn stages' force' w.
Proof. intros Heq. by rewrite !build_is_run_stage, Heq. Qed.

(** [build] stops at the first generator that raises: the stages after it
    leave no trace; when the first stages return, the build goes on with
    the rest. *)
Theorem build_app stages1 stages2 force w :
  build spawn (stages1 ++ stages2) force w =
  match build spawn stages1 force w with
  | (Returned _, w1) => build spawn stages2 force w1
  | (Raised r, w1) => (Raised r, w1)
  end.
Proof.
  rewrite !build_is_run_stage, fmap_app, join_app, run_stage_app.
  destruct (run_stage spawn _ w) as [[[] | r] w1]; [| done].
  by rewrite build_is_run_stage.
Qed.

Lemma inner_execute_events self cmd args kw w res w' :
  _execute spawn self cmd args kw w = (res, w') ->
  (exists r, res = Raised r /\ cmd = Raised r /\ w' = w) \/
  (exists line, cmd = Returned line /\
     if imitate self
     then res = Returned tt /\ w' = w ++ [Printed (shown line)]
     else w' = w ++ [Printed (shown line); Ran args kw]).
Proof.
  unfold _execute, gbind, glift, print. destruct cmd as [line | r]; simpl.
  - intros H. right. exists line. split; [done |].
    destruct (imitate self); simpl in H.
    + by injection H as <- <-.
    + unfold subprocess_run in H. injection H as _ <-.
      by rewrite <- app_assoc.
  - intros [= <- <-]. left. eauto.
Qed.

(** What one generator leaves behind: nothing when its line cannot be
    formed, else one line, and one process unless it is imitated. *)
Lemma execute_events g w res w' :
  execute spawn g w = (res, w') ->
  (exists r, res = Raised r /\ w' = w) \/
  (exists line,
     if imitate_of g
     then res = Returned tt /\ w' = w ++ [Printed line]
     else exists a k, w' = w ++ [Printed line; Ran a k]).
Proof.
  destruct g as [c | o | b]; simpl.
  - unfold Command_execute.
    destruct (popen_kwargs (base c) !! "shell") as [sh |];
      [| intros [= <- <-]; left; eauto].
    destruct (truth_value sh).
    + unfold gbind at 1, glift at 1.
      destruct (Command_cmd c) as [line | r] eqn:Hcmd;
        [| intros [= <- <-]; left; eauto].
      intros [(r & -> & _ & ->) | (line' & _ & H)]%inner_execute_events;
        [left; eauto |].
      right. exists (shown line'). destruct (imitate (base c)); eauto.
    + intros [(r & -> & _ & ->) | (line' & _ & H)]%inner_execute_events;
        [left; eauto |].
      right. exists (shown line'). destruct (imitate (base c)); eauto.
  - unfold GeneratorBase_execute, gbind at 1, glift at 1.
    destruct (CCObjectFileGenerator_cmd_list o) as [l | r];
      [| intros [= <- <-]; left; eauto].
    intros [(r & -> & _ & ->) | (line' & _ & H)]%inner_execute_events;
      [left; eauto |].
    right. exists (shown line'). destruct (imitate (obj_base o)); eauto.
  - unfold GeneratorBase_execute, gbind at 1, glift at 1.
    destruct (CCBinaryFileGenerator_cmd_list b) as [l | r];
      [| intros [= <- <-]; left; eauto].
    intros [(r & -> & _ & ->) | (line' & _ & H)]%inner_execute_events;
      [left; eauto |].
    right. exists (shown line'). destruct (imitate (bin_base b)); eauto.
Qed.

Lemma run_stage_dry gs w res w' :
  Forall (fun g => imitate_of g = true) gs ->
  run_stage spawn gs w = (res, w') -> runs w' = runs w.
Proof.
  intros Hall. revert w. induction Hall as [| g gs Hg Hall IH]; intros w.
  - by intros [= _ <-].
  - simpl. unfold gbind. destruct (execute spawn g w) as [o w1] eqn:Hex.
    apply execute_events in Hex as [(r & -> & ->) | (line & H)].
    + by intros [= _ <-].
    + rewrite Hg in H. destruct H as [-> ->]. intros Hrest.
      rewrite (IH _ Hrest), runs_app. simpl. by rewrite app_nil_r.
Qed.

(** A dry run runs nothing: when every generator of the stages has
    [imitate] set, [build] starts no process, whether it returns or
    raises. *)
Theorem build_dry_run stages force w res w' :
  Forall (fun g => imitate_of g = true) (mjoin (as_list <$> stages)) ->
  build spawn stages force w = (res, w') ->
  runs w' = runs w.
Proof. rewrite build_is_run_stage. apply run_stage_dry. Qed.

Lemma run_stage_counts gs w w' :
  run_stage spawn gs w = (Returned tt, w') ->
  length (prints w') = length (prints w) + length gs /\
  length (runs w') =
    length (runs w) + length (filter (fun g => imitate_of g = false) gs).
Proof.
  revert w. induction gs as [| g gs IH]; intros w.
  - intros [= <-]. simpl. lia.
  - simpl. unfold gbind. destruct (execute spawn g w) as [o w1] eqn:Hex.
    apply execute_events in Hex as [(r & -> & ->) | (line & H)]; [done |].
    destruct (imitate_of g) eqn:Hg.
    + destruct H as [-> ->]. intros [Hp Hr]%IH.
      rewrite prints_app in Hp. rewrite runs_app in Hr.
      rewrite filter_cons_False by (by rewrite Hg).
      simpl in *. rewrite length_app in Hp. rewrite app_nil_r in Hr.
      simpl in Hp. lia.
    + destruct H as (a & k & ->). destruct o as [[] | r]; [| done].
      intros [Hp Hr]%IH.
      rewrite prints_app in Hp. rewrite runs_app in Hr.
      rewrite filter_cons_True by done.
      simpl in *. rewrite length_app in Hp, Hr. simpl in *. lia.
Qed.

(** A build that returns has printed one line for every generator of the
    stages and started one process for every generator that is not
    imitated. *)
Theorem build_returns_counts stages force w w' :
  build spawn stages force w = (Returned tt, w') ->
  length (prints w') =
    length (prints w) + length (mjoin (as_list <$> stages)) /\
  length (runs w') =
    length (runs w) +
    length (filter (fun g => imitate_of g = false)
              (mjoin (as_list <$> stages))).
Proof. rewrite build_is_run_stage. apply run_stage_counts. Qed.

End OS.


Lemma build_flat_witness :
  mjoin (as_list <$> [Group [dry "a"; dry "b"]])
  = mjoin (as_list <$> [Single (dry "a"); Single (dry "b")]) /\
  build os_fine [Group [dry "a"; dry "b"]] true []
  = build os_fine [Single (dry "a"); Single (dry "b")] false [].
Proof.
  split; [reflexivity |].
  apply (build_flat os_fine [Group [dry "a"; dry "b"]]
           [Single (dry "a"); Single (dry "b")] true false []).
  reflexivity.
Defined.

Lemma build_dry_run_witness :
  Forall (fun g => imitate_of g = true)
    (mjoin (as_list <$> [Group [dry "a"; dry "b"]])) /\
  build os_fine [Group [dry "a"; dry "b"]] false []
  = (Returned tt, [Printed "a"; Printed "b"]) /\
  runs [Printed "a"; Printed "b"] = runs [].
Proof.
  assert (Hall : Forall (fun g => imitate_of g = true)
                   (mjoin (as_list <$> [Group [dry "a"; dry "b"]]))).
  { repeat constructor. }
  split; [exact Hall |]. split; [reflexivity |].
  apply (build_dry_run os_fine [Group [dry "a"; dry "b"]] false []
           (Returned tt) [Printed "a"; Printed "b"] Hall).
  reflexivity.
Defined.

Lemma build_returns_counts_witness :
  build os_fine [Single (dry "a"); Single (dry "b")] false []
  = (Returned tt, [Printed "a"; Printed "b"]) /\
  length (prints [Printed "a"; Printed "b"]) =
    length (prints []) +
    length (mjoin (as_list <$> [Single (dry "a"); Single (dry "b")])) /\
  length (runs [Printed "a"; Printed "b"]) =
    length (runs []) +
    length (filter (fun g => imitate_of g = false)
              (mjoin (as_list <$> [Single (dry "a"); Single (dry "b")]))).
Proof.
  split; [reflexivity |].
  apply (build_returns_counts os_fine
           [Single (dry "a"); Single (dry "b")] false []).
  reflexivity.
Defined.

End GeneratorsProofs.
